(** * Agent Senate: experiment orchestration engine

    A shallow embedding of [lib/experiment.ts] and [lib/providers.ts]
    (with the interfaces of [lib/types.ts]) and the properties of the
    orchestration engine proved about it.

    Conventions of the embedding.
    - A JavaScript [number] that the code only uses as an integer (round
      numbers, token limits, configured delays, HTTP statuses) is a [Z];
      array indices and lengths are [nat].  The seconds of a retry hint
      are an IEEE 754 binary64 value ([double]), and the delay of a timer
      is a [JsNumber]: an integer, an infinity or [NaN].
    - A JavaScript string is a [string]; [s.length] is [String.length s].
    - An [async] function is a process of type [Proc]: a tree whose nodes
      are the [await]s on the outside world.  [run] executes a process
      against an environment that answers every request.
    - [Map<string, T>] is a [gmap string T]; arrays are lists. *)

From Stdlib Require Import ZArith QArith Lia ZifyNat.
From Stdlib Require String Ascii SpecFloat.
From stdpp Require Import base option list gmap strings pretty.

Close Scope Q_scope.
Open Scope Z_scope.

(** ** lib/types.ts *)

Inductive ProviderName := openai | anthropic | gemini | xai.

Inductive ChatRole := system | user | assistant.

Module ChatMessage.
Record t := mk { role : ChatRole; content : string }.
End ChatMessage.

Module LlmCallInput.
Record t := mk {
  provider : ProviderName;
  model : string;
  messages : list ChatMessage.t;
  temperature : option Q;
  maxTokens : option Z
}.
End LlmCallInput.

Module DebateAgent.
Record t := mk {
  id : string;
  name : string;
  provider : ProviderName;
  model : string;
  persona : string;
  isModerator : option bool
}.
End DebateAgent.

Module DebateTurn.
Record t := mk {
  round : Z;
  agentId : string;
  agentName : string;
  provider : ProviderName;
  model : string;
  content : string
}.
End DebateTurn.

Inductive ExperimentConditionId :=
  single_plain | single_role | multi_mixed_models | multi_same_model_roles.

Module ConditionResult.
Record t := mk {
  conditionId : ExperimentConditionId;
  conditionLabel : string;
  answer : string;
  transcript : list DebateTurn.t
}.
End ConditionResult.

Module BlindedResponse.
Record t := mk {
  blindId : string;
  answer : string;
  sourceConditionId : ExperimentConditionId;
  sourceConditionLabel : string;
  transcript : list DebateTurn.t
}.
End BlindedResponse.

Module ExperimentApiResponse.
Record t := mk {
  runId : string;
  createdAt : string;
  question : string;
  responses : list BlindedResponse.t
}.
End ExperimentApiResponse.

#[global] Instance ProviderName_eq_dec : EqDecision ProviderName.
Proof. solve_decision. Defined.

#[global] Instance ChatRole_eq_dec : EqDecision ChatRole.
Proof. solve_decision. Defined.

#[global] Instance ExperimentConditionId_eq_dec : EqDecision ExperimentConditionId.
Proof. solve_decision. Defined.

(** ** Thrown values

    What a [throw] or a rejected promise carries.  [GeminiCallError] is the
    [Error] extended by [createGeminiError] with [status], [model],
    [bodyText] and [bodyJson]; [JsError] is any other [Error] instance
    (including [TypeError]); [NotAnError] is a thrown value that is not an
    instance of [Error]. *)

Module GeminiErrorDetail.
Record t := mk { type : option string; retryDelay : option string }.
End GeminiErrorDetail.

Module GeminiErrorInfo.
Record t := mk {
  code : option Z;
  status : option string;
  message : option string;
  details : option (list GeminiErrorDetail.t)
}.
End GeminiErrorInfo.

Module GeminiErrorPayload.
Record t := mk { error : option GeminiErrorInfo.t }.
End GeminiErrorPayload.

Module GeminiCallError.
Record t := mk {
  message : string;
  status : Z;
  model : string;
  bodyText : string;
  bodyJson : option GeminiErrorPayload.t
}.
End GeminiCallError.

Inductive Thrown :=
| JsError (message : string)
| GeminiError (e : GeminiCallError.t)
| NotAnError.

(** [error.message] of a thrown value that is an instance of [Error]. *)
Definition errorMessage (error : Thrown) : option string :=
  match error with
  | JsError message => Some message
  | GeminiError e => Some (GeminiCallError.message e)
  | NotAnError => None
  end.

(** ** Asynchronous processes

    [Proc E Resp A] is an [async] computation returning an [A]: it
    returns, throws, or awaits the outside world on a request [ev : E]
    and resumes with the answer of type [Resp ev]. *)

Section Process.
Context {E : Type} {Resp : E → Type}.

Inductive Proc (A : Type) : Type :=
| Return (a : A)
| Throw (e : Thrown)
| Await (ev : E) (k : Resp ev → Proc A).

Arguments Return {A} a.
Arguments Throw {A} e.
Arguments Await {A} ev k.

Fixpoint bind {A B} (p : Proc A) (f : A → Proc B) : Proc B :=
  match p with
  | Return a => f a
  | Throw e => Throw e
  | Await ev k => Await ev (λ r, bind (k r) f)
  end.

(** [try { p } catch (error) { h error }] *)
Fixpoint tryCatch {A} (p : Proc A) (h : Thrown → Proc A) : Proc A :=
  match p with
  | Return a => Return a
  | Throw e => h e
  | Await ev k => Await ev (λ r, tryCatch (k r) h)
  end.

(** A request together with the answer it got. *)
Definition Interaction := {ev : E & Resp ev}.

(** The environment answers a request knowing the interactions so far. *)
Definition Env := list Interaction → ∀ ev : E, Resp ev.

(** [run env p tr] executes [p] after the interactions [tr] and returns
    its outcome with the extended list of interactions. *)
Fixpoint run {A} (env : Env) (p : Proc A) (tr : list Interaction)
    : (A + Thrown) * list Interaction :=
  match p with
  | Return a => (inl a, tr)
  | Throw e => (inr e, tr)
  | Await ev k => let r := env tr ev in run env (k r) (tr ++ [existT ev r])
  end.

(** [p] can return [a] for some answers of the outside world. *)
Fixpoint CanReturn {A} (p : Proc A) (a : A) : Prop :=
  match p with
  | Return b => b = a
  | Throw _ => False
  | Await ev k => ∃ r, CanReturn (k r) a
  end.

(** [for (const x of xs) { acc = await body(acc, x) }] *)
Fixpoint forOf {A S} (body : S → A → Proc S) (xs : list A) (acc : S) : Proc S :=
  match xs with
  | [] => Return acc
  | x :: rest => bind (body acc x) (forOf body rest)
  end.

End Process.

Arguments Proc E Resp A : clear implicits.
Arguments Return {E Resp A} a.
Arguments Throw {E Resp A} e.
Arguments Await {E Resp A} ev k.
Arguments Env E Resp : clear implicits.
Arguments Interaction E Resp : clear implicits.

#[global] Instance Proc_ret {E Resp} : MRet (Proc E Resp) := λ A a, Return a.
#[global] Instance Proc_bind {E Resp} : MBind (Proc E Resp) := λ A B f p, bind p f.

(** ** JavaScript string helpers *)

(** The line feed of the ["\n"] separators. *)
Definition LF : string := String (Ascii.ascii_of_nat 10) EmptyString.

(** [parts.join(sep)] *)
Definition join (sep : string) (parts : list string) : string := String.concat sep parts.

(** [s.slice(0, n)] for [0 <= n] *)
Definition slice0 (s : string) (n : nat) : string := String.substring 0 n s.

(** [s.includes(pat)] *)
Definition includes (s pat : string) : bool :=
  match String.index 0 pat s with Some _ => true | None => false end.

(** [s.endsWith(suffix)] *)
Definition endsWith (s suffix : string) : bool :=
  (String.length suffix <=? String.length s)%nat &&
  bool_decide
    (String.substring (String.length s - String.length suffix) (String.length suffix) s = suffix).

(** The characters that make a pattern of a replacement text. *)
Definition DOLLAR : Ascii.ascii := Ascii.ascii_of_nat 36.
Definition AMPERSAND : Ascii.ascii := Ascii.ascii_of_nat 38.
Definition BACKTICK : Ascii.ascii := Ascii.ascii_of_nat 96.
Definition APOSTROPHE : Ascii.ascii := Ascii.ascii_of_nat 39.

(** The text that [String.prototype.replace] puts in the place of
    [matched], found between [before] and [after], for the replacement
    text [template] (GetSubstitution without captures): [$$] stands for a
    dollar sign, [$&] for the matched text, [$`] for the text before it
    and [$'] for the text after it; a dollar sign followed by anything
    else, a digit or [<] included as there is no capture group, stands
    for itself. *)
Fixpoint getSubstitution (matched before after template : string) : string :=
  match template with
  | EmptyString => EmptyString
  | String c rest =>
      if Ascii.eqb c DOLLAR then
        match rest with
        | EmptyString => String c EmptyString
        | String d rest' =>
            if Ascii.eqb d DOLLAR then String DOLLAR (getSubstitution matched before after rest')
            else if Ascii.eqb d AMPERSAND then
              matched +:+ getSubstitution matched before after rest'
            else if Ascii.eqb d BACKTICK then
              before +:+ getSubstitution matched before after rest'
            else if Ascii.eqb d APOSTROPHE then
              after +:+ getSubstitution matched before after rest'
            else String c (getSubstitution matched before after rest)
        end
      else String c (getSubstitution matched before after rest)
  end.

(** [s.replace(pat, repl)] with a string pattern: the first occurrence
    only, replaced by the substitution that [repl] describes. *)
Definition replace (s pat repl : string) : string :=
  match String.index 0 pat s with
  | Some i =>
      let before := String.substring 0 i s in
      let after :=
        String.substring (i + String.length pat) (String.length s - (i + String.length pat)) s in
      before +:+ getSubstitution pat before after repl +:+ after
  | None => s
  end.

(** ** lib/experiment.ts *)

(** The one request of the orchestration layer: [await callLlm(input)],
    which resolves to a text or rejects. *)
Inductive LlmEvent := CallLlm (input : LlmCallInput.t).

Definition LlmResp (ev : LlmEvent) : Type := (string + Thrown)%type.

Abbreviation LlmProc := (Proc LlmEvent LlmResp).
Abbreviation LlmInteraction := (Interaction LlmEvent LlmResp).

Definition callLlm (input : LlmCallInput.t) : LlmProc string :=
  Await (CallLlm input) (λ r : LlmResp (CallLlm input),
    match r with inl text => Return text | inr e => Throw e end).

Module ModelCatalog.
Record t := mk { openai : string; anthropic : string; gemini : string; xai : string }.
End ModelCatalog.

Module DebateRunResult.
Record t := mk { answer : string; transcript : list DebateTurn.t }.
End DebateRunResult.

Module SingleConditionInput.
Record t := mk {
  conditionId : ExperimentConditionId;
  conditionLabel : string;
  question : string;
  systemPrompt : string;
  provider : ProviderName;
  model : string
}.
End SingleConditionInput.

Module DebateConditionInput.
Record t := mk {
  conditionId : ExperimentConditionId;
  conditionLabel : string;
  question : string;
  agents : list DebateAgent.t;
  rounds : Z
}.
End DebateConditionInput.

Module DebateInput.
Record t := mk { question : string; agents : list DebateAgent.t; rounds : Z }.
End DebateInput.

Module RoundPromptInput.
Record t := mk {
  question : string;
  round : Z;
  totalRounds : Z;
  agent : DebateAgent.t;
  previousRoundTurns : list DebateTurn.t
}.
End RoundPromptInput.

Definition MAX_SINGLE_RESPONSE_TOKENS : Z := 1000.

Definition CORE_SINGLE_INSTRUCTIONS : string :=
  join " " [
    "You are helping evaluate answer quality for a capstone project.";
    "Provide a direct answer first, then concise justification.";
    "If uncertain, clearly state uncertainty instead of over-claiming.";
    "Keep the response under 220 words."
  ].

Definition ROLE_BASED_SINGLE_INSTRUCTIONS : string :=
  join " " [
    "You are a methodical evaluator with expertise in critical reasoning.";
    "Explain the answer as if your work will be audited for correctness.";
    "Include one brief caveat if there is meaningful uncertainty.";
    "Keep the response under 240 words."
  ].

Definition DEBATE_SYSTEM_TEMPLATE : string :=
  join LF [
    "You are participating in a structured multi-agent debate to find the best possible answer.";
    "Persona: {PERSONA}";
    EmptyString;
    "Rules:";
    "1) Prioritize correctness over persuasion.";
    "2) Challenge weak reasoning from peers and concede when another argument is stronger.";
    "3) Be specific and concrete; do not use filler.";
    "4) Keep each round response under 200 words.";
    EmptyString;
    "Round 1 goal: propose an initial answer and your reasoning.";
    "Round 2+ goal: evaluate peers, refine your position, and ask targeted questions.";
    "Final goal: support a single best answer, with uncertainty explicitly noted when needed."
  ].

Definition clampText (input : string) (maxChars : nat) : string :=
  if (String.length input <=? maxChars)%nat then input
  else slice0 input (maxChars - 3) +:+ "...".

Definition formatPeerContext (turns : list DebateTurn.t) (selfAgentId : string) : string :=
  let peers := filter (λ turn, DebateTurn.agentId turn ≠ selfAgentId) turns in
  if decide (length peers = 0%nat) then "- No prior peer statements available."
  else
    join LF
      (map (λ turn, "- " +:+ DebateTurn.agentName turn +:+ ": " +:+
                    clampText (DebateTurn.content turn) 280) peers).

Definition buildRoundPrompt (input : RoundPromptInput.t) : string :=
  let header :=
    join LF [
      "Question: " +:+ RoundPromptInput.question input;
      "Round " +:+ pretty (RoundPromptInput.round input) +:+ " of " +:+
        pretty (RoundPromptInput.totalRounds input)
    ] in
  if decide (RoundPromptInput.round input = 1) then
    join LF [
      header;
      EmptyString;
      "Task:";
      "- Provide your initial best answer.";
      "- Explain your strongest reasoning in 3-5 concise bullets.";
      "- End with confidence score from 0-100.";
      EmptyString;
      "Format:";
      "Answer:";
      "Reasoning:";
      "Questions for peers:";
      "Confidence:"
    ]
  else
    let peerContext :=
      formatPeerContext (RoundPromptInput.previousRoundTurns input)
        (DebateAgent.id (RoundPromptInput.agent input)) in
    join LF [
      header;
      EmptyString;
      "Peer updates from the previous round:";
      peerContext;
      EmptyString;
      "Task:";
      "- Critique at least one peer claim.";
      "- Defend your current answer or concede to a stronger answer.";
      "- Ask up to 2 pointed questions only if needed.";
      "- End with an updated confidence score from 0-100.";
      EmptyString;
      "Format:";
      "Current answer:";
      "Why this is stronger (or concession):";
      "Questions for peers:";
      "Confidence:"
    ].

Definition buildModeratorPrompt (question : string) (transcript : list DebateTurn.t)
    (rounds : Z) : string :=
  let condensedTranscript :=
    join (LF +:+ LF)
      (map (λ turn,
              let snippet := clampText (DebateTurn.content turn) 360 in
              "Round " +:+ pretty (DebateTurn.round turn) +:+ " - " +:+
              DebateTurn.agentName turn +:+ ": " +:+ snippet)
           (filter (λ turn, (DebateTurn.round turn ≤ rounds)%Z) transcript)) in
  join LF [
    "Question: " +:+ question;
    EmptyString;
    "You are the moderator. Synthesize the debate into one final answer.";
    "Use the transcript below. If no full consensus exists, still provide the single best answer and mention unresolved disagreement briefly.";
    EmptyString;
    "Return exactly this structure:";
    "Final answer:";
    "Why this answer wins:";
    "Remaining uncertainty:";
    "Final confidence (0-100):";
    EmptyString;
    "Transcript:";
    condensedTranscript
  ].

(** Truthiness of an optional boolean property. *)
Definition truthy (b : option bool) : bool := default false b.

Section Debate.
Context (MAX_DEBATE_RESPONSE_TOKENS : Z).

(** The body of [for (const agent of input.agents)] in [runDebate]; the
    loop state is the [histories] map and the [contributions] of the
    current round.  [history] is an array shared with the map, so each
    [push] is an update of the map entry. *)
Definition debateTurn (input : DebateInput.t) (round : Z)
    (previousRoundTurns : list DebateTurn.t)
    (st : gmap string (list ChatMessage.t) * list DebateTurn.t)
    (agent : DebateAgent.t)
    : LlmProc (gmap string (list ChatMessage.t) * list DebateTurn.t) :=
  let '(histories, contributions) := st in
  let roundPrompt :=
    buildRoundPrompt
      (RoundPromptInput.mk (DebateInput.question input) round (DebateInput.rounds input)
         agent previousRoundTurns) in
  match histories !! DebateAgent.id agent with
  | None => Throw (JsError ("Missing chat history for agent " +:+ DebateAgent.id agent))
  | Some history =>
      let history1 := history ++ [ChatMessage.mk user roundPrompt] in
      content ← callLlm
        (LlmCallInput.mk (DebateAgent.provider agent) (DebateAgent.model agent) history1
           (Some (1 # 2)%Q) (Some MAX_DEBATE_RESPONSE_TOKENS));
      let history2 := history1 ++ [ChatMessage.mk assistant content] in
      mret (<[DebateAgent.id agent := history2]> histories,
            contributions ++
              [DebateTurn.mk round (DebateAgent.id agent) (DebateAgent.name agent)
                 (DebateAgent.provider agent) (DebateAgent.model agent) content])
  end.

(** [for (let round = ...; round <= input.rounds; round += 1)], entered
    with [remaining] iterations left to run (from [round = 1], that is
    [Z.to_nat input.rounds] of them). *)
Fixpoint debateRounds (input : DebateInput.t) (remaining : nat) (round : Z)
    (histories : gmap string (list ChatMessage.t)) (transcript : list DebateTurn.t)
    : LlmProc (gmap string (list ChatMessage.t) * list DebateTurn.t) :=
  match remaining with
  | O => mret (histories, transcript)
  | S remaining' =>
      let previousRoundTurns :=
        filter (λ turn, DebateTurn.round turn = round - 1) transcript in
      '(histories', contributions) ←
        forOf (debateTurn input round previousRoundTurns) (DebateInput.agents input)
          (histories, []);
      debateRounds input remaining' (round + 1) histories' (transcript ++ contributions)
  end.

Definition initialHistories (agents : list DebateAgent.t) : gmap string (list ChatMessage.t) :=
  foldl (λ histories agent,
           <[DebateAgent.id agent :=
               [ChatMessage.mk system
                  (replace DEBATE_SYSTEM_TEMPLATE "{PERSONA}" (DebateAgent.persona agent))]]>
             histories)
        ∅ agents.

(** [input.agents.find((agent) => agent.isModerator) ?? input.agents[0]] *)
Definition findModerator (agents : list DebateAgent.t) : option DebateAgent.t :=
  match List.find (λ agent, truthy (DebateAgent.isModerator agent)) agents with
  | Some agent => Some agent
  | None => head agents
  end.

Definition runDebate (input : DebateInput.t) : LlmProc DebateRunResult.t :=
  '(histories, transcript) ←
    debateRounds input (Z.to_nat (DebateInput.rounds input)) 1
      (initialHistories (DebateInput.agents input)) [];
  match findModerator (DebateInput.agents input) with
  | None => Throw (JsError "Cannot read properties of undefined (reading 'id')")
  | Some moderator =>
      match histories !! DebateAgent.id moderator with
      | None =>
          Throw (JsError ("Missing moderator history for agent " +:+ DebateAgent.id moderator))
      | Some moderatorHistory =>
          let moderatorHistory1 :=
            moderatorHistory ++
              [ChatMessage.mk user
                 (buildModeratorPrompt (DebateInput.question input) transcript
                    (DebateInput.rounds input))] in
          finalAnswer ← callLlm
            (LlmCallInput.mk (DebateAgent.provider moderator) (DebateAgent.model moderator)
               moderatorHistory1 (Some (1 # 5)%Q) (Some 950));
          mret (DebateRunResult.mk finalAnswer
                  (transcript ++
                     [DebateTurn.mk (DebateInput.rounds input + 1) (DebateAgent.id moderator)
                        (DebateAgent.name moderator +:+ " (Final Synthesis)")
                        (DebateAgent.provider moderator) (DebateAgent.model moderator)
                        finalAnswer]))
      end
  end.

Definition runDebateCondition (input : DebateConditionInput.t) : LlmProc ConditionResult.t :=
  debate ← runDebate
    (DebateInput.mk (DebateConditionInput.question input) (DebateConditionInput.agents input)
       (Z.max 1 (DebateConditionInput.rounds input)));
  mret (ConditionResult.mk (DebateConditionInput.conditionId input)
          (DebateConditionInput.conditionLabel input)
          (DebateRunResult.answer debate) (DebateRunResult.transcript debate)).

End Debate.

Definition runSingleCondition (input : SingleConditionInput.t) : LlmProc ConditionResult.t :=
  let messages := [
    ChatMessage.mk system (SingleConditionInput.systemPrompt input);
    ChatMessage.mk user ("Question: " +:+ SingleConditionInput.question input)
  ] in
  answer ← callLlm
    (LlmCallInput.mk (SingleConditionInput.provider input) (SingleConditionInput.model input)
       messages (Some (1 # 5)%Q) (Some MAX_SINGLE_RESPONSE_TOKENS));
  mret (ConditionResult.mk (SingleConditionInput.conditionId input)
          (SingleConditionInput.conditionLabel input) answer
          [DebateTurn.mk 1 "single" "Single Model" (SingleConditionInput.provider input)
             (SingleConditionInput.model input) answer]).

(** *** Blinding *)

(** [[xs[i], xs[j]] = [xs[j], xs[i]]].  Both indices are within the array
    wherever the code swaps; outside that the list is left as it is. *)
Definition swap {A} (xs : list A) (i j : nat) : list A :=
  match xs !! i, xs !! j with
  | Some xi, Some xj => <[j := xi]> (<[i := xj]> xs)
  | _, _ => xs
  end.

(** [for (let index = ...; index > 0; index -= 1)] of [blindAndShuffle],
    entered at [index]; [draw index] is the value of
    [Math.floor(Math.random() * (index + 1))] in the iteration at [index],
    an integer of [0..index]. *)
Fixpoint shuffleFrom {A} (draw : nat → nat) (index : nat) (shuffled : list A) : list A :=
  match index with
  | O => shuffled
  | S index' =>
      let swapIndex := draw index in
      shuffleFrom draw index' (swap shuffled index swapIndex)
  end.

Definition blindLabels : list string :=
  ["Response A"; "Response B"; "Response C"; "Response D"].

Definition blindAndShuffle (draw : nat → nat) (results : list ConditionResult.t)
    : list BlindedResponse.t :=
  let shuffled := shuffleFrom draw (length results - 1) results in
  let labels := blindLabels in
  imap (λ index result,
          BlindedResponse.mk
            (default ("Response " +:+ pretty (index + 1)%nat) (labels !! index))
            (ConditionResult.answer result)
            (ConditionResult.conditionId result)
            (ConditionResult.conditionLabel result)
            (ConditionResult.transcript result))
       shuffled.

Definition fallbackMappings : list (ExperimentConditionId * string) := [
  (single_plain, "Single model (first attempt)");
  (multi_mixed_models, "4-agent mixed-model debate");
  (multi_same_model_roles, "4 same-model agents with distinct roles");
  (single_role, "Single model with role prompt")
].

Definition buildFailedConditionResult (index : nat) (reason : Thrown) : ConditionResult.t :=
  let fallback :=
    default (single_plain, "Single model (first attempt)") (fallbackMappings !! index) in
  let errorMessage := default "Unknown failure" (errorMessage reason) in
  ConditionResult.mk (fst fallback) (snd fallback)
    ("This condition failed to run." +:+ LF +:+ LF +:+ "Error: " +:+ errorMessage) [].

(** *** Rosters and labels *)

Definition buildGeminiBackedMixedAgents (geminiModel : string) : list DebateAgent.t := [
  DebateAgent.mk "chatgpt_slot" "ChatGPT Slot (Gemini backend)" gemini geminiModel
    "Debate moderator focused on extracting the strongest shared answer. Push peers to justify claims and integrate valid objections."
    (Some true);
  DebateAgent.mk "claude_slot" "Claude Slot (Gemini backend)" gemini geminiModel
    "Careful reasoner. Stress-test assumptions, clarify ambiguity, and highlight hidden edge cases before accepting a conclusion."
    None;
  DebateAgent.mk "gemini_slot" "Gemini Slot" gemini geminiModel
    "Evidence-oriented analyst. Prefer verifiable facts, explicit logic steps, and concise error bounds or caveats."
    None;
  DebateAgent.mk "grok_slot" "Grok Slot (Gemini backend)" gemini geminiModel
    "Constructive challenger. Attack weak arguments and propose alternative hypotheses until they are disproven."
    None
].

Definition buildMixedModelAgents (models : ModelCatalog.t) (forceGeminiOnly : bool)
    : list DebateAgent.t :=
  if forceGeminiOnly then buildGeminiBackedMixedAgents (ModelCatalog.gemini models)
  else [
    DebateAgent.mk "chatgpt_moderator" "ChatGPT Moderator" openai (ModelCatalog.openai models)
      "Debate moderator focused on extracting the strongest shared answer. Push peers to justify claims and integrate valid objections."
      (Some true);
    DebateAgent.mk "claude_reasoner" "Claude" anthropic (ModelCatalog.anthropic models)
      "Careful reasoner. Stress-test assumptions, clarify ambiguity, and highlight hidden edge cases before accepting a conclusion."
      None;
    DebateAgent.mk "gemini_evidence" "Gemini" gemini (ModelCatalog.gemini models)
      "Evidence-oriented analyst. Prefer verifiable facts, explicit logic steps, and concise error bounds or caveats."
      None;
    DebateAgent.mk "grok_challenger" "Grok" xai (ModelCatalog.xai models)
      "Constructive challenger. Attack weak arguments and propose alternative hypotheses until they are disproven."
      None
  ].

Definition buildSameModelRoleAgents (provider : ProviderName) (model : string)
    : list DebateAgent.t := [
  DebateAgent.mk "lead_moderator" "Lead Moderator" provider model
    "Lead moderator responsible for convergence. Keep the team focused, call out contradictions, and synthesize the strongest final answer."
    (Some true);
  DebateAgent.mk "skeptic" "Skeptic" provider model
    "Skeptical reviewer. Your role is to find mistakes, weak assumptions, and overconfidence in every claim."
    None;
  DebateAgent.mk "researcher" "Researcher" provider model
    "Research-oriented analyst. Bring structured, evidence-first reasoning and compare plausible alternatives."
    None;
  DebateAgent.mk "pragmatist" "Pragmatist" provider model
    "Pragmatic decision-maker. Select answers that are actionable and robust under realistic constraints."
    None
].

(** [Record<ExperimentConditionId, string>] *)
Definition getConditionLabels (forceGeminiOnly : bool) : ExperimentConditionId → string :=
  if forceGeminiOnly then
    λ id, match id with
          | single_plain => "Single Gemini (first attempt)"
          | multi_mixed_models => "4-agent debate (Gemini-backed stand-ins)"
          | multi_same_model_roles => "4 Gemini agents with distinct roles"
          | single_role => "Single Gemini with role prompt"
          end
  else
    λ id, match id with
          | single_plain => "Single ChatGPT (first attempt)"
          | multi_mixed_models => "4-model debate (ChatGPT + Claude + Gemini + Grok)"
          | multi_same_model_roles => "4 ChatGPT agents with distinct roles"
          | single_role => "Single ChatGPT with role prompt"
          end.

(** *** Running the conditions *)

Definition runConditionsSequentially (conditionRunners : list (LlmProc ConditionResult.t))
    : LlmProc (list ConditionResult.t) :=
  forOf
    (λ results '(index, runCondition),
       tryCatch
         (result ← runCondition; mret (results ++ [result]))
         (λ error, mret (results ++ [buildFailedConditionResult index error])))
    (imap (λ index runCondition, (index, runCondition)) conditionRunners)
    [].

Inductive PromiseSettledResult (A : Type) :=
| fulfilled (value : A)
| rejected (reason : Thrown).

Arguments fulfilled {A} value.
Arguments rejected {A} reason.

(** A promise followed to its settlement. *)
Definition settled {E Resp A} (p : Proc E Resp A) : Proc E Resp (PromiseSettledResult A) :=
  tryCatch (value ← p; mret (fulfilled value)) (λ reason, mret (rejected reason)).

(** [Promise.allSettled(promises)] for promises that run concurrently.
    The processes advance one request at a time in the order of
    [schedule] (the index of the process whose pending request is
    answered next); once the schedule is used up the processes that are
    left are followed to their end in array order.  Every interleaving of
    the requests of finitely many processes is one such schedule. *)
Fixpoint allSettled {E Resp A} (schedule : list nat) (promises : list (Proc E Resp A))
    : Proc E Resp (list (PromiseSettledResult A)) :=
  match schedule with
  | [] => forOf (λ results p, result ← settled p; mret (results ++ [result])) promises []
  | i :: schedule' =>
      match promises !! i with
      | Some (Await ev k) => Await ev (λ r, allSettled schedule' (<[i := k r]> promises))
      | _ => allSettled schedule' promises
      end
  end.

Definition runConditionsInParallel (schedule : list nat)
    (conditionRunners : list (LlmProc ConditionResult.t))
    : LlmProc (list ConditionResult.t) :=
  settled ← allSettled schedule conditionRunners;
  mret (imap (λ index result,
                match result with
                | fulfilled value => value
                | rejected reason => buildFailedConditionResult index reason
                end)
             settled).

Section Experiment.
Context (MAX_DEBATE_RESPONSE_TOKENS DEFAULT_DEBATE_ROUNDS : Z).
Context (FORCE_GEMINI_ONLY SERIALIZE_CONDITIONS : bool).

(** The inputs of one run that come from the host: the result of
    [getModelCatalog()], [crypto.randomUUID()], [new Date().toISOString()],
    the draws of [Math.random] and, in concurrent mode, the interleaving. *)
Context (models : ModelCatalog.t) (runId createdAt : string).
Context (draw : nat → nat) (schedule : list nat).

Definition conditionRunners (question : string) : list (LlmProc ConditionResult.t) :=
  let singleProvider := if FORCE_GEMINI_ONLY then gemini else openai in
  let singleModel :=
    if FORCE_GEMINI_ONLY then ModelCatalog.gemini models else ModelCatalog.openai models in
  let conditionLabels := getConditionLabels FORCE_GEMINI_ONLY in
  [ runSingleCondition
      (SingleConditionInput.mk single_plain (conditionLabels single_plain) question
         CORE_SINGLE_INSTRUCTIONS singleProvider singleModel);
    runDebateCondition MAX_DEBATE_RESPONSE_TOKENS
      (DebateConditionInput.mk multi_mixed_models (conditionLabels multi_mixed_models) question
         (buildMixedModelAgents models FORCE_GEMINI_ONLY) DEFAULT_DEBATE_ROUNDS);
    runDebateCondition MAX_DEBATE_RESPONSE_TOKENS
      (DebateConditionInput.mk multi_same_model_roles (conditionLabels multi_same_model_roles)
         question (buildSameModelRoleAgents singleProvider singleModel) DEFAULT_DEBATE_ROUNDS);
    runSingleCondition
      (SingleConditionInput.mk single_role (conditionLabels single_role) question
         ROLE_BASED_SINGLE_INSTRUCTIONS singleProvider singleModel) ].

Definition runExperiment (question : string) : LlmProc ExperimentApiResponse.t :=
  conditionResults ←
    (if SERIALIZE_CONDITIONS
     then runConditionsSequentially (conditionRunners question)
     else runConditionsInParallel schedule (conditionRunners question));
  let blinded := blindAndShuffle draw conditionResults in
  mret (ExperimentApiResponse.mk runId createdAt question blinded).

End Experiment.

(** ** lib/providers.ts: the Gemini adapter *)

(** What [callGeminiSingle] gets back from [fetch]: a response that is
    not [ok], an [ok] response with the text read from the first
    candidate's parts ([None] when there is none), or a rejected [fetch]
    (network failure, timeout abort). *)
Inductive FetchOutcome :=
| ResponseNotOk (status : Z) (body : string)
| ResponseOk (text : option string)
| FetchRejected (reason : Thrown).

(** The numbers of the retry delays.  A retry hint given in seconds is
    read by [Number.parseFloat] as an IEEE 754 binary64 value and
    multiplied by 1000 in binary64 arithmetic. *)
Definition double : Type := SpecFloat.spec_float.

(** [x * y] and [x / y] on binary64 values, rounded to nearest, ties to
    even. *)
Definition double_mul : double → double → double := SpecFloat.SFmul 53 1024.
Definition double_div : double → double → double := SpecFloat.SFdiv 53 1024.

(** The binary64 value of an integer literal. *)
Definition double_of_Z (z : Z) : double := SpecFloat.binary_normalize 53 1024 z 0 false.

(** [Number.isNaN(x)] *)
Definition Number_isNaN (x : double) : bool :=
  match x with SpecFloat.S754_nan => true | _ => false end.

(** A delay in milliseconds: an integer, or what [Math.ceil] makes of an
    infinite value or of [NaN]. *)
Inductive JsNumber :=
| Integer (z : Z)
| Infinity (negative : bool)
| NotANumber.

Coercion Integer : Z >-> JsNumber.

(** [Math.ceil(x)]: the least integer that is not below [x]. *)
Definition Math_ceil (x : double) : JsNumber :=
  match x with
  | SpecFloat.S754_zero _ => Integer 0
  | SpecFloat.S754_infinity negative => Infinity negative
  | SpecFloat.S754_nan => NotANumber
  | SpecFloat.S754_finite negative m e =>
      Integer
        (if negative then
           - (if decide (0 ≤ e) then Z.pos m * 2 ^ e else Z.pos m / 2 ^ (- e))
         else
           if decide (0 ≤ e) then Z.pos m * 2 ^ e else - (- Z.pos m / 2 ^ (- e)))
  end.

(** [Math.max(x, y)] *)
Definition Math_max (x y : JsNumber) : JsNumber :=
  match x, y with
  | NotANumber, _ | _, NotANumber => NotANumber
  | Infinity false, _ | _, Infinity false => Infinity false
  | Infinity true, other | other, Infinity true => other
  | Integer a, Integer b => Integer (Z.max a b)
  end.

(** [x <= y] *)
Definition number_le (x y : JsNumber) : bool :=
  match x, y with
  | NotANumber, _ | _, NotANumber => false
  | Infinity true, _ | _, Infinity false => true
  | Infinity false, _ | _, Infinity true => false
  | Integer a, Integer b => bool_decide (a ≤ b)
  end.

(** The requests of the adapter: a timer of [sleep] and the HTTP request
    of [callGeminiSingle]. *)
Inductive GeminiEvent :=
| SetTimeout (ms : JsNumber)
| Fetch (input : LlmCallInput.t).

Definition GeminiResp (ev : GeminiEvent) : Type :=
  match ev with
  | SetTimeout _ => unit
  | Fetch _ => FetchOutcome
  end.

Abbreviation GeminiProc := (Proc GeminiEvent GeminiResp).
Abbreviation GeminiInteraction := (Interaction GeminiEvent GeminiResp).

Definition sleep (ms : JsNumber) : GeminiProc unit :=
  if number_le ms 0 then mret tt
  else Await (SetTimeout ms) (λ _ : GeminiResp (SetTimeout ms), Return tt).

(** [unknown] values that may be [undefined] are [option Thrown]. *)
Definition isGeminiCallError (error : option Thrown) : option GeminiCallError.t :=
  match error with
  | Some (GeminiError e) => Some e
  | _ => None
  end.

Definition isRetryableGeminiError (error : option Thrown) : bool :=
  match isGeminiCallError error with
  | None => false
  | Some e =>
      bool_decide (GeminiCallError.status e = 429) || bool_decide (500 ≤ GeminiCallError.status e)
  end.

Definition isModelNotFoundError (error : option Thrown) : bool :=
  match isGeminiCallError error with
  | None => false
  | Some e => bool_decide (GeminiCallError.status e = 404)
  end.

Definition isQuotaError (error : option Thrown) : bool :=
  match isGeminiCallError error with
  | None => false
  | Some e =>
      bool_decide
        ((GeminiCallError.bodyJson e ≫= GeminiErrorPayload.error) ≫= GeminiErrorInfo.status
         = Some "RESOURCE_EXHAUSTED")
      || bool_decide (GeminiCallError.status e = 429)
  end.

(** [[...new Set(values)]]: the first occurrence of each value, in order. *)
Definition uniqueValues (values : list string) : list string :=
  foldl (λ seen value, if decide (value ∈ seen) then seen else seen ++ [value]) [] values.

Section GeminiAdapter.
Context (GEMINI_REQUEST_SPACING_MS GEMINI_MAX_RETRIES GEMINI_RETRY_BACKOFF_MS : Z).
Context (GEMINI_FALLBACK_MODELS : list string).

(** Built-ins of the language that the adapter calls: [JSON.parse]
    ([None] when it throws), [String.prototype.trim], [Number.parseFloat]
    (a binary64 value, [NaN] included) and [Number.parseInt(_, 10)]
    ([None] for [NaN]). *)
Context (JSON_parse : string → option GeminiErrorPayload.t).
Context (trim : string → string).
Context (parseFloat : string → double) (parseInt : string → option Z).

Definition safeParseGeminiErrorBody (bodyText : string) : option GeminiErrorPayload.t :=
  JSON_parse bodyText.

Definition createGeminiError (status : Z) (bodyText model : string) : GeminiCallError.t :=
  let bodyJson := safeParseGeminiErrorBody bodyText in
  GeminiCallError.mk
    ("Gemini request failed (" +:+ pretty status +:+ ") [model=" +:+ model +:+ "]: " +:+ bodyText)
    status model bodyText bodyJson.

Definition callGeminiSingle (input : LlmCallInput.t) : GeminiProc string :=
  Await (Fetch input) (λ response : GeminiResp (Fetch input),
    match response with
    | FetchRejected reason => Throw reason
    | ResponseNotOk status body =>
        Throw (GeminiError (createGeminiError status body (LlmCallInput.model input)))
    | ResponseOk text =>
        match text with
        | Some (String c s) => Return (String c s)
        | _ => Throw (JsError "Gemini response was missing text content.")
        end
    end).

Definition extractRetryDelayMs (error : option Thrown) : option JsNumber :=
  match isGeminiCallError error with
  | None => None
  | Some e =>
      let details :=
        default []
          ((GeminiCallError.bodyJson e ≫= GeminiErrorPayload.error) ≫= GeminiErrorInfo.details) in
      let retryInfo :=
        List.find (λ detail,
                     match GeminiErrorDetail.type detail with
                     | Some type => includes type "RetryInfo"
                     | None => false
                     end) details in
      let retryDelayValue := retryInfo ≫= GeminiErrorDetail.retryDelay in
      match retryDelayValue with
      | None | Some EmptyString => None
      | Some retryDelayValue =>
          let normalized := trim retryDelayValue in
          let fromSeconds :=
            if endsWith normalized "s" then
              let seconds := parseFloat (slice0 normalized (String.length normalized - 1)) in
              if negb (Number_isNaN seconds)
              then Some (Math_ceil (double_mul seconds (double_of_Z 1000)))
              else None
            else None in
          match fromSeconds with
          | Some ms => Some ms
          | None => Integer <$> parseInt normalized
          end
      end
  end.

(** [attempt] is at least 1 at every call, so the exponent is a natural
    number. *)
Definition computeRetryDelay (error : option Thrown) (attempt : Z) : JsNumber :=
  match extractRetryDelayMs error with
  | Some retryHintMs => Math_max retryHintMs GEMINI_REQUEST_SPACING_MS
  | None => Math_max (GEMINI_RETRY_BACKOFF_MS * 2 ^ (attempt - 1)) GEMINI_REQUEST_SPACING_MS
  end.

(** [for (let attempt = ...; attempt <= GEMINI_MAX_RETRIES; attempt += 1)],
    entered at [attempt] with [remaining] iterations left.  The result is
    [inl text] when the function returns from inside the loop and
    [inr currentError] when the loop is left. *)
Fixpoint attemptLoop (modelInput : LlmCallInput.t) (remaining : nat) (attempt : Z)
    (currentError : option Thrown) : GeminiProc (string + option Thrown) :=
  match remaining with
  | O => mret (inr currentError)
  | S remaining' =>
      tryCatch
        (sleep (if decide (attempt = 0) then Integer GEMINI_REQUEST_SPACING_MS
                else computeRetryDelay currentError attempt) ≫= λ _,
         text ← callGeminiSingle modelInput;
         mret (inl text))
        (λ error,
           if negb (isRetryableGeminiError (Some error)) then mret (inr (Some error))
           else attemptLoop modelInput remaining' (attempt + 1) (Some error))
  end.

(** [for (const model of modelCandidates)]; the result is [inl text] when
    the function returns and [inr (lastError, preferredError)] when the
    loop is left. *)
Fixpoint modelLoop (input : LlmCallInput.t) (modelCandidates : list string)
    (lastError preferredError : option Thrown)
    : GeminiProc (string + option Thrown * option Thrown) :=
  match modelCandidates with
  | [] => mret (inr (lastError, preferredError))
  | model :: rest =>
      let modelInput :=
        LlmCallInput.mk (LlmCallInput.provider input) model (LlmCallInput.messages input)
          (LlmCallInput.temperature input) (LlmCallInput.maxTokens input) in
      outcome ← attemptLoop modelInput (Z.to_nat (GEMINI_MAX_RETRIES + 1)) 0 None;
      match outcome with
      | inl text => mret (inl text)
      | inr currentError =>
          let lastError := currentError in
          let preferredError :=
            if bool_decide (is_Some currentError) && negb (isModelNotFoundError currentError)
            then currentError else preferredError in
          if isModelNotFoundError currentError then
            modelLoop input rest lastError preferredError
          else if negb (isQuotaError currentError) && negb (isRetryableGeminiError currentError)
          then mret (inr (lastError, preferredError))
          else modelLoop input rest lastError preferredError
      end
  end.

Definition callGeminiWithFallbackAndRetries (input : LlmCallInput.t) : GeminiProc string :=
  let modelCandidates := uniqueValues (LlmCallInput.model input :: GEMINI_FALLBACK_MODELS) in
  outcome ← modelLoop input modelCandidates None None;
  match outcome with
  | inl text => mret text
  | inr (lastError, preferredError) =>
      let finalError := match preferredError with Some e => Some e | None => lastError end in
      if isModelNotFoundError finalError then
        Throw (JsError
          ("All configured Gemini models returned 404: " +:+ join ", " modelCandidates +:+
           ". Update GEMINI_MODEL/GEMINI_FALLBACK_MODELS with IDs supported by your key. Last error: "
           +:+ default EmptyString (finalError ≫= errorMessage)))
      else
        match finalError with
        | Some (JsError message) => Throw (JsError message)
        | Some (GeminiError e) => Throw (GeminiError e)
        | _ => Throw (JsError "Gemini request failed.")
        end
  end.

End GeminiAdapter.

(** ** lib/providers.ts: the queue of Gemini calls

    [enqueueGeminiWork] chains promises.  The promises of the module are
    modelled with the part of the runtime they use: a heap of promises,
    pending with their reactions or settled, and the queue of reaction
    jobs.  Promises are numbered in the order of their creation. *)

Inductive Settlement := Fulfilled | Rejected.

(** The callbacks that [enqueueGeminiWork] passes to [then], each one as
    handler of both outcomes: the [task], and [() => undefined]. *)
Inductive Callback := StartTask (task : nat) | ReturnUndefined.

(** A reaction registered by [then]: the callback to run and the promise
    that [then] returned, to be resolved with the callback's result. *)
Record Reaction := mkReaction { callback : Callback; derived : nat }.

Inductive PromiseState :=
| Pending (reactions : list Reaction)
| Settled (settlement : Settlement).

(** A task is the function [() => callGeminiWithFallbackAndRetries(input,
    apiKey)] of one call of [callGemini].  Once it is invoked it is in
    flight, and the promise [run] returned by [then] follows the promise
    of the invocation: [run] is settled as that promise is, which the
    model does in the step in which the task finishes. *)
Inductive TaskState :=
| NotStarted
| InFlight (run : nat)
| Done (settlement : Settlement).

Record Runtime := mkRuntime {
  promises : list PromiseState;
  jobs : list Reaction;
  geminiQueue : nat;
  tasks : list TaskState
}.

(** [let geminiQueue: Promise<void> = Promise.resolve()] *)
Definition initialRuntime : Runtime := mkRuntime [Settled Fulfilled] [] 0 [].

(** [p.then(cb, cb)]: a new pending promise; the reaction is appended to
    those of [p] while [p] is pending and becomes a job at once when [p]
    is settled. *)
Definition promiseThen (p : nat) (cb : Callback) (rt : Runtime) : nat * Runtime :=
  let d := length (promises rt) in
  match promises rt !! p with
  | Some (Pending reactions) =>
      (d, mkRuntime
            (<[p := Pending (reactions ++ [mkReaction cb d])]> (promises rt) ++ [Pending []])
            (jobs rt) (geminiQueue rt) (tasks rt))
  | _ =>
      (d, mkRuntime (promises rt ++ [Pending []]) (jobs rt ++ [mkReaction cb d])
            (geminiQueue rt) (tasks rt))
  end.

(** A pending promise is settled: its reactions become jobs. *)
Definition settlePromise (p : nat) (s : Settlement) (rt : Runtime) : Runtime :=
  match promises rt !! p with
  | Some (Pending reactions) =>
      mkRuntime (<[p := Settled s]> (promises rt)) (jobs rt ++ reactions)
        (geminiQueue rt) (tasks rt)
  | _ => rt
  end.

Definition enqueueGeminiWork (task : nat) (rt : Runtime) : nat * Runtime :=
  let '(run, rt1) := promiseThen (geminiQueue rt) (StartTask task) rt in
  let '(queue, rt2) := promiseThen run ReturnUndefined rt1 in
  (run, mkRuntime (promises rt2) (jobs rt2) queue (tasks rt2)).

(** [callGemini]: the task of this call is the next one by number. *)
Definition callGemini (rt : Runtime) : nat * Runtime :=
  let task := length (tasks rt) in
  enqueueGeminiWork task
    (mkRuntime (promises rt) (jobs rt) (geminiQueue rt) (tasks rt ++ [NotStarted])).

(** The first job of the queue runs.  [StartTask task] invokes the task
    and makes the derived promise follow it; [ReturnUndefined] fulfils
    the derived promise. *)
Definition runJob (rt : Runtime) : option Runtime :=
  match jobs rt with
  | [] => None
  | job :: rest =>
      let rt' := mkRuntime (promises rt) rest (geminiQueue rt) (tasks rt) in
      Some
        match callback job with
        | StartTask task =>
            mkRuntime (promises rt') (jobs rt') (geminiQueue rt')
              (<[task := InFlight (derived job)]> (tasks rt'))
        | ReturnUndefined => settlePromise (derived job) Fulfilled rt'
        end
  end.

(** A task in flight returns or throws: the promise that follows it is
    settled in the same way. *)
Definition finishTask (task : nat) (s : Settlement) (rt : Runtime) : option Runtime :=
  match tasks rt !! task with
  | Some (InFlight run) =>
      Some (settlePromise run s
              (mkRuntime (promises rt) (jobs rt) (geminiQueue rt) (<[task := Done s]> (tasks rt))))
  | _ => None
  end.

(** What can happen next: some caller calls [callGemini], the next job
    runs, or a task in flight finishes. *)
Inductive QueueEvent :=
| Call
| Job
| Finish (task : nat) (s : Settlement).

Definition queueStep (ev : QueueEvent) (rt : Runtime) : option Runtime :=
  match ev with
  | Call => Some (callGemini rt).2
  | Job => runJob rt
  | Finish task s => finishTask task s rt
  end.

(** The runtime after a sequence of events, if each one can happen. *)
Fixpoint queueSteps (evs : list QueueEvent) (rt : Runtime) : option Runtime :=
  match evs with
  | [] => Some rt
  | ev :: evs' =>
      match queueStep ev rt with
      | Some rt' => queueSteps evs' rt'
      | None => None
      end
  end.

(** The states the module can be in. *)
Inductive reachable : Runtime → Prop :=
| reachable_initial : reachable initialRuntime
| reachable_step rt ev rt' : reachable rt → queueStep ev rt = Some rt' → reachable rt'.

(** ** Notions used in the statements *)

(** The condition result that a blinded response carries. *)
Definition sourceOf (b : BlindedResponse.t) : ConditionResult.t :=
  ConditionResult.mk (BlindedResponse.sourceConditionId b)
    (BlindedResponse.sourceConditionLabel b) (BlindedResponse.answer b)
    (BlindedResponse.transcript b).

(** The draws of a shuffle of four results: [j3], [j2] and [j1] are the
    swap indices drawn at [index = 3], [2] and [1]. *)
Definition drawsOf (js : nat * nat * nat) : nat → nat :=
  λ index,
    match js, index with
    | (j3, _, _), 3%nat => j3
    | (_, j2, _), 2%nat => j2
    | (_, _, j1), 1%nat => j1
    | _, _ => 0%nat
    end.

(** All the values that the three draws can take together: [j3] in
    [0..3], [j2] in [0..2], [j1] in [0..1]. *)
Definition allDraws : list (nat * nat * nat) :=
  j3 ← seq 0 4; j2 ← seq 0 3; j1 ← seq 0 2; [(j3, j2, j1)].

(** The order in which the four input positions come out of the shuffle. *)
Definition shuffledPositions (js : nat * nat * nat) : list nat :=
  shuffleFrom (drawsOf js) 3 [0; 1; 2; 3]%nat.

(** The probability that the shuffle puts the positions in the order
    [order] when every draw is uniform on its range and the draws are
    independent, so that every element of [allDraws] has the same
    probability. *)
Definition orderProbability (order : list nat) : Q :=
  Z.of_nat (length (filter (λ js, shuffledPositions js = order) allDraws))
  # Pos.of_nat (length allDraws).

(** The settlements of processes that run one after the other, each
    from where the one before it stopped. *)
Fixpoint settledInOrder {E Resp A} (env : Env E Resp) (ps : list (Proc E Resp A))
    (tr : list (Interaction E Resp)) : list (PromiseSettledResult A) * list (Interaction E Resp) :=
  match ps with
  | [] => ([], tr)
  | p :: rest =>
      let '(outcome, tr1) := run env p tr in
      let '(rest', tr2) := settledInOrder env rest tr1 in
      (match outcome with inl value => fulfilled value | inr reason => rejected reason end
         :: rest', tr2)
  end.

(** A settlement that is fulfilled holds a value its process can return. *)
Definition settlementOf {E Resp A} (p : Proc E Resp A) (s : PromiseSettledResult A) : Prop :=
  match s with fulfilled value => CanReturn p value | rejected _ => True end.

(** The condition result that stands for a settlement: the [map] callback
    of [runConditionsInParallel], which is also what one iteration of
    [runConditionsSequentially] pushes. *)
Definition resultOfSettlement (index : nat) (s : PromiseSettledResult ConditionResult.t)
    : ConditionResult.t :=
  match s with
  | fulfilled value => value
  | rejected reason => buildFailedConditionResult index reason
  end.

(** *** Reading a debate off the interactions *)

Definition requestOf (it : LlmInteraction) : LlmCallInput.t :=
  match projT1 it with CallLlm input => input end.

Definition answerOf (it : LlmInteraction) : string + Thrown :=
  match it with existT (CallLlm _) r => r end.

(** The text that answered the request at position [p] of [log]. *)
Definition textAt (log : list LlmInteraction) (p : nat) : string :=
  match log !! p with
  | Some it => match answerOf it with inl text => text | inr _ => EmptyString end
  | None => EmptyString
  end.

(** The turn of [agent] in [round] with the given content. *)
Definition debateTurnOf (round : Z) (agent : DebateAgent.t) (content : string) : DebateTurn.t :=
  DebateTurn.mk round (DebateAgent.id agent) (DebateAgent.name agent)
    (DebateAgent.provider agent) (DebateAgent.model agent) content.

(** The turns of one round, one per agent in roster order, when the
    requests of that round start at position [offset] of [log]. *)
Definition roundTurnsAt (agents : list DebateAgent.t) (log : list LlmInteraction)
    (round : Z) (offset : nat) : list DebateTurn.t :=
  imap (λ j agent, debateTurnOf round agent (textAt log (offset + j))) agents.

(** The turns of round [r] (counted from 1) of a debate whose
    interactions are [log]: the requests of round [r] are those at
    positions [(r - 1) * A .. r * A - 1] for [A] agents. *)
Definition roundTurns (agents : list DebateAgent.t) (log : list LlmInteraction) (r : nat)
    : list DebateTurn.t :=
  roundTurnsAt agents log (Z.of_nat r) ((r - 1) * length agents).

(** The position in [log] of the request made for the agent at index [i]
    of the roster in round [r]. *)
Definition roundRequest (agents : list DebateAgent.t) (r i : nat) : nat :=
  ((r - 1) * length agents + i)%nat.

(** The request of [it] ends with the prompt of round [round] for [agent],
    built from [previousRoundTurns], as a user message. *)
Definition hasRoundPrompt (input : DebateInput.t) (round : Z) (agent : DebateAgent.t)
    (previousRoundTurns : list DebateTurn.t) (it : LlmInteraction) : Prop :=
  last (LlmCallInput.messages (requestOf it)) =
  Some (ChatMessage.mk user
          (buildRoundPrompt
             (RoundPromptInput.mk (DebateInput.question input) round (DebateInput.rounds input)
                agent previousRoundTurns))).

(** One line of the peer context. *)
Definition peerEntry (turn : DebateTurn.t) : string :=
  "- " +:+ DebateTurn.agentName turn +:+ ": " +:+ clampText (DebateTurn.content turn) 280.

(** The backend answers every request with a text. *)
Definition alwaysAnswers (env : Env LlmEvent LlmResp) : Prop :=
  ∀ tr ev, ∃ text : string, env tr ev = inl text.

(** *** Reading the adapter's interactions *)

(** The model and outcome of every request to the backend, in order. *)
Definition fetches (log : list GeminiInteraction) : list (string * FetchOutcome) :=
  omap (λ it : GeminiInteraction,
          match it with
          | existT ev answer =>
              match ev return GeminiResp ev → option (string * FetchOutcome) with
              | Fetch input => λ outcome, Some (LlmCallInput.model input, outcome)
              | SetTimeout _ => λ _, None
              end answer
          end) log.

(** The delays of the timers that were set, in order. *)
Definition timers (log : list GeminiInteraction) : list JsNumber :=
  omap (λ it : GeminiInteraction,
          match projT1 it with
          | SetTimeout ms => Some ms
          | Fetch _ => None
          end) log.

(** The interaction of [sleep ms]: a timer unless [ms <= 0]. *)
Definition timerLog (ms : JsNumber) : list GeminiInteraction :=
  if number_le ms 0 then []
  else [existT (SetTimeout ms) (tt : GeminiResp (SetTimeout ms))].

(** [input] with its model replaced, the [modelInput] of the fallback loop. *)
Definition withModel (input : LlmCallInput.t) (model : string) : LlmCallInput.t :=
  LlmCallInput.mk (LlmCallInput.provider input) model (LlmCallInput.messages input)
    (LlmCallInput.temperature input) (LlmCallInput.maxTokens input).

(** The text of the retry hint that an error carries: the [retryDelay]
    of the first detail of its parsed body whose [@type] includes
    ["RetryInfo"]. *)
Definition retryDelayOf (error : option Thrown) : option string :=
  e ← isGeminiCallError error;
  details ← (GeminiCallError.bodyJson e ≫= GeminiErrorPayload.error) ≫= GeminiErrorInfo.details;
  retryInfo ← List.find (λ detail,
                           match GeminiErrorDetail.type detail with
                           | Some type => includes type "RetryInfo"
                           | None => false
                           end) details;
  GeminiErrorDetail.retryDelay retryInfo.

Section GeminiTrace.
Context (GEMINI_REQUEST_SPACING_MS GEMINI_RETRY_BACKOFF_MS : Z).
Context (JSON_parse : string → option GeminiErrorPayload.t).
Context (trim : string → string).
Context (parseFloat : string → double) (parseInt : string → option Z).

(** What [callGeminiSingle] makes of the outcome of its request for
    [model]: the text it returns or the value it throws. *)
Definition singleResult (model : string) (outcome : FetchOutcome) : string + Thrown :=
  match outcome with
  | FetchRejected reason => inr reason
  | ResponseNotOk status body => inr (GeminiError (createGeminiError JSON_parse status body model))
  | ResponseOk (Some (String c s)) => inl (String c s)
  | ResponseOk _ => inr (JsError "Gemini response was missing text content.")
  end.

(** The error that an attempt with this outcome leaves in [currentError]. *)
Definition failureOf (model : string) (outcome : FetchOutcome) : option Thrown :=
  match singleResult model outcome with inl _ => None | inr e => Some e end.

(** The retry delay in the words of the specification: the larger of the
    server's retry hint and the minimum spacing when there is a hint,
    else the base backoff doubled with every attempt, not below the
    minimum spacing. *)
Definition specifiedRetryDelay (retryHintMs : option JsNumber) (attempt : Z) : JsNumber :=
  match retryHintMs with
  | Some hint => Math_max hint GEMINI_REQUEST_SPACING_MS
  | None => Z.max (GEMINI_RETRY_BACKOFF_MS * 2 ^ (attempt - 1)) GEMINI_REQUEST_SPACING_MS
  end.

(** The interactions of the attempts on one model whose requests have
    the given outcomes, starting at [attempt] after [currentError]:
    before each request the spacing (first attempt) or the specified
    retry delay after the error of the attempt before. *)
Fixpoint attemptsLog (modelInput : LlmCallInput.t) (attempt : Z) (currentError : option Thrown)
    (outcomes : list FetchOutcome) : list GeminiInteraction :=
  match outcomes with
  | [] => []
  | outcome :: rest =>
      timerLog (if decide (attempt = 0) then Integer GEMINI_REQUEST_SPACING_MS
                else specifiedRetryDelay
                       (extractRetryDelayMs trim parseFloat parseInt currentError) attempt)
      ++ existT (Fetch modelInput) (outcome : GeminiResp (Fetch modelInput))
      :: attemptsLog modelInput (attempt + 1)
           (failureOf (LlmCallInput.model modelInput) outcome) rest
  end.

(** The interactions of the fallback loop when the requests for the
    successive candidates have the outcomes in [segments]. *)
Fixpoint modelsLog (input : LlmCallInput.t) (modelCandidates : list string)
    (segments : list (list FetchOutcome)) : list GeminiInteraction :=
  match modelCandidates, segments with
  | model :: candidates, outcomes :: segments' =>
      attemptsLog (withModel input model) 0 None outcomes ++ modelsLog input candidates segments'
  | _, _ => []
  end.

(** What the attempts on [model] come to when their requests have these
    outcomes: the text of the last one, or the error that is left. *)
Definition attemptsResult (model : string) (currentError : option Thrown)
    (outcomes : list FetchOutcome) : string + option Thrown :=
  match last outcomes with
  | None => inr currentError
  | Some outcome =>
      match singleResult model outcome with
      | inl text => inl text
      | inr e => inr (Some e)
      end
  end.

(** The delays before the successive attempts on one model, from
    [attempt] on: the spacing before attempt 0, and before every later
    attempt the specified retry delay for the error of the attempt
    before it. *)
Fixpoint attemptDelays (model : string) (attempt : Z) (currentError : option Thrown)
    (outcomes : list FetchOutcome) : list JsNumber :=
  match outcomes with
  | [] => []
  | outcome :: rest =>
      (if decide (attempt = 0) then Integer GEMINI_REQUEST_SPACING_MS
       else specifiedRetryDelay
              (extractRetryDelayMs trim parseFloat parseInt currentError) attempt)
      :: attemptDelays model (attempt + 1) (failureOf model outcome) rest
  end.

(** The error left by the attempts on [model] with these outcomes. *)
Definition finalError (model : string) (outcomes : list FetchOutcome) : option Thrown :=
  last outcomes ≫= failureOf model.

End GeminiTrace.

(** The failures after which the fallback loop goes on to the next
    candidate: model not found, quota, or retryable. *)
Definition advancesOn (error : option Thrown) : bool :=
  isModelNotFoundError error || isQuotaError error || isRetryableGeminiError error.

(** The claim that a 429 failure never makes the adapter advance: after
    a request that failed with status 429 the next request, if there is
    one, is for the same model. *)
Definition neverAdvancesAfter429 (fs : list (string * FetchOutcome)) : Prop :=
  ∀ (p : nat) (model body model' : string) (outcome' : FetchOutcome),
    fs !! p = Some (model, ResponseNotOk 429 body) →
    fs !! S p = Some (model', outcome') →
    model' = model.

(** A backend on which ["gemini-2.5-flash"] is out of quota and every
    other model answers. *)
Definition quotaEnv : Env GeminiEvent GeminiResp :=
  λ tr ev,
    match ev with
    | SetTimeout _ => tt
    | Fetch input =>
        if decide (LlmCallInput.model input = "gemini-2.5-flash")
        then ResponseNotOk 429 "quota exceeded"
        else ResponseOk (Some "Answer: 42")
    end.

Definition exampleGeminiInput : LlmCallInput.t :=
  LlmCallInput.mk gemini "gemini-2.5-flash"
    [ChatMessage.mk user "Question: What is six times seven?"] (Some (1 # 5)%Q) (Some 1000).

(** The adapter with the default configuration, one fallback model and
    built-ins that parse nothing. *)
Definition exampleAdapterRun : (string + Thrown) * list GeminiInteraction :=
  run quotaEnv
    (callGeminiWithFallbackAndRetries 2500 2 3000 ["gemini-flash-latest"]
       (λ _, None) (λ s, s) (λ _, SpecFloat.S754_nan) (λ _, None) exampleGeminiInput) [].

(** *** A backend that sends retry hints *)

Definition QUOTE : string := String (Ascii.ascii_of_nat 34) EmptyString.

Definition quoted (s : string) : string := QUOTE +:+ s +:+ QUOTE.

(** The body of a response of status 429 whose [RetryInfo] detail asks
    to wait [retryDelay]. *)
Definition retryInfoBody (retryDelay : string) : string :=
  "{" +:+ quoted "error" +:+ ":{" +:+ quoted "code" +:+ ":429," +:+
  quoted "status" +:+ ":" +:+ quoted "RESOURCE_EXHAUSTED" +:+ "," +:+
  quoted "details" +:+ ":[{" +:+
  quoted "@type" +:+ ":" +:+ quoted "type.googleapis.com/google.rpc.RetryInfo" +:+ "," +:+
  quoted "retryDelay" +:+ ":" +:+ quoted retryDelay +:+ "}]}}".

Definition retryInfoPayload (retryDelay : string) : GeminiErrorPayload.t :=
  GeminiErrorPayload.mk
    (Some (GeminiErrorInfo.mk (Some 429) (Some "RESOURCE_EXHAUSTED") None
             (Some [GeminiErrorDetail.mk (Some "type.googleapis.com/google.rpc.RetryInfo")
                      (Some retryDelay)]))).

(** What [JSON.parse] makes of the bodies that the example backend
    sends; the examples parse no other text. *)
Definition exampleJsonParse (text : string) : option GeminiErrorPayload.t :=
  retryInfoPayload <$>
    List.find (λ retryDelay, bool_decide (retryInfoBody retryDelay = text)) ["5s"; "4.001s"].

Definition isWhiteSpace (c : Ascii.ascii) : bool :=
  bool_decide (Ascii.nat_of_ascii c ∈ [9; 10; 11; 12; 13; 32]%nat).

Fixpoint trimStart (s : string) : string :=
  match s with
  | String c rest => if isWhiteSpace c then trimStart rest else s
  | EmptyString => EmptyString
  end.

Fixpoint trimEnd (s : string) : string :=
  match s with
  | EmptyString => EmptyString
  | String c rest =>
      match trimEnd rest with
      | EmptyString => if isWhiteSpace c then EmptyString else String c EmptyString
      | rest' => String c rest'
      end
  end.

(** [s.trim()] on a text of ASCII characters. *)
Definition exampleTrim (s : string) : string := trimEnd (trimStart s).

Definition digitOf (c : Ascii.ascii) : option Z :=
  let code := Z.of_nat (Ascii.nat_of_ascii c) in
  if bool_decide (48 ≤ code ≤ 57) then Some (code - 48) else None.

(** The decimal digits at the start of [s], read after [value], with
    their number and the text that is left. *)
Fixpoint readDigits (s : string) (value : Z) (count : nat) : Z * nat * string :=
  match s with
  | EmptyString => (value, count, s)
  | String c rest =>
      match digitOf c with
      | Some digit => readDigits rest (10 * value + digit) (S count)
      | None => (value, count, s)
      end
  end.

Definition readSign (s : string) : bool * string :=
  match s with
  | String c rest =>
      if Ascii.eqb c (Ascii.ascii_of_nat 45) then (true, rest)
      else if Ascii.eqb c (Ascii.ascii_of_nat 43) then (false, rest)
      else (false, s)
  | EmptyString => (false, s)
  end.

(** [Number.parseFloat] on a text that starts with a decimal numeral of
    at most 15 digits without an exponent: its digits make an integer
    and a power of ten that are both binary64 values, and their binary64
    quotient is the binary64 value nearest to the numeral.  The examples
    use no other text. *)
Definition exampleParseFloat (s : string) : double :=
  let '(negative, body) := readSign s in
  let '(whole, wholeDigits, rest) := readDigits body 0 0 in
  let '(numerator, digits, _) :=
    match rest with
    | String c fraction =>
        if Ascii.eqb c (Ascii.ascii_of_nat 46) then readDigits fraction whole wholeDigits
        else (whole, wholeDigits, rest)
    | EmptyString => (whole, wholeDigits, rest)
    end in
  if bool_decide (digits = 0%nat ∨ (15 < digits)%nat) then SpecFloat.S754_nan
  else
    let magnitude :=
      double_div (double_of_Z numerator) (double_of_Z (10 ^ Z.of_nat (digits - wholeDigits))) in
    if negative then SpecFloat.SFopp magnitude else magnitude.

(** [Number.parseInt(s, 10)] on a text without leading white space. *)
Definition exampleParseInt (s : string) : option Z :=
  let '(negative, body) := readSign s in
  let '(value, digits, _) := readDigits body 0 0 in
  if bool_decide (digits = 0%nat) then None
  else Some (if negative then - value else value).

(** A backend that is over quota twice, asking to wait 5 seconds and
    then 4.001 seconds, and answers the third request. *)
Definition retryHintEnv : Env GeminiEvent GeminiResp :=
  λ tr ev,
    match ev with
    | SetTimeout _ => tt
    | Fetch input =>
        match length (fetches tr) with
        | 0%nat => ResponseNotOk 429 (retryInfoBody "5s")
        | 1%nat => ResponseNotOk 429 (retryInfoBody "4.001s")
        | _ => ResponseOk (Some "Answer: 42")
        end
    end.

(** ** Example inputs *)

Definition exampleModels : ModelCatalog.t :=
  ModelCatalog.mk "gpt-4.1-mini" "claude-3-7-sonnet-latest" "gemini-2.5-flash" "grok-2-latest".

(** A backend that rejects the first request it gets and answers every
    later one. *)
Definition exampleEnv : Env LlmEvent LlmResp :=
  λ tr ev, match tr with [] => inr (JsError "fetch failed") | _ => inl "Answer: 42" end.

(** A backend that answers every request. *)
Definition answeringEnv : Env LlmEvent LlmResp := λ tr ev, inl "Answer: 42".

Definition exampleRunners : list (LlmProc ConditionResult.t) :=
  conditionRunners 450 1 true exampleModels "What is six times seven?".

Definition exampleValues : list ConditionResult.t :=
  Eval vm_compute in imap resultOfSettlement (settledInOrder exampleEnv exampleRunners []).1.

Definition exampleDebate : DebateInput.t :=
  DebateInput.mk "What is six times seven?"
    (buildSameModelRoleAgents gemini "gemini-2.5-flash") 2.

(** The interactions that a run of [runDebate] adds to [tr]. *)
Definition debateLog (MAX_DEBATE_RESPONSE_TOKENS : Z) (env : Env LlmEvent LlmResp)
    (input : DebateInput.t) (tr : list LlmInteraction) : list LlmInteraction :=
  drop (length tr) (run env (runDebate MAX_DEBATE_RESPONSE_TOKENS input) tr).2.

Definition exampleDebateCondition (rounds : Z) : DebateConditionInput.t :=
  DebateConditionInput.mk multi_same_model_roles "4 Gemini agents with distinct roles"
    "What is six times seven?" (buildSameModelRoleAgents gemini "gemini-2.5-flash") rounds.

(** The number of rounds that [runDebateCondition] hands to [runDebate]
    for a configured value: 1 for a value of 0 or less, the value itself
    from 1 on. *)
Definition effectiveRounds (rounds : Z) : Z := if decide (rounds ≤ 0) then 1 else rounds.

(** ** The queue of Gemini calls seen from outside

    Every state the module can reach is determined by the settlements of
    the tasks that are over, by what the current task is doing and by the
    number of calls so far.  Promise [0] is the initial [geminiQueue]; the
    call of task [t] creates [run] as promise [2 * t + 1] and the new
    [geminiQueue] as promise [2 * t + 2]. *)

Section QueueView.

Local Open Scope nat_scope.

(** What the first task that is not over is doing: waiting for its job,
    in flight, or just finished with the queue promise behind it still to
    be fulfilled. *)
Inductive Phase := Starting | Running | Finishing (s : Settlement).

Record QueueView := mkQueueView {
  finished : list Settlement;
  phase : Phase;
  count : nat
}.

#[global] Instance Settlement_inhabited : Inhabited Settlement := populate Fulfilled.

Definition taskOf (v : QueueView) (t : nat) : TaskState :=
  let f := length (finished v) in
  if decide (t < f) then Done (finished v !!! t)
  else if decide (t = f) then
    match phase v with
    | Starting => NotStarted
    | Running => InFlight (2 * f + 1)
    | Finishing s => Done s
    end
  else NotStarted.

Definition runOf (v : QueueView) (t : nat) : PromiseState :=
  let f := length (finished v) in
  if decide (t < f) then Settled (finished v !!! t)
  else
    match phase v with
    | Finishing s =>
        if decide (t = f) then Settled s else Pending [mkReaction ReturnUndefined (2 * t + 2)]
    | _ => Pending [mkReaction ReturnUndefined (2 * t + 2)]
    end.

Definition queueOf (v : QueueView) (t : nat) : PromiseState :=
  if decide (t < length (finished v)) then Settled Fulfilled
  else Pending (if decide (t + 1 < count v) then [mkReaction (StartTask (t + 1)) (2 * t + 3)] else []).

Definition promiseOf (v : QueueView) (i : nat) : PromiseState :=
  if decide (i = 0) then Settled Fulfilled
  else if decide (i mod 2 = 1) then runOf v ((i - 1) / 2) else queueOf v ((i - 1) / 2).

Definition jobsOf (v : QueueView) : list Reaction :=
  let f := length (finished v) in
  match phase v with
  | Starting => if decide (f < count v) then [mkReaction (StartTask f) (2 * f + 1)] else []
  | Running => []
  | Finishing s => [mkReaction ReturnUndefined (2 * f + 2)]
  end.

Definition tabulate {A} (f : nat → A) (n : nat) : list A := f <$> seq 0 n.

Definition runtimeOf (v : QueueView) : Runtime :=
  mkRuntime (tabulate (promiseOf v) (2 * count v + 1)) (jobsOf v) (2 * count v)
    (tabulate (taskOf v) (count v)).

Definition viewOk (v : QueueView) : Prop :=
  match phase v with
  | Starting => length (finished v) ≤ count v
  | _ => length (finished v) < count v
  end.

Definition viewStep (ev : QueueEvent) (v : QueueView) : option QueueView :=
  match ev, phase v with
  | Call, _ => Some (mkQueueView (finished v) (phase v) (S (count v)))
  | Job, Starting =>
      if decide (length (finished v) < count v)
      then Some (mkQueueView (finished v) Running (count v)) else None
  | Job, Running => None
  | Job, Finishing s => Some (mkQueueView (finished v ++ [s]) Starting (count v))
  | Finish t s, Running =>
      if decide (t = length (finished v))
      then Some (mkQueueView (finished v) (Finishing s) (count v)) else None
  | Finish _ _, _ => None
  end.

Definition inFlight (rt : Runtime) (task : nat) : Prop :=
  ∃ run, tasks rt !! task = Some (InFlight run).

Definition settledTask (rt : Runtime) (task : nat) : Prop :=
  ∃ s, tasks rt !! task = Some (Done s).

Definition begun (rt : Runtime) (task : nat) : Prop :=
  inFlight rt task ∨ settledTask rt task.

Fixpoint viewSteps (evs : list QueueEvent) (v : QueueView) : option QueueView :=
  match evs with
  | [] => Some v
  | ev :: evs' =>
      match viewStep ev v with
      | Some v' => viewSteps evs' v'
      | None => None
      end
  end.

End QueueView.

(** ** Notions for further properties of the Gemini adapter *)

(** The text that [callGeminiSingle] returns for this outcome of its
    request, if it returns. *)
Definition answersText (outcome : FetchOutcome) : option string :=
  match outcome with
  | ResponseOk (Some (String c s)) => Some (String c s)
  | _ => None
  end.

(** A backend that knows none of the models. *)
Definition notFoundEnv : Env GeminiEvent GeminiResp :=
  λ tr ev,
    match ev with
    | SetTimeout _ => tt
    | Fetch input => ResponseNotOk 404 "model not found"
    end.

(** A backend that rejects the request as malformed. *)
Definition badRequestEnv : Env GeminiEvent GeminiResp :=
  λ tr ev,
    match ev with
    | SetTimeout _ => tt
    | Fetch input => ResponseNotOk 400 "bad request"
    end.

(** The interactions of requests that are each made after a timer: for
    every entry the timer with its delay, then the request with its
    outcome. *)
Definition spacedLog (entries : list (JsNumber * LlmCallInput.t * FetchOutcome))
    : list GeminiInteraction :=
  entries ≫= λ '(ms, input, outcome),
    [existT (SetTimeout ms) (tt : GeminiResp (SetTimeout ms));
     existT (Fetch input) (outcome : GeminiResp (Fetch input))].

(** The interactions of requests that are each made after at most one
    timer: for every step the timer, if one is set, then the request
    with its outcome. *)
Definition requestLog (steps : list (option JsNumber * LlmCallInput.t * FetchOutcome))
    : list GeminiInteraction :=
  steps ≫= λ '(timer, input, outcome),
    match timer with
    | Some ms => [existT (SetTimeout ms) (tt : GeminiResp (SetTimeout ms))]
    | None => []
    end ++ [existT (Fetch input) (outcome : GeminiResp (Fetch input))].

(** The requests of a log that are for [model]. *)
Definition requestsFor (model : string) (log : list GeminiInteraction)
    : list (string * FetchOutcome) :=
  filter (λ request, request.1 = model) (fetches log).

(** ** Notions for further properties of the queue of Gemini calls *)

Section QueueOrder.

Local Open Scope nat_scope.

(** The tasks that finish in a sequence of events, in order. *)
Definition finishOrder (evs : list QueueEvent) : list nat :=
  omap (λ ev, match ev with Finish task _ => Some task | _ => None end) evs.

(** The number of tasks that are over in a view. *)
Definition tasksOver (v : QueueView) : nat :=
  length (finished v) + match phase v with Finishing _ => 1 | _ => 0 end.

End QueueOrder.

(** ** Notions for further properties of the experiment *)

(** Every request that [p] can make satisfies [P], whatever the answers. *)
Fixpoint requestsAll {E Resp A} (P : E → Prop) (p : Proc E Resp A) : Prop :=
  match p with
  | Await ev k => P ev ∧ ∀ r, requestsAll P (k r)
  | _ => True
  end.

(** [p] has no handler around its requests: when a request fails, [p]
    throws the failure at once. *)
Fixpoint failsFast {A} (p : LlmProc A) : Prop :=
  match p with
  | Await ev k => (∀ e, k (inr e) = Throw e) ∧ ∀ text, failsFast (k (inl text))
  | _ => True
  end.

(** The request of the interaction was answered with a text. *)
Definition answered (it : LlmInteraction) : Prop := ∃ text, answerOf it = inl text.

(** The request goes to Gemini, for the given model. *)
Definition toGemini (model : string) (ev : LlmEvent) : Prop :=
  match ev with
  | CallLlm input => LlmCallInput.provider input = gemini ∧ LlmCallInput.model input = model
  end.

(** *** The chat histories of a debate *)

(** The message that opens the chat history of [agent]. *)
Definition systemMessage (agent : DebateAgent.t) : ChatMessage.t :=
  ChatMessage.mk system
    (replace DEBATE_SYSTEM_TEMPLATE "{PERSONA}" (DebateAgent.persona agent)).

(** The prompt of round [r] for [agent] in a debate with the
    interactions [log]: in round 1 there are no earlier turns. *)
Definition roundPromptOf (input : DebateInput.t) (log : list LlmInteraction) (r : nat)
    (agent : DebateAgent.t) : ChatMessage.t :=
  ChatMessage.mk user
    (buildRoundPrompt
       (RoundPromptInput.mk (DebateInput.question input) (Z.of_nat r) (DebateInput.rounds input)
          agent
          (if decide (r ≤ 1)%nat then [] else roundTurns (DebateInput.agents input) log (r - 1)))).

(** The chat history of the agent at index [i] of the roster after [r]
    rounds: the system message and, round by round, the agent's prompt
    and the answer it got. *)
Fixpoint historyAfter (input : DebateInput.t) (log : list LlmInteraction) (i : nat)
    (agent : DebateAgent.t) (r : nat) : list ChatMessage.t :=
  match r with
  | O => [systemMessage agent]
  | S r' =>
      historyAfter input log i agent r' ++
      [roundPromptOf input log (S r') agent;
       ChatMessage.mk assistant (textAt log (roundRequest (DebateInput.agents input) (S r') i))]
  end.

(** The request that [runDebate] makes for [agent] in a round, with the
    given messages. *)
Definition debateRequest (MAX_DEBATE_RESPONSE_TOKENS : Z) (agent : DebateAgent.t)
    (messages : list ChatMessage.t) : LlmCallInput.t :=
  LlmCallInput.mk (DebateAgent.provider agent) (DebateAgent.model agent) messages
    (Some (1 # 2)%Q) (Some MAX_DEBATE_RESPONSE_TOKENS).

(** *** Answers that depend on the request alone *)

(** The outcome of [p] when every request is answered by [answer], a
    function of the request alone. *)
Fixpoint outcomeOf {E Resp A} (answer : ∀ ev : E, Resp ev) (p : Proc E Resp A) : A + Thrown :=
  match p with
  | Return a => inl a
  | Throw e => inr e
  | Await ev k => outcomeOf answer (k (answer ev))
  end.

(** The settlement of a promise with this outcome. *)
Definition settlementOfOutcome {A} (outcome : A + Thrown) : PromiseSettledResult A :=
  match outcome with
  | inl value => fulfilled value
  | inr reason => rejected reason
  end.

(** A backend whose answer to a request depends on the request alone:
    a text for the conditions asked of OpenAI, a failure for the rest. *)
Definition statelessEnv : Env LlmEvent LlmResp :=
  λ tr ev,
    match ev with
    | CallLlm input =>
        match LlmCallInput.provider input with
        | openai => inl "Answer: 42"
        | _ => inr (JsError "Missing API key")
        end
    end.

(** ** lib/providers.ts: base URLs *)

(** The character [/]. *)
Definition SLASH : Ascii.ascii := Ascii.ascii_of_nat 47.

(** [baseUrl.replace(/\/+$/, EmptyString)]: the pattern matches the slashes
    that end the text, all of them, and nothing when the text does not
    end with a slash. *)
Fixpoint normalizeBaseUrl (baseUrl : string) : string :=
  match baseUrl with
  | EmptyString => EmptyString
  | String c rest =>
      match normalizeBaseUrl rest with
      | EmptyString => if Ascii.eqb c SLASH then EmptyString else String c EmptyString
      | rest' => String c rest'
      end
  end.

(** A text of [n] slashes. *)
Fixpoint slashes (n : nat) : string :=
  match n with
  | O => EmptyString
  | S n' => String SLASH (slashes n')
  end.

(** * Properties *)

(** ** Processes *)

Section ProcessFacts.
Context {E : Type} {Resp : E → Type}.
Implicit Types env : Env E Resp.

Lemma run_bind {A B} env (p : Proc E Resp A) (f : A → Proc E Resp B) tr :
  run env (p ≫= f) tr =
  match run env p tr with
  | (inl a, tr') => run env (f a) tr'
  | (inr e, tr') => (inr e, tr')
  end.
Proof.
  revert tr. unfold mbind, Proc_bind.
  induction p as [a|e|ev k IH]; intros tr; simpl; [done|done|apply IH].
Qed.

Lemma run_tryCatch {A} env (p : Proc E Resp A) (h : Thrown → Proc E Resp A) tr :
  run env (tryCatch p h) tr =
  match run env p tr with
  | (inl a, tr') => (inl a, tr')
  | (inr e, tr') => run env (h e) tr'
  end.
Proof.
  revert tr. induction p as [a|e|ev k IH]; intros tr; simpl; [done|done|apply IH].
Qed.

Lemma run_mret {A} env (a : A) tr : run env (mret a) tr = (inl a, tr).
Proof. done. Qed.

Lemma run_settled {A} env (p : Proc E Resp A) tr :
  run env (settled p) tr =
  match run env p tr with
  | (inl a, tr') => (inl (fulfilled a), tr')
  | (inr e, tr') => (inl (rejected e), tr')
  end.
Proof.
  unfold settled. rewrite run_tryCatch, run_bind.
  destruct (run env p tr) as [[a|e] tr']; done.
Qed.

Lemma run_CanReturn {A} env (p : Proc E Resp A) tr a tr' :
  run env p tr = (inl a, tr') → CanReturn p a.
Proof.
  revert tr. induction p as [b|e|ev k IH]; intros tr; simpl.
  - by intros [= ->].
  - discriminate.
  - intros Hrun. eexists. eapply IH, Hrun.
Qed.

Lemma CanReturn_bind {A B} (p : Proc E Resp A) (f : A → Proc E Resp B) b :
  CanReturn (p ≫= f) b → ∃ a, CanReturn p a ∧ CanReturn (f a) b.
Proof.
  unfold mbind, Proc_bind.
  induction p as [a|e|ev k IH]; simpl; intros Hret.
  - by exists a.
  - done.
  - destruct Hret as [r Hk]. destruct (IH r Hk) as (a & Ha & Hb).
    exists a. split; [by exists r|done].
Qed.

End ProcessFacts.

(** ** Blinding *)

Section ShuffleFacts.
Context {A : Type}.
Implicit Types xs : list A.

Lemma swap_Permutation xs i j : swap xs i j ≡ₚ xs.
Proof.
  unfold swap. destruct (xs !! i) as [xi|] eqn:Hi; [|done].
  destruct (xs !! j) as [xj|] eqn:Hj; [|done].
  by apply Permutation_insert_swap.
Qed.

Lemma shuffleFrom_Permutation draw index xs : shuffleFrom draw index xs ≡ₚ xs.
Proof.
  revert xs. induction index as [|index IH]; intros xs; simpl; [done|].
  by rewrite IH, swap_Permutation.
Qed.

Lemma swap_fmap {B} (f : A → B) xs i j : swap (f <$> xs) i j = f <$> swap xs i j.
Proof.
  unfold swap. rewrite !list_lookup_fmap.
  destruct (xs !! i) as [xi|]; [|done]. destruct (xs !! j) as [xj|]; [|done].
  simpl. by rewrite !list_fmap_insert.
Qed.

Lemma shuffleFrom_fmap {B} (f : A → B) draw index xs :
  shuffleFrom draw index (f <$> xs) = f <$> shuffleFrom draw index xs.
Proof.
  revert xs. induction index as [|index IH]; intros xs; simpl; [done|].
  by rewrite swap_fmap, IH.
Qed.

End ShuffleFacts.

Lemma sourceOf_blindAndShuffle draw results :
  sourceOf <$> blindAndShuffle draw results = shuffleFrom draw (length results - 1) results.
Proof.
  unfold blindAndShuffle. rewrite fmap_imap.
  rewrite <-(list_fmap_id (shuffleFrom _ _ _)) at 2.
  rewrite <-imap_const. apply imap_ext. by intros i [] _.
Qed.

Lemma blindId_blindAndShuffle draw results i b :
  blindAndShuffle draw results !! i = Some b →
  BlindedResponse.blindId b =
    default ("Response " +:+ pretty (i + 1)%nat) (blindLabels !! i).
Proof.
  unfold blindAndShuffle. rewrite list_lookup_imap.
  destruct (shuffleFrom _ _ _ !! i) as [r|]; simpl; intros Hb; by simplify_eq.
Qed.

Lemma length_blindAndShuffle draw results :
  length (blindAndShuffle draw results) = length results.
Proof.
  unfold blindAndShuffle. rewrite length_imap.
  apply Permutation_length, shuffleFrom_Permutation.
Qed.

Lemma blindId_blindAndShuffle_four draw results :
  length results = 4%nat →
  BlindedResponse.blindId <$> blindAndShuffle draw results = blindLabels.
Proof.
  intros Hfour. pose proof (length_blindAndShuffle draw results) as Hlen.
  apply list_eq. intros i. rewrite list_lookup_fmap.
  destruct (blindAndShuffle _ _ !! i) as [r|] eqn:Hr; simpl.
  - pose proof (lookup_lt_Some _ _ _ Hr) as Hi.
    rewrite (blindId_blindAndShuffle _ _ _ _ Hr).
    rewrite Hlen, Hfour in Hi.
    destruct i as [|[|[|[|i]]]]; simpl; first [done|lia].
  - apply lookup_ge_None in Hr. rewrite Hlen, Hfour in Hr.
    symmetry. apply lookup_ge_None. simpl. lia.
Qed.

Lemma sourceConditionId_blindAndShuffle draw results :
  BlindedResponse.sourceConditionId <$> blindAndShuffle draw results ≡ₚ
  ConditionResult.conditionId <$> results.
Proof.
  transitivity (ConditionResult.conditionId <$> (sourceOf <$> blindAndShuffle draw results)).
  - by rewrite <-list_fmap_compose.
  - rewrite sourceOf_blindAndShuffle. by rewrite shuffleFrom_Permutation.
Qed.

(** C10.  For a list of condition results of any length and any draws,
    the blinded responses carry exactly the input results, each one once
    (their sources are a permutation of the input, so answer, condition
    id, condition label and transcript pass through unchanged); the
    response at position [i] is labelled with the [i]-th of the four
    fixed labels, and from the fifth position on with the generated
    ["Response N"], [N = i + 1]. *)
Theorem blindAndShuffle_rearranges (draw : nat → nat) (results : list ConditionResult.t) :
  sourceOf <$> blindAndShuffle draw results ≡ₚ results ∧
  length (blindAndShuffle draw results) = length results ∧
  ∀ (i : nat) (b : BlindedResponse.t),
    blindAndShuffle draw results !! i = Some b →
    ((i < 4)%nat → blindLabels !! i = Some (BlindedResponse.blindId b)) ∧
    ((4 ≤ i)%nat → BlindedResponse.blindId b = "Response " +:+ pretty (i + 1)%nat).
Proof.
  split; [|split].
  - rewrite sourceOf_blindAndShuffle. apply shuffleFrom_Permutation.
  - apply length_blindAndShuffle.
  - intros i b Hb. apply blindId_blindAndShuffle in Hb. rewrite Hb. split; intros Hi.
    + destruct i as [|[|[|[|i]]]]; simpl; first [done|lia].
    + rewrite lookup_ge_None_2; [done|]. simpl. lia.
Qed.

Lemma orderProbability_permutations :
  orderProbability <$> permutations [0; 1; 2; 3]%nat = replicate 24 (1 # 24)%Q.
Proof. vm_compute. reflexivity. Qed.

(** C8.  With the three draws of a four-element shuffle as explicit
    inputs, uniform on their ranges and independent: there are 24 equally
    likely draw triples and every ordering of the four positions comes
    out with probability 1/24; the shuffled results are the inputs in
    that order, and the labels go to the shuffled positions in sequence. *)
Theorem blindAndShuffle_uniform (a b c d : ConditionResult.t) (order : list nat)
    (Horder : order ≡ₚ [0; 1; 2; 3]%nat) :
  length allDraws = 24%nat ∧
  orderProbability order = (1 # 24)%Q ∧
  ∀ js : nat * nat * nat,
    Some <$> (sourceOf <$> blindAndShuffle (drawsOf js) [a; b; c; d]) =
      (λ i : nat, [a; b; c; d] !! i) <$> shuffledPositions js ∧
    BlindedResponse.blindId <$> blindAndShuffle (drawsOf js) [a; b; c; d] = blindLabels.
Proof.
  split; [done|split].
  - symmetry in Horder. apply permutations_Permutation in Horder.
    apply (list_elem_of_fmap_2 orderProbability) in Horder.
    rewrite orderProbability_permutations in Horder.
    by apply elem_of_replicate in Horder as [-> _].
  - intros js. split.
    + rewrite sourceOf_blindAndShuffle. unfold shuffledPositions. simpl length.
      by rewrite <-!shuffleFrom_fmap.
    + by apply blindId_blindAndShuffle_four.
Qed.

Lemma blindAndShuffle_uniform_witness :
  [0; 1; 2; 3]%nat ≡ₚ [0; 1; 2; 3]%nat ∧ orderProbability [0; 1; 2; 3]%nat = (1 # 24)%Q.
Proof.
  split; [reflexivity|].
  exact (proj1 (proj2 (blindAndShuffle_uniform
    (buildFailedConditionResult 0 NotAnError) (buildFailedConditionResult 1 NotAnError)
    (buildFailedConditionResult 2 NotAnError) (buildFailedConditionResult 3 NotAnError)
    [0; 1; 2; 3]%nat (reflexivity _)))).
Defined.

(** ** Running the conditions *)

Section SettleFacts.
Context {E : Type} {Resp : E → Type} {A : Type}.
Implicit Types (env : Env E Resp) (ps : list (Proc E Resp A)).

Lemma run_forOf_settled env ps acc tr :
  run env (forOf (λ results p, result ← settled p; mret (results ++ [result])) ps acc) tr =
  (inl (acc ++ (settledInOrder env ps tr).1), (settledInOrder env ps tr).2).
Proof.
  revert acc tr. induction ps as [|p ps IH]; intros acc tr; simpl.
  - by rewrite app_nil_r.
  - change (bind ?p ?f) with (p ≫= f). rewrite run_bind, run_bind, run_settled.
    destruct (run env p tr) as [[a|e] tr1]; simpl; rewrite IH;
      destruct (settledInOrder env ps tr1) as [rest tr2]; simpl;
      by rewrite <-app_assoc.
Qed.

Lemma run_allSettled_nil env ps tr :
  run env (allSettled [] ps) tr =
  (inl (settledInOrder env ps tr).1, (settledInOrder env ps tr).2).
Proof. apply (run_forOf_settled env ps []). Qed.

Lemma settledInOrder_settlementOf env ps tr :
  Forall2 settlementOf ps (settledInOrder env ps tr).1.
Proof.
  revert tr. induction ps as [|p ps IH]; intros tr; simpl; [constructor|].
  destruct (run env p tr) as [[a|e] tr1] eqn:Hrun;
    specialize (IH tr1); destruct (settledInOrder env ps tr1) as [rest tr2]; simpl in *;
    constructor; simpl; eauto using run_CanReturn.
Qed.

(** [Promise.allSettled] never rejects: under every schedule it resolves
    to one settlement per promise. *)
Lemma run_allSettled env schedule ps tr :
  ∃ ss tr', run env (allSettled schedule ps) tr = (inl ss, tr') ∧ Forall2 settlementOf ps ss.
Proof.
  revert ps tr. induction schedule as [|i schedule IH]; intros ps tr.
  - eexists _, _. split; [apply run_allSettled_nil|apply settledInOrder_settlementOf].
  - simpl. destruct (ps !! i) as [[a|e|ev k]|] eqn:Hi; try apply IH.
    simpl.
    destruct (IH (<[i := k (env tr ev)]> ps) (tr ++ [existT ev (env tr ev)]))
      as (ss & tr' & Hrun & Hss).
    exists ss, tr'. split; [done|].
    apply Forall2_same_length_lookup. apply Forall2_same_length_lookup in Hss as [Hlen Hss].
    rewrite length_insert in Hlen. split; [done|]. intros j p s Hp Hs.
    destruct (decide (i = j)) as [->|Hne].
    + rewrite Hi in Hp. injection Hp as <-.
      specialize (Hss j (k (env tr ev)) s).
      rewrite list_lookup_insert_eq in Hss by eauto using lookup_lt_Some.
      specialize (Hss eq_refl Hs). destruct s; simpl in *; eauto.
    + apply (Hss j p s); [by rewrite list_lookup_insert_ne|done].
Qed.

End SettleFacts.

Lemma run_runConditionsInParallel (env : Env LlmEvent LlmResp) schedule runners tr :
  run env (runConditionsInParallel schedule runners) tr =
  match run env (allSettled schedule runners) tr with
  | (inl ss, tr') => (inl (imap resultOfSettlement ss), tr')
  | (inr e, tr') => (inr e, tr')
  end.
Proof.
  unfold runConditionsInParallel. rewrite run_bind.
  by destruct (run env (allSettled schedule runners) tr) as [[ss|e] tr'].
Qed.

Lemma run_sequential_loop (env : Env LlmEvent LlmResp) (runners : list (LlmProc ConditionResult.t))
    (acc : list (PromiseSettledResult ConditionResult.t)) tr :
  run env
    (forOf
       (λ results '(index, runCondition),
          tryCatch
            (result ← runCondition; mret (results ++ [result]))
            (λ error, mret (results ++ [buildFailedConditionResult index error])))
       (imap (λ index runCondition, ((length acc + index)%nat, runCondition)) runners)
       (imap resultOfSettlement acc))
    tr =
  (inl (imap resultOfSettlement (acc ++ (settledInOrder env runners tr).1)),
   (settledInOrder env runners tr).2).
Proof.
  revert acc tr. induction runners as [|p ps IH]; intros acc tr.
  - simpl. by rewrite app_nil_r.
  - rewrite imap_cons. cbn [forOf settledInOrder].
    change (bind ?p ?f) with (p ≫= f). rewrite run_bind, run_tryCatch, run_bind.
    destruct (run env p tr) as [[a|e] tr1]; rewrite run_mret.
    + specialize (IH (acc ++ [fulfilled a]) tr1).
      rewrite imap_app in IH. cbn [imap resultOfSettlement] in IH.
      rewrite (imap_ext _ ((λ index runCondition, ((length acc + index)%nat, runCondition)) ∘ S) ps)
        in IH by (intros; simpl; rewrite length_app; simpl; f_equal; lia).
      rewrite IH. destruct (settledInOrder env ps tr1) as [rest tr2]; simpl.
      by rewrite <-app_assoc.
    + specialize (IH (acc ++ [rejected e]) tr1).
      rewrite imap_app in IH. cbn [imap resultOfSettlement] in IH.
      rewrite (imap_ext _ ((λ index runCondition, ((length acc + index)%nat, runCondition)) ∘ S) ps)
        in IH by (intros; simpl; rewrite length_app; simpl; f_equal; lia).
      rewrite IH. destruct (settledInOrder env ps tr1) as [rest tr2]; simpl.
      by rewrite <-app_assoc.
Qed.

(** The [try]/[catch] loop of the serial mode turns the settlement of
    each runner, taken in order, into its condition result. *)
Lemma run_runConditionsSequentially (env : Env LlmEvent LlmResp) runners tr :
  run env (runConditionsSequentially runners) tr =
  (inl (imap resultOfSettlement (settledInOrder env runners tr).1),
   (settledInOrder env runners tr).2).
Proof. apply (run_sequential_loop env runners [] tr). Qed.

Lemma CanReturn_runSingleCondition input value :
  CanReturn (runSingleCondition input) value →
  ConditionResult.conditionId value = SingleConditionInput.conditionId input.
Proof.
  unfold runSingleCondition. intros (answer & _ & <-)%CanReturn_bind. done.
Qed.

Lemma CanReturn_runDebateCondition maxTokens input value :
  CanReturn (runDebateCondition maxTokens input) value →
  ConditionResult.conditionId value = DebateConditionInput.conditionId input.
Proof.
  unfold runDebateCondition. intros (debate & _ & <-)%CanReturn_bind. done.
Qed.

Lemma conditionId_resultOfSettlement (p : LlmProc ConditionResult.t) id index s :
  (∀ value, CanReturn p value → ConditionResult.conditionId value = id) →
  fst <$> fallbackMappings !! index = Some id →
  settlementOf p s →
  ConditionResult.conditionId (resultOfSettlement index s) = id.
Proof.
  intros Hp Hindex Hs. destruct s as [value|reason]; simpl in *; [by apply Hp|].
  destruct (fallbackMappings !! index) as [[id' label]|]; simpl in *; by simplify_eq.
Qed.

(** Whatever the four runners of [runExperiment] settle to, the condition
    results carry the four condition ids in the order of the runners. *)
Lemma conditionRunners_conditionIds maxTokens rounds force models question ss :
  Forall2 settlementOf (conditionRunners maxTokens rounds force models question) ss →
  ConditionResult.conditionId <$> imap resultOfSettlement ss =
  [single_plain; multi_mixed_models; multi_same_model_roles; single_role].
Proof.
  unfold conditionRunners. intros Hss.
  repeat match goal with
         | H : Forall2 _ (_ :: _) _ |- _ =>
             apply Forall2_cons_inv_l in H as (? & ? & ? & H & ->)
         | H : Forall2 _ [] _ |- _ => apply Forall2_nil_inv_l in H as ->
         end.
  cbn [imap fmap list_fmap compose].
  repeat f_equal;
    (eapply conditionId_resultOfSettlement; [|reflexivity|eassumption]; intros value Hvalue;
     first [apply CanReturn_runSingleCondition in Hvalue
           |apply CanReturn_runDebateCondition in Hvalue]; exact Hvalue).
Qed.

(** C1.  Every run of [runExperiment], in serial or concurrent mode and
    whatever the backends answer, completes with exactly four blinded
    responses; their blind ids are a permutation of the four fixed labels
    without duplicates, and no two responses have the same source
    condition id. *)
Theorem runExperiment_four_blinded_responses
    (MAX_DEBATE_RESPONSE_TOKENS DEFAULT_DEBATE_ROUNDS : Z)
    (FORCE_GEMINI_ONLY SERIALIZE_CONDITIONS : bool)
    (models : ModelCatalog.t) (runId createdAt : string)
    (draw : nat → nat) (schedule : list nat)
    (env : Env LlmEvent LlmResp) (tr : list LlmInteraction) (question : string) :
  ∃ (response : ExperimentApiResponse.t) (tr' : list LlmInteraction),
    run env
      (runExperiment MAX_DEBATE_RESPONSE_TOKENS DEFAULT_DEBATE_ROUNDS FORCE_GEMINI_ONLY
         SERIALIZE_CONDITIONS models runId createdAt draw schedule question) tr
      = (inl response, tr') ∧
    length (ExperimentApiResponse.responses response) = 4%nat ∧
    BlindedResponse.blindId <$> ExperimentApiResponse.responses response ≡ₚ blindLabels ∧
    NoDup (BlindedResponse.blindId <$> ExperimentApiResponse.responses response) ∧
    NoDup (BlindedResponse.sourceConditionId <$> ExperimentApiResponse.responses response).
Proof.
  set (runners := conditionRunners MAX_DEBATE_RESPONSE_TOKENS DEFAULT_DEBATE_ROUNDS
                    FORCE_GEMINI_ONLY models question).
  assert (∃ ss tr',
    run env (if SERIALIZE_CONDITIONS then runConditionsSequentially runners
             else runConditionsInParallel schedule runners) tr
      = (inl (imap resultOfSettlement ss), tr') ∧
    Forall2 settlementOf runners ss) as (ss & tr' & Hrun & Hss).
  { destruct SERIALIZE_CONDITIONS.
    - eexists _, _. split; [apply run_runConditionsSequentially|].
      apply settledInOrder_settlementOf.
    - destruct (run_allSettled env schedule runners tr) as (ss & tr' & Hrun & Hss).
      exists ss, tr'. split; [|done]. by rewrite run_runConditionsInParallel, Hrun. }
  pose proof (conditionRunners_conditionIds _ _ _ _ _ _ Hss) as Hids.
  assert (length (imap resultOfSettlement ss) = 4%nat) as Hlen.
  { by rewrite <-(length_fmap ConditionResult.conditionId), Hids. }
  eexists _, tr'. split; [|split; [|split; [|split]]].
  - unfold runExperiment. fold runners. rewrite run_bind, Hrun. reflexivity.
  - simpl. by rewrite length_blindAndShuffle.
  - simpl. by rewrite blindId_blindAndShuffle_four.
  - simpl. rewrite blindId_blindAndShuffle_four by done.
    by apply (bool_decide_unpack _).
  - simpl. rewrite sourceConditionId_blindAndShuffle, Hids.
    by apply (bool_decide_unpack _).
Qed.

(** C2.  When exactly one of four condition runners, the one at position
    [k], throws [reason] and the other three return the results in
    [values], the coordinator still produces four condition results, in
    serial mode and, under every schedule, in concurrent mode: the result
    at [k] is the synthetic failure result, whose condition id and label
    are the [k]-th entry of the fixed four-slot table, whose answer ends
    with the description of the failure and whose transcript is empty;
    the other three are the runners' results unchanged.  Blinding then
    yields four responses that carry exactly these four results. *)
Theorem failure_isolation
    (env : Env LlmEvent LlmResp) (tr : list LlmInteraction)
    (runners : list (LlmProc ConditionResult.t)) (schedule : list nat) (draw : nat → nat)
    (k : nat) (reason : Thrown) (values : list ConditionResult.t)
    (Hrunners : length runners = 4%nat) (Hvalues : length values = 4%nat) (Hk : (k < 4)%nat) :
  let failed := buildFailedConditionResult k reason in
  let results := <[k := failed]> values in
  fallbackMappings !! k
    = Some (ConditionResult.conditionId failed, ConditionResult.conditionLabel failed) ∧
  ConditionResult.answer failed
    = "This condition failed to run." +:+ LF +:+ LF +:+ "Error: " +:+
      default "Unknown failure" (errorMessage reason) ∧
  ConditionResult.transcript failed = [] ∧
  ((settledInOrder env runners tr).1 = <[k := rejected reason]> (fulfilled <$> values) →
   run env (runConditionsSequentially runners) tr
     = (inl results, (settledInOrder env runners tr).2)) ∧
  (∀ tr' : list LlmInteraction,
     run env (allSettled schedule runners) tr
       = (inl (<[k := rejected reason]> (fulfilled <$> values)), tr') →
     run env (runConditionsInParallel schedule runners) tr = (inl results, tr')) ∧
  length results = 4%nat ∧
  results !! k = Some failed ∧
  (∀ i : nat, i ≠ k → results !! i = values !! i) ∧
  length (blindAndShuffle draw results) = 4%nat ∧
  sourceOf <$> blindAndShuffle draw results ≡ₚ results.
Proof.
  intros failed results.
  assert (imap resultOfSettlement (<[k := rejected reason]> (fulfilled <$> values)) = results)
    as Himap.
  { apply list_eq. intros i. rewrite list_lookup_imap. subst results.
    destruct (decide (i = k)) as [->|Hne].
    - rewrite !list_lookup_insert_eq by (rewrite ?length_fmap; lia). done.
    - rewrite !list_lookup_insert_ne, list_lookup_fmap by done.
      by destruct (values !! i). }
  assert (length results = 4%nat) as Hlen by (subst results; by rewrite length_insert).
  split_and!.
  - subst failed. destruct k as [|[|[|[|k]]]]; simpl; first [done|lia].
  - done.
  - done.
  - intros Hsettled. by rewrite run_runConditionsSequentially, Hsettled, Himap.
  - intros tr' Hsettled. by rewrite run_runConditionsInParallel, Hsettled, Himap.
  - done.
  - subst results. apply list_lookup_insert_eq. lia.
  - intros i Hne. subst results. by apply list_lookup_insert_ne.
  - by rewrite length_blindAndShuffle.
  - rewrite sourceOf_blindAndShuffle. apply shuffleFrom_Permutation.
Qed.

Lemma failure_isolation_witness :
  let failed := buildFailedConditionResult 0 (JsError "fetch failed") in
  length exampleRunners = 4%nat ∧ length exampleValues = 4%nat ∧ (0 < 4)%nat ∧
  (run exampleEnv (runConditionsSequentially exampleRunners) []).1
    = inl (<[0%nat := failed]> exampleValues) ∧
  (run exampleEnv (runConditionsInParallel [0; 2; 1; 1; 2; 3]%nat exampleRunners) []).1
    = inl (<[0%nat := failed]> exampleValues).
Proof.
  pose proof (failure_isolation exampleEnv [] exampleRunners [0; 2; 1; 1; 2; 3]%nat (λ _, 0%nat)
                0 (JsError "fetch failed") exampleValues eq_refl eq_refl (le_S _ _ (le_S _ _ (le_S _ _ (le_n _)))))
    as (_ & _ & _ & Hserial & Hconcurrent & _).
  split; [reflexivity|]. split; [reflexivity|]. split; [lia|]. split.
  - rewrite Hserial; [reflexivity|]. vm_compute. reflexivity.
  - erewrite Hconcurrent; [reflexivity|]. vm_compute. reflexivity.
Defined.

(** ** The debate engine *)

Lemma filter_all {A} (P : A → Prop) `{!∀ x, Decision (P x)} (l : list A) :
  Forall P l → filter P l = l.
Proof.
  induction 1 as [|x l Hx _ IH]; [done|]. by rewrite filter_cons_True, IH.
Qed.

Lemma filter_none {A} (P : A → Prop) `{!∀ x, Decision (P x)} (l : list A) :
  Forall (λ x, ¬ P x) l → filter P l = [].
Proof.
  induction 1 as [|x l Hx _ IH]; [done|]. by rewrite filter_cons_False.
Qed.

Lemma run_callLlm env input tr :
  run env (callLlm input) tr =
  (env tr (CallLlm input), tr ++ [existT (CallLlm input) (env tr (CallLlm input))]).
Proof. unfold callLlm. simpl. by destruct (env tr (CallLlm input)). Qed.

(** Every interaction that a run adds was answered by the environment. *)
Lemma run_answered {E Resp A} (env : Env E Resp) (p : Proc E Resp A) tr outcome tr' :
  run env p tr = (outcome, tr') →
  ∃ new, tr' = tr ++ new ∧ Forall (λ it, ∃ pre, projT2 it = env pre (projT1 it)) new.
Proof.
  revert tr. induction p as [a|e|ev k IH]; intros tr; simpl.
  - intros [= <- <-]. exists []. by rewrite app_nil_r.
  - intros [= <- <-]. exists []. by rewrite app_nil_r.
  - intros (new & -> & Hnew)%IH. exists (existT ev (env tr ev) :: new).
    split; [by rewrite <-app_assoc|]. constructor; [by exists tr|done].
Qed.

Lemma textAt_cons it log p : textAt (it :: log) (S p) = textAt log p.
Proof. done. Qed.

Lemma textAt_app_l log1 log2 p :
  (p < length log1)%nat → textAt (log1 ++ log2) p = textAt log1 p.
Proof. intros Hp. unfold textAt. by rewrite lookup_app_l. Qed.

Lemma textAt_app_r log1 log2 p :
  textAt (log1 ++ log2) (length log1 + p) = textAt log2 p.
Proof.
  unfold textAt. rewrite lookup_app_r by lia. by replace (length log1 + p - length log1)%nat with p by lia.
Qed.

Lemma roundTurnsAt_app_l agents log1 log2 round offset :
  (offset + length agents ≤ length log1)%nat →
  roundTurnsAt agents (log1 ++ log2) round offset = roundTurnsAt agents log1 round offset.
Proof.
  intros Hlen. unfold roundTurnsAt. apply imap_ext. intros j Y HY. simpl.
  apply lookup_lt_Some in HY. by rewrite textAt_app_l by lia.
Qed.

Lemma roundTurnsAt_app_r agents log1 log2 round offset :
  roundTurnsAt agents (log1 ++ log2) round (length log1 + offset)
  = roundTurnsAt agents log2 round offset.
Proof.
  unfold roundTurnsAt. apply imap_ext. intros j Y HY. simpl.
  by rewrite <-Nat.add_assoc, textAt_app_r.
Qed.

Lemma length_roundTurnsAt agents log round offset :
  length (roundTurnsAt agents log round offset) = length agents.
Proof. unfold roundTurnsAt. by rewrite length_imap. Qed.

Lemma round_roundTurnsAt agents log round offset :
  Forall (λ turn, DebateTurn.round turn = round) (roundTurnsAt agents log round offset).
Proof.
  apply Forall_lookup. intros j turn. unfold roundTurnsAt. rewrite list_lookup_imap.
  destruct (agents !! j); simpl; intros Hturn; by simplify_eq.
Qed.

Section DebateFacts.
Context (MAX_DEBATE_RESPONSE_TOKENS : Z) (env : Env LlmEvent LlmResp) (input : DebateInput.t).

(** The request that [debateTurn] makes for [agent] whose history is
    [history]. *)
Lemma run_debateTurn round previousRoundTurns histories contributions agent history tr :
  histories !! DebateAgent.id agent = Some history →
  ∃ request,
    hasRoundPrompt input round agent previousRoundTurns (existT request (env tr request)) ∧
    run env
      (debateTurn MAX_DEBATE_RESPONSE_TOKENS input round previousRoundTurns
         (histories, contributions) agent) tr =
    (match env tr request with
     | inl content =>
         inl (<[DebateAgent.id agent :=
                  (history ++
                     [ChatMessage.mk user
                        (buildRoundPrompt
                           (RoundPromptInput.mk (DebateInput.question input) round
                              (DebateInput.rounds input) agent previousRoundTurns))]) ++
                  [ChatMessage.mk assistant content]]> histories,
              contributions ++ [debateTurnOf round agent content])
     | inr e => inr e
     end,
     tr ++ [existT request (env tr request)]).
Proof.
  intros Hhistory. unfold debateTurn. rewrite Hhistory, run_bind, run_callLlm.
  match goal with |- context [env tr ?ev] => exists ev end.
  split; [|by destruct (env tr _)].
  unfold hasRoundPrompt. simpl. by rewrite last_snoc.
Qed.

(** One round over the agents [todo]: every request made carries the
    prompt of its agent; a round that completes made one request per
    agent and contributed one turn per agent; a round that throws did so
    on the answer to its last request. *)
Lemma run_debateTurns round previousRoundTurns todo histories contributions tr outcome tr' :
  (∀ agent, agent ∈ todo → is_Some (histories !! DebateAgent.id agent)) →
  run env
    (forOf (debateTurn MAX_DEBATE_RESPONSE_TOKENS input round previousRoundTurns) todo
       (histories, contributions)) tr = (outcome, tr') →
  ∃ new,
    tr' = tr ++ new ∧
    (length new ≤ length todo)%nat ∧
    (∀ j it, new !! j = Some it →
       ∃ agent, todo !! j = Some agent ∧ hasRoundPrompt input round agent previousRoundTurns it) ∧
    match outcome with
    | inl (histories', contributions') =>
        length new = length todo ∧
        contributions' =
          contributions ++ imap (λ j agent, debateTurnOf round agent (textAt new j)) todo ∧
        (∀ key, is_Some (histories !! key) → is_Some (histories' !! key))
    | inr e => ∃ it, last new = Some it ∧ answerOf it = inr e
    end.
Proof.
  revert histories contributions tr.
  induction todo as [|agent todo IH]; intros histories contributions tr Hdom; cbn [forOf].
  - intros [= <- <-]. exists []. rewrite !app_nil_r. by split_and!.
  - change (bind ?p ?f) with (p ≫= f). rewrite run_bind.
    destruct (Hdom agent) as [history Hhistory]; [set_solver|].
    destruct (run_debateTurn round previousRoundTurns histories contributions agent history tr
                Hhistory) as (request & Hprompt & ->).
    destruct (env tr request) as [text|e] eqn:Hanswer.
    + intros Hrun. apply IH in Hrun as (new & -> & Hlen & Hprompts & Hout).
      2:{ intros agent' Hin. apply lookup_insert_is_Some'. right. apply Hdom. set_solver. }
      exists (existT request (inl text) :: new).
      split; [by rewrite <-app_assoc|]. split; [simpl; lia|]. split.
      * intros [|j] it; simpl; [intros [= <-]; eauto|]. apply Hprompts.
      * destruct outcome as [[histories' contributions']|e].
        -- destruct Hout as (Hlen' & -> & Hdom'). split; [simpl; lia|]. split.
           ++ rewrite <-app_assoc. f_equal. destruct request. by rewrite imap_cons.
           ++ intros key Hkey. apply Hdom'. apply lookup_insert_is_Some'. by right.
        -- destruct Hout as (it & Hlast & Hit). exists it. split; [|done].
           by destruct new.
    + intros [= <- <-]. exists [existT request (inr e)].
      split; [done|]. split; [simpl; lia|]. split.
      * intros [|j] it; simpl; [intros [= <-]; eauto|]. by rewrite lookup_nil.
      * eexists. split; [done|]. by destruct request.
Qed.

(** The rounds of a debate that starts at [round] with all earlier turns
    in [transcript]. *)
Lemma run_debateRounds remaining round histories transcript tr outcome tr' :
  let agents := DebateInput.agents input in
  (∀ agent, agent ∈ agents → is_Some (histories !! DebateAgent.id agent)) →
  Forall (λ turn, DebateTurn.round turn < round) transcript →
  run env (debateRounds MAX_DEBATE_RESPONSE_TOKENS input remaining round histories transcript) tr
    = (outcome, tr') →
  ∃ new,
    tr' = tr ++ new ∧
    (length new ≤ remaining * length agents)%nat ∧
    (∀ j it agent, agents !! j = Some agent → new !! j = Some it →
       hasRoundPrompt input round agent
         (filter (λ turn, DebateTurn.round turn = round - 1) transcript) it) ∧
    (∀ k j it agent, agents !! j = Some agent →
       new !! (S k * length agents + j)%nat = Some it →
       hasRoundPrompt input (round + Z.of_nat (S k)) agent
         (roundTurnsAt agents new (round + Z.of_nat k) (k * length agents)) it) ∧
    match outcome with
    | inl (histories', transcript') =>
        length new = (remaining * length agents)%nat ∧
        transcript' =
          transcript ++
          mjoin ((λ k, roundTurnsAt agents new (round + Z.of_nat k) (k * length agents))
                   <$> seq 0 remaining) ∧
        (∀ key, is_Some (histories !! key) → is_Some (histories' !! key))
    | inr e => ∃ it, last new = Some it ∧ answerOf it = inr e
    end.
Proof.
  intros agents. revert round histories transcript tr outcome tr'.
  induction remaining as [|remaining IH];
    intros round histories transcript tr outcome tr' Hdom Hold; cbn [debateRounds].
  - intros [= <- <-]. exists []. rewrite !app_nil_r. by split_and!.
  - rewrite run_bind.
    destruct (run env (forOf _ _ _) tr) as [[[histories1 contributions]|e] tr1] eqn:Hround;
      apply run_debateTurns in Hround as (new1 & -> & Hlen1 & Hprompts1 & Hout1); try done;
      fold agents in Hlen1, Hprompts1, Hout1.
    2:{ intros [= <- <-]. exists new1. split; [done|]. split; [lia|]. split; [|split; [|done]].
        - intros j it agent Hagent Hit.
          destruct (Hprompts1 j it Hit) as (agent' & Hagent' & Hprompt). by simplify_eq.
        - intros k j it agent _ Hit. apply lookup_lt_Some in Hit. lia. }
    destruct Hout1 as (Hfull1 & -> & Hdom1). simpl.
    assert (imap (λ j agent, debateTurnOf round agent (textAt new1 j)) agents
            = roundTurnsAt agents new1 round 0) as Hturns by done.
    rewrite Hturns. clear Hturns.
    intros Hrun. apply IH in Hrun as (new2 & -> & Hlen2 & Hfirst2 & Hlater2 & Hout2).
    2:{ intros agent Hagent. by apply Hdom1, Hdom. }
    2:{ apply Forall_app. split.
        - eapply Forall_impl; [exact Hold|]. simpl. lia.
        - eapply Forall_impl; [apply round_roundTurnsAt|]. simpl. lia. }
    assert (filter (λ turn, DebateTurn.round turn = round + 1 - 1)
              (transcript ++ roundTurnsAt agents new1 round 0)
            = roundTurnsAt agents (new1 ++ new2) round 0) as Hprev.
    { rewrite filter_app.
      rewrite (filter_none _ transcript).
      2:{ eapply Forall_impl; [exact Hold|]. simpl. lia. }
      rewrite (filter_all _ (roundTurnsAt agents new1 round 0)).
      2:{ eapply Forall_impl; [apply round_roundTurnsAt|]. simpl. lia. }
      simpl. symmetry. apply roundTurnsAt_app_l. lia. }
    exists (new1 ++ new2).
    split; [by rewrite <-app_assoc|]. split; [rewrite length_app; lia|].
    split; [|split].
    + intros j it agent Hagent Hit. apply lookup_lt_Some in Hagent as Hj.
      rewrite lookup_app_l in Hit by lia.
      destruct (Hprompts1 j it Hit) as (agent' & Hagent' & Hprompt). by simplify_eq.
    + intros k j it agent Hagent Hit.
      assert (new2 !! (k * length agents + j)%nat = Some it) as Hit2.
      { rewrite <-Hit. rewrite lookup_app_r by lia. f_equal. lia. }
      clear Hit. destruct k as [|k].
      * specialize (Hfirst2 j it agent Hagent Hit2).
        rewrite Hprev in Hfirst2.
        replace (round + Z.of_nat 1) with (round + 1) by lia.
        by replace (round + Z.of_nat 0) with round by lia.
      * specialize (Hlater2 k j it agent Hagent Hit2).
        replace (round + 1 + Z.of_nat (S k)) with (round + Z.of_nat (S (S k))) in Hlater2 by lia.
        replace (round + 1 + Z.of_nat k) with (round + Z.of_nat (S k)) in Hlater2 by lia.
        replace (S k * length agents)%nat with (length new1 + k * length agents)%nat by lia.
        by rewrite roundTurnsAt_app_r.
    + destruct outcome as [[histories' transcript']|e].
      * destruct Hout2 as (Hfull2 & -> & Hdom2). split; [rewrite length_app; lia|]. split.
        -- rewrite <-app_assoc. f_equal.
           replace (round + Z.of_nat 0) with round by lia.
           rewrite roundTurnsAt_app_l by lia. f_equal.
           change (list_fmap nat (list DebateTurn.t) ?f ?l) with (f <$> l).
           rewrite <-fmap_S_seq, <-list_fmap_compose. f_equal.
           apply list_fmap_ext. intros i k _. simpl.
           replace (round + 1 + Z.of_nat k) with (round + Z.of_nat (S k)) by lia.
           rewrite <-(roundTurnsAt_app_r agents new1 new2). f_equal. lia.
        -- intros key Hkey. by apply Hdom2, Hdom1.
      * destruct Hout2 as (it & Hlast & Hit). exists it. split; [|done].
        rewrite last_app. by rewrite Hlast.
Qed.

Lemma initialHistories_is_Some agents agent :
  agent ∈ agents → is_Some (initialHistories agents !! DebateAgent.id agent).
Proof.
  unfold initialHistories. generalize (∅ : gmap string (list ChatMessage.t)).
  intros histories Hagent.
  assert (is_Some (histories !! DebateAgent.id agent) ∨ agent ∈ agents) as Hkey by (by right).
  clear Hagent. revert histories Hkey.
  induction agents as [|first agents IH]; intros histories Hkey; simpl.
  - destruct Hkey as [Hkey|Hkey]; [done|]. by apply elem_of_nil in Hkey.
  - apply IH. destruct Hkey as [Hkey|Hkey].
    + left. apply lookup_insert_is_Some'. by right.
    + apply elem_of_cons in Hkey as [->|Hkey]; [|by right].
      left. apply lookup_insert_is_Some'. by left.
Qed.

Lemma findModerator_elem_of agents moderator :
  findModerator agents = Some moderator → moderator ∈ agents.
Proof.
  unfold findModerator.
  destruct (List.find _ agents) as [agent|] eqn:Hfind.
  - intros [= <-]. apply list_elem_of_In. by apply find_some in Hfind as [? _].
  - destruct agents; simpl; intros [= <-]. by left.
Qed.

Lemma findModerator_None agents : findModerator agents = None → agents = [].
Proof.
  unfold findModerator. destruct (List.find _ agents); [done|]. by destruct agents.
Qed.

(** A whole debate.  [log] holds the interactions of the run: the
    requests of round [r] at the positions [roundRequest agents r _],
    then the request of the synthesis. *)
Lemma run_runDebate tr outcome tr' :
  let agents := DebateInput.agents input in
  let rounds := Z.to_nat (DebateInput.rounds input) in
  run env (runDebate MAX_DEBATE_RESPONSE_TOKENS input) tr = (outcome, tr') →
  ∃ log,
    tr' = tr ++ log ∧
    (∀ r i it agent, (2 ≤ r ≤ rounds)%nat → agents !! i = Some agent →
       log !! roundRequest agents r i = Some it →
       hasRoundPrompt input (Z.of_nat r) agent (roundTurns agents log (r - 1)) it) ∧
    match outcome with
    | inl result =>
        ∃ moderator,
          findModerator agents = Some moderator ∧
          length log = (rounds * length agents + 1)%nat ∧
          DebateRunResult.transcript result =
            mjoin (roundTurns agents log <$> seq 1 rounds) ++
            [DebateTurn.mk (DebateInput.rounds input + 1) (DebateAgent.id moderator)
               (DebateAgent.name moderator +:+ " (Final Synthesis)")
               (DebateAgent.provider moderator) (DebateAgent.model moderator)
               (DebateRunResult.answer result)] ∧
          answerOf <$> last log = Some (inl (DebateRunResult.answer result))
    | inr e => agents = [] ∨ ∃ it, last log = Some it ∧ answerOf it = inr e
    end.
Proof.
  intros agents rounds. unfold runDebate. rewrite run_bind. fold agents rounds.
  destruct (run env (debateRounds _ _ _ _ _ _) tr) as [[[histories transcript]|e] tr1] eqn:Hrounds;
    apply run_debateRounds in Hrounds as (new & -> & Hlen & _ & Hlater & Hout);
    try (by apply initialHistories_is_Some); try done; fold agents in Hlen, Hlater, Hout.
  2:{ intros [= <- <-]. exists new. split; [done|]. split; [|by right].
      intros r i it agent Hr Hagent Hit. unfold roundRequest in Hit. fold agents in Hit.
      destruct r as [|[|k]]; [lia|lia|].
      replace (S (S k) - 1)%nat with (S k) in * by lia.
      specialize (Hlater k i it agent Hagent Hit).
      unfold roundTurns. fold agents.
      replace (Z.of_nat (S (S k))) with (1 + Z.of_nat (S k)) by lia.
      replace (Z.of_nat (S k)) with (1 + Z.of_nat k) at 2 by lia.
      by replace (S k - 1)%nat with k by lia. }
  destruct Hout as (Hfull & -> & Hdom).
  assert (∀ log', ∀ r i it agent, (2 ≤ r ≤ rounds)%nat → agents !! i = Some agent →
            (new ++ log') !! roundRequest agents r i = Some it →
            hasRoundPrompt input (Z.of_nat r) agent (roundTurns agents (new ++ log') (r - 1)) it)
    as Hprompts.
  { intros log' r i it agent Hr Hagent Hit. unfold roundRequest in Hit.
    apply lookup_lt_Some in Hagent as Hi.
    destruct r as [|[|k]]; [lia|lia|].
    replace (S (S k) - 1)%nat with (S k) in * by lia.
    rewrite lookup_app_l in Hit by nia.
    specialize (Hlater k i it agent Hagent Hit).
    unfold roundTurns.
    replace (Z.of_nat (S (S k))) with (1 + Z.of_nat (S k)) by lia.
    replace (Z.of_nat (S k)) with (1 + Z.of_nat k) at 2 by lia.
    replace (S k - 1)%nat with k by lia.
    rewrite roundTurnsAt_app_l by nia. done. }
  assert (∀ log', mjoin ((λ k, roundTurnsAt agents new (1 + Z.of_nat k) (k * length agents))
                           <$> seq 0 rounds)
                  = mjoin (roundTurns agents (new ++ log') <$> seq 1 rounds)) as Htranscript.
  { intros log'. rewrite <-fmap_S_seq, <-list_fmap_compose. f_equal.
    apply list_fmap_ext. intros i k Hk. apply lookup_seq in Hk as [Hik Hk]. simpl in *.
    subst k. unfold roundTurns. replace (i - 0)%nat with i by lia.
    rewrite roundTurnsAt_app_l by nia. f_equal; lia. }
  destruct (findModerator agents) as [moderator|] eqn:Hmoderator.
  2:{ intros [= <- <-]. exists new. split; [done|]. split; [|left; by apply findModerator_None].
      specialize (Hprompts []). by rewrite app_nil_r in Hprompts. }
  destruct (Hdom (DebateAgent.id moderator)) as [moderatorHistory ->].
  { by apply initialHistories_is_Some, findModerator_elem_of. }
  rewrite run_bind, run_callLlm.
  match goal with |- context [env _ ?ev] => set (request := ev) end.
  destruct (env (tr ++ new) request) as [finalAnswer|e] eqn:Hanswer;
    intros [= <- <-]; exists (new ++ [existT request (env (tr ++ new) request)]);
    rewrite Hanswer; (split; [by rewrite app_assoc|]); (split; [by apply Hprompts|]).
  - exists moderator. split; [done|]. split; [rewrite length_app; simpl; lia|]. split.
    + simpl. by rewrite (Htranscript [existT request (inl finalAnswer)]).
    + by rewrite last_snoc.
  - right. eexists. by rewrite last_snoc.
Qed.

(** With a backend that answers every request and at least one agent,
    the debate returns. *)
Lemma run_runDebate_answers tr :
  let agents := DebateInput.agents input in
  let rounds := Z.to_nat (DebateInput.rounds input) in
  alwaysAnswers env → agents ≠ [] →
  ∃ result log moderator,
    run env (runDebate MAX_DEBATE_RESPONSE_TOKENS input) tr = (inl result, tr ++ log) ∧
    findModerator agents = Some moderator ∧
    length log = (rounds * length agents + 1)%nat ∧
    DebateRunResult.transcript result =
      mjoin (roundTurns agents log <$> seq 1 rounds) ++
      [DebateTurn.mk (DebateInput.rounds input + 1) (DebateAgent.id moderator)
         (DebateAgent.name moderator +:+ " (Final Synthesis)")
         (DebateAgent.provider moderator) (DebateAgent.model moderator)
         (DebateRunResult.answer result)].
Proof.
  intros agents rounds Henv Hagents.
  destruct (run env (runDebate MAX_DEBATE_RESPONSE_TOKENS input) tr) as [outcome tr'] eqn:Hrun.
  pose proof (run_answered _ _ _ _ _ Hrun) as (new & Htr' & Hnew).
  apply run_runDebate in Hrun as (log & -> & _ & Hout).
  apply app_inv_head in Htr' as <-.
  destruct outcome as [result|e].
  - destruct Hout as (moderator & Hmoderator & Hlen & Htranscript & _).
    by exists result, log, moderator.
  - destruct Hout as [Hnil|(it & Hlast & Hit)]; [done|]. exfalso.
    apply last_Some_elem_of in Hlast.
    apply (proj1 (Forall_forall _ _) Hnew) in Hlast as [pre Hpre].
    destruct it as [[request] answer]. simpl in *. subst answer.
    destruct (Henv pre (CallLlm request)) as [text Htext]. congruence.
Qed.

End DebateFacts.

Lemma length_mjoin_roundTurns agents log rs :
  length (mjoin (roundTurns agents log <$> rs)) = (length rs * length agents)%nat.
Proof.
  induction rs as [|r rs IH]; [done|].
  change (mjoin (roundTurns agents log <$> r :: rs))
    with (roundTurns agents log r ++ mjoin (roundTurns agents log <$> rs)).
  rewrite length_app, IH. unfold roundTurns. by rewrite length_roundTurnsAt.
Qed.

Lemma roundTurns_round_agentId agents log r :
  (λ turn, (DebateTurn.round turn, DebateTurn.agentId turn)) <$> roundTurns agents log r
  = (λ agent, (Z.of_nat r, DebateAgent.id agent)) <$> agents.
Proof.
  unfold roundTurns, roundTurnsAt. rewrite fmap_imap.
  rewrite <-(imap_const (λ agent, (Z.of_nat r, DebateAgent.id agent))).
  by apply imap_ext.
Qed.

(** C3.  A debate of [R >= 1] rounds among [A >= 1] agents whose backend
    answers every request with a text returns; its transcript is the
    turns of the rounds [1..R] in order, each round holding exactly one
    turn per agent in roster order with that round's number ([R * A]
    turns in all), followed by exactly one synthesis turn with round
    number [R + 1]; the answer of the debate is the content of the
    synthesis turn. *)
Theorem runDebate_transcript_shape
    (MAX_DEBATE_RESPONSE_TOKENS : Z) (env : Env LlmEvent LlmResp) (tr : list LlmInteraction)
    (input : DebateInput.t)
    (Hrounds : 1 ≤ DebateInput.rounds input)
    (Hagents : DebateInput.agents input ≠ [])
    (Henv : alwaysAnswers env) :
  let agents := DebateInput.agents input in
  let R := Z.to_nat (DebateInput.rounds input) in
  ∃ (result : DebateRunResult.t) (log : list LlmInteraction) (synthesis : DebateTurn.t),
    run env (runDebate MAX_DEBATE_RESPONSE_TOKENS input) tr = (inl result, tr ++ log) ∧
    DebateRunResult.transcript result
      = mjoin (roundTurns agents log <$> seq 1 R) ++ [synthesis] ∧
    length (mjoin (roundTurns agents log <$> seq 1 R)) = (R * length agents)%nat ∧
    (∀ r : nat,
       (λ turn, (DebateTurn.round turn, DebateTurn.agentId turn)) <$> roundTurns agents log r
       = (λ agent, (Z.of_nat r, DebateAgent.id agent)) <$> agents) ∧
    Forall (λ turn, 1 ≤ DebateTurn.round turn ≤ DebateInput.rounds input)
      (mjoin (roundTurns agents log <$> seq 1 R)) ∧
    DebateTurn.round synthesis = DebateInput.rounds input + 1 ∧
    DebateRunResult.answer result = DebateTurn.content synthesis.
Proof.
  intros agents R.
  destruct (run_runDebate_answers MAX_DEBATE_RESPONSE_TOKENS env input tr Henv Hagents)
    as (result & log & moderator & Hrun & _ & _ & Htranscript).
  eexists result, log, _. split; [exact Hrun|]. split; [exact Htranscript|].
  split; [by rewrite length_mjoin_roundTurns, length_seq|].
  split; [apply roundTurns_round_agentId|]. split; [|done].
  apply Forall_forall. intros turn Hturn.
  apply list_elem_of_join in Hturn as (turns & Hturn & Hturns).
  apply list_elem_of_fmap in Hturns as (r & -> & Hr). apply elem_of_seq in Hr.
  pose proof (round_roundTurnsAt agents log (Z.of_nat r) ((r - 1) * length agents)) as Hround.
  apply (proj1 (Forall_forall _ _) Hround) in Hturn. subst R. lia.
Qed.

Lemma runDebate_transcript_shape_witness :
  1 ≤ DebateInput.rounds exampleDebate ∧
  DebateInput.agents exampleDebate ≠ [] ∧
  alwaysAnswers answeringEnv ∧
  ∃ (result : DebateRunResult.t) (log : list LlmInteraction) (synthesis : DebateTurn.t),
    run answeringEnv (runDebate 450 exampleDebate) [] = (inl result, log) ∧
    length (DebateRunResult.transcript result) = 9%nat ∧
    last (DebateRunResult.transcript result) = Some synthesis ∧
    DebateTurn.round synthesis = 3 ∧
    DebateRunResult.answer result = DebateTurn.content synthesis.
Proof.
  assert (1 ≤ DebateInput.rounds exampleDebate) as H1 by (simpl; lia).
  assert (DebateInput.agents exampleDebate ≠ []) as H2 by (simpl; discriminate).
  assert (alwaysAnswers answeringEnv) as H3 by (intros tr ev; eexists; reflexivity).
  destruct (runDebate_transcript_shape 450 answeringEnv [] exampleDebate H1 H2 H3)
    as (result & log & synthesis & Hrun & Htranscript & Hlen & _ & _ & Hround & Hanswer).
  split; [exact H1|]. split; [exact H2|]. split; [exact H3|].
  exists result, log, synthesis. split; [exact Hrun|].
  rewrite Htranscript, length_app, Hlen, last_snoc. split; [reflexivity|].
  split; [reflexivity|]. split; [exact Hround|exact Hanswer].
Defined.

Lemma length_append (s1 s2 : string) :
  String.length (s1 +:+ s2) = (String.length s1 + String.length s2)%nat.
Proof. induction s1 as [|c s1 IH]; simpl; [done|]. by rewrite IH. Qed.

Lemma length_slice0 (s : string) (n : nat) :
  String.length (slice0 s n) = (n `min` String.length s)%nat.
Proof.
  unfold slice0. revert n. induction s as [|c s IH]; intros [|n]; simpl; try done.
  by rewrite IH.
Qed.

(** [clampText] bounds the length of a text. *)
Lemma length_clampText (input : string) (maxChars : nat) :
  (3 ≤ maxChars)%nat → (String.length (clampText input maxChars) ≤ maxChars)%nat.
Proof.
  intros Hmax. unfold clampText.
  destruct (String.length input <=? maxChars)%nat eqn:Hle.
  - by apply Nat.leb_le.
  - rewrite length_append, length_slice0. simpl. lia.
Qed.

Lemma append_assoc (s1 s2 s3 : string) : (s1 +:+ s2) +:+ s3 = s1 +:+ s2 +:+ s3.
Proof.
  induction s1 as [|c s1 IH]; [done|].
  change (String c ((s1 +:+ s2) +:+ s3) = String c (s1 +:+ s2 +:+ s3)). by f_equal.
Qed.

Lemma append_empty_r (s : string) : s +:+ EmptyString = s.
Proof.
  induction s as [|c s IH]; [done|].
  change (String c (s +:+ EmptyString) = String c s). by f_equal.
Qed.

Lemma join_cons sep (part : string) (parts : list string) :
  join sep (part :: parts) =
  match parts with [] => part | _ => part +:+ sep +:+ join sep parts end.
Proof. by destruct parts. Qed.

(** A part of a joined text lies in it. *)
Lemma join_middle sep (before : list string) (part : string) (after : list string) :
  ∃ prefix suffix : string, join sep (before ++ part :: after) = prefix +:+ part +:+ suffix.
Proof.
  induction before as [|first before IH].
  - exists EmptyString. simpl app. rewrite join_cons. destruct after.
    + exists EmptyString. by rewrite append_empty_r.
    + by eexists.
  - destruct IH as (prefix & suffix & IH). change ((first :: before) ++ part :: after)
      with (first :: (before ++ part :: after)).
    rewrite join_cons. destruct (before ++ part :: after) eqn:Hparts.
    + by destruct before.
    + rewrite IH. exists (first +:+ sep +:+ prefix), suffix.
      by rewrite !append_assoc.
Qed.

Lemma formatPeerContext_entries turns selfAgentId :
  let peers := filter (λ turn, DebateTurn.agentId turn ≠ selfAgentId) turns in
  formatPeerContext turns selfAgentId =
  if decide (peers = []) then "- No prior peer statements available."
  else join LF (peerEntry <$> peers).
Proof.
  intros peers. unfold formatPeerContext. fold peers.
  destruct peers as [|turn peers']; [done|]. by rewrite !decide_False by done.
Qed.

(** C4.  In every run of a debate, successful or not, take the request
    made in round [r >= 2] for the agent [X] at index [i] of the roster.
    Its last message is the round-[r] prompt built from the turns of
    round [r - 1], one per agent, whose contents are the answers given
    in round [r - 1].  The peer context of that prompt lists one entry
    per turn of [peers], the round [r - 1] turns whose agent id differs
    from the id of [X]: the turn of every other agent is among them, no
    turn of [X] is, and every entry holds the turn's content cut to at
    most 280 characters. *)
Theorem round_prompt_peer_context
    (MAX_DEBATE_RESPONSE_TOKENS : Z) (env : Env LlmEvent LlmResp) (tr : list LlmInteraction)
    (input : DebateInput.t) (r i : nat) (X : DebateAgent.t) (it : LlmInteraction) :
  let agents := DebateInput.agents input in
  let log := debateLog MAX_DEBATE_RESPONSE_TOKENS env input tr in
  let previousRoundTurns := roundTurns agents log (r - 1) in
  let peers := filter (λ turn, DebateTurn.agentId turn ≠ DebateAgent.id X) previousRoundTurns in
  (2 ≤ r ≤ Z.to_nat (DebateInput.rounds input))%nat →
  agents !! i = Some X →
  log !! roundRequest agents r i = Some it →
  hasRoundPrompt input (Z.of_nat r) X previousRoundTurns it ∧
  (∃ before after : string,
     buildRoundPrompt
       (RoundPromptInput.mk (DebateInput.question input) (Z.of_nat r) (DebateInput.rounds input)
          X previousRoundTurns)
     = before +:+ formatPeerContext previousRoundTurns (DebateAgent.id X) +:+ after) ∧
  formatPeerContext previousRoundTurns (DebateAgent.id X)
    = (if decide (peers = []) then "- No prior peer statements available."
       else join LF (peerEntry <$> peers)) ∧
  (∀ (j : nat) (Y : DebateAgent.t),
     agents !! j = Some Y → DebateAgent.id Y ≠ DebateAgent.id X →
     debateTurnOf (Z.of_nat (r - 1)) Y (textAt log (roundRequest agents (r - 1) j)) ∈ peers) ∧
  (∀ turn : DebateTurn.t, turn ∈ peers →
     DebateTurn.agentId turn ≠ DebateAgent.id X ∧
     DebateTurn.round turn = Z.of_nat (r - 1) ∧
     (String.length (clampText (DebateTurn.content turn) 280) ≤ 280)%nat).
Proof.
  intros agents log.
  assert (∀ r i it agent, (2 ≤ r ≤ Z.to_nat (DebateInput.rounds input))%nat →
            agents !! i = Some agent → log !! roundRequest agents r i = Some it →
            hasRoundPrompt input (Z.of_nat r) agent (roundTurns agents log (r - 1)) it)
    as Hprompts.
  { subst log. unfold debateLog.
    destruct (run env (runDebate MAX_DEBATE_RESPONSE_TOKENS input) tr) as [outcome tr'] eqn:Hrun.
    apply run_runDebate in Hrun as (log & -> & Hprompts & _).
    cbn [snd]. rewrite drop_app_length. exact Hprompts. }
  clearbody log. intros previousRoundTurns peers Hr HX Hit.
  split_and!.
  - exact (Hprompts r i it X Hr HX Hit).
  - unfold buildRoundPrompt. cbn [RoundPromptInput.round]. rewrite decide_False by lia.
    cbv zeta. cbn [RoundPromptInput.previousRoundTurns RoundPromptInput.agent].
    match goal with
    | |- ∃ before after, join LF [?a; ?b; ?c; ?x; ?d; ?e; ?f; ?g; ?h; ?i'; ?j; ?k; ?l; ?m; ?n; ?o]
                         = _ =>
        apply (join_middle LF [a; b; c] x [d; e; f; g; h; i'; j; k; l; m; n; o])
    end.
  - apply formatPeerContext_entries.
  - intros j Y HY Hne. apply list_elem_of_filter. split; [done|].
    apply list_elem_of_lookup. exists j.
    subst previousRoundTurns. unfold roundTurns, roundTurnsAt, roundRequest.
    rewrite list_lookup_imap. fold agents. by rewrite HY.
  - intros turn [Hne Hturn]%list_elem_of_filter. split; [done|]. split.
    + pose proof (round_roundTurnsAt agents log (Z.of_nat (r - 1))
                    ((r - 1 - 1) * length agents)) as Hround.
      by apply (proj1 (Forall_forall _ _) Hround) in Hturn.
    + apply length_clampText. lia.
Qed.

Lemma round_prompt_peer_context_witness :
  let agents := DebateInput.agents exampleDebate in
  let log := debateLog 450 answeringEnv exampleDebate [] in
  ∃ (X : DebateAgent.t) (it : LlmInteraction),
    (2 ≤ 2 ≤ Z.to_nat (DebateInput.rounds exampleDebate))%nat ∧
    agents !! 1%nat = Some X ∧
    log !! roundRequest agents 2 1 = Some it ∧
    hasRoundPrompt exampleDebate 2 X (roundTurns agents log 1) it ∧
    length (filter (λ turn, DebateTurn.agentId turn ≠ DebateAgent.id X)
              (roundTurns agents log 1)) = 3%nat.
Proof.
  intros agents log. eexists _, _.
  assert ((2 ≤ 2 ≤ Z.to_nat (DebateInput.rounds exampleDebate))%nat) as Hr by (simpl; lia).
  split; [exact Hr|]. split; [reflexivity|]. split; [vm_compute; reflexivity|]. split.
  - refine (proj1 (round_prompt_peer_context 450 answeringEnv [] exampleDebate 2 1 _ _
                     Hr eq_refl _)).
    vm_compute. reflexivity.
  - vm_compute. reflexivity.
Defined.

(** C9.  [runDebateCondition] runs the debate with the configured round
    count raised to at least 1: the count it passes on is 1 for every
    configured value of 0 or less and the configured value from 1 on.
    With a backend that answers and a roster that is not empty the
    condition returns the debate's answer and a transcript of exactly
    that many rounds, one turn per agent each, and one synthesis turn
    numbered one more; for a configured value of 0 or less that is one
    round and a synthesis turn of round 2. *)
Theorem runDebateCondition_clamps_rounds
    (MAX_DEBATE_RESPONSE_TOKENS : Z) (env : Env LlmEvent LlmResp) (tr : list LlmInteraction)
    (input : DebateConditionInput.t)
    (Hagents : DebateConditionInput.agents input ≠ [])
    (Henv : alwaysAnswers env) :
  let agents := DebateConditionInput.agents input in
  let R := effectiveRounds (DebateConditionInput.rounds input) in
  Z.max 1 (DebateConditionInput.rounds input) = R ∧
  1 ≤ R ∧
  ∃ (value : ConditionResult.t) (log : list LlmInteraction) (synthesis : DebateTurn.t),
    run env (runDebateCondition MAX_DEBATE_RESPONSE_TOKENS input) tr = (inl value, tr ++ log) ∧
    length log = (Z.to_nat R * length agents + 1)%nat ∧
    ConditionResult.transcript value
      = mjoin (roundTurns agents log <$> seq 1 (Z.to_nat R)) ++ [synthesis] ∧
    DebateTurn.round synthesis = R + 1 ∧
    ConditionResult.answer value = DebateTurn.content synthesis ∧
    ConditionResult.conditionId value = DebateConditionInput.conditionId input ∧
    ConditionResult.conditionLabel value = DebateConditionInput.conditionLabel input ∧
    (DebateConditionInput.rounds input ≤ 0 →
     ConditionResult.transcript value = roundTurns agents log 1 ++ [synthesis] ∧
     DebateTurn.round synthesis = 2).
Proof.
  intros agents R.
  assert (Z.max 1 (DebateConditionInput.rounds input) = R) as Hmax.
  { subst R. unfold effectiveRounds. case_decide; lia. }
  split; [done|]. split; [lia|].
  unfold runDebateCondition. rewrite Hmax.
  destruct (run_runDebate_answers MAX_DEBATE_RESPONSE_TOKENS env
              (DebateInput.mk (DebateConditionInput.question input)
                 (DebateConditionInput.agents input) R) tr Henv Hagents)
    as (result & log & moderator & Hrun & _ & Hlen & Htranscript).
  cbn [DebateInput.agents DebateInput.rounds] in Hlen, Htranscript. fold agents in Htranscript, Hlen.
  eexists _, log, _. rewrite run_bind, Hrun. split; [reflexivity|].
  split; [exact Hlen|]. split; [exact Htranscript|]. split; [done|]. split; [done|].
  split; [done|]. split; [done|].
  intros Hle. cbn [ConditionResult.transcript]. rewrite Htranscript.
  assert (R = 1) as -> by (subst R; unfold effectiveRounds; by rewrite decide_True).
  split; [|done]. change (Z.to_nat 1) with 1%nat.
  cbn [seq fmap list_fmap mjoin list_join]. by rewrite app_nil_r.
Qed.

Lemma runDebateCondition_clamps_rounds_witness :
  DebateConditionInput.agents (exampleDebateCondition (-3)) ≠ [] ∧
  alwaysAnswers answeringEnv ∧
  ∃ (value : ConditionResult.t) (log : list LlmInteraction),
    run answeringEnv (runDebateCondition 450 (exampleDebateCondition (-3))) [] = (inl value, log) ∧
    length log = 5%nat ∧
    length (ConditionResult.transcript value) = 5%nat.
Proof.
  assert (DebateConditionInput.agents (exampleDebateCondition (-3)) ≠ []) as H1
    by (simpl; discriminate).
  assert (alwaysAnswers answeringEnv) as H2 by (intros tr ev; eexists; reflexivity).
  destruct (runDebateCondition_clamps_rounds 450 answeringEnv [] (exampleDebateCondition (-3))
              H1 H2) as (_ & _ & value & log & synthesis & Hrun & Hlen & _ & _ & _ & _ & _ & Hone).
  split; [exact H1|]. split; [exact H2|]. exists value, log.
  split; [exact Hrun|]. split; [exact Hlen|].
  destruct Hone as [-> _]; [simpl; lia|].
  rewrite length_app. unfold roundTurns. rewrite length_roundTurnsAt. reflexivity.
Defined.

(** ** Texts and their ends *)

Lemma substring_split (s : string) (k : nat) :
  (k ≤ String.length s)%nat →
  s = String.substring 0 k s +:+ String.substring k (String.length s - k) s.
Proof.
  revert k. induction s as [|c s IH]; intros [|k] Hk; simpl in *; try lia.
  - done.
  - change (String c s = String c (String.substring 0 (String.length s) s)).
    f_equal. clear. induction s as [|c' s IH]; simpl; [done|]. by f_equal.
  - change (String c s =
            String c (String.substring 0 k s +:+ String.substring k (String.length s - k) s)).
    f_equal. apply IH. lia.
Qed.

Lemma endsWith_inv (s suffix : string) :
  endsWith s suffix = true →
  s = slice0 s (String.length s - String.length suffix) +:+ suffix.
Proof.
  unfold endsWith, slice0. intros [Hlen Hsuffix]%andb_true_iff.
  apply Nat.leb_le in Hlen. apply bool_decide_eq_true in Hsuffix.
  rewrite (substring_split s (String.length s - String.length suffix)) at 1 by lia.
  f_equal.
  replace (String.length s - (String.length s - String.length suffix))%nat
    with (String.length suffix) by lia.
  exact Hsuffix.
Qed.

Lemma length_string_app (s1 s2 : string) :
  String.length (s1 +:+ s2) = (String.length s1 + String.length s2)%nat.
Proof. induction s1 as [|c s1 IH]; simpl; [done|]. by rewrite IH. Qed.

Lemma substring_all (s : string) : String.substring 0 (String.length s) s = s.
Proof. induction s as [|c s IH]; simpl; [done|]. by rewrite IH. Qed.

Lemma substring_app_l (s1 s2 : string) :
  String.substring 0 (String.length s1) (s1 +:+ s2) = s1.
Proof.
  induction s1 as [|c s1 IH].
  - change (String.substring 0 0 s2 = EmptyString). by destruct s2.
  - change (String c (String.substring 0 (String.length s1) (s1 +:+ s2)) = String c s1).
    by rewrite IH.
Qed.

Lemma substring_app_r (s1 s2 : string) :
  String.substring (String.length s1) (String.length s2) (s1 +:+ s2) = s2.
Proof.
  induction s1 as [|c s1 IH].
  - change (String.substring 0 (String.length s2) s2 = s2). apply substring_all.
  - exact IH.
Qed.

Lemma endsWith_app (s suffix : string) : endsWith (s +:+ suffix) suffix = true.
Proof.
  unfold endsWith. rewrite length_string_app. apply andb_true_iff. split.
  - apply Nat.leb_le. lia.
  - apply bool_decide_eq_true.
    replace (String.length s + String.length suffix - String.length suffix)%nat
      with (String.length s) by lia.
    apply substring_app_r.
Qed.

Lemma slice0_app (s suffix : string) :
  slice0 (s +:+ suffix) (String.length (s +:+ suffix) - String.length suffix) = s.
Proof.
  unfold slice0. rewrite length_string_app.
  replace (String.length s + String.length suffix - String.length suffix)%nat
    with (String.length s) by lia.
  apply substring_app_l.
Qed.

(** ** The numbers of the retry delays *)

Lemma shr_1_nonneg mrs : 0 ≤ SpecFloat.shr_m mrs → 0 ≤ SpecFloat.shr_m (SpecFloat.shr_1 mrs).
Proof. destruct mrs as [[|[p|p|]|p] r s]; simpl; lia. Qed.

Lemma iter_shr_1_nonneg p mrs :
  0 ≤ SpecFloat.shr_m mrs → 0 ≤ SpecFloat.shr_m (SpecFloat.iter_pos SpecFloat.shr_1 p mrs).
Proof.
  revert mrs. induction p as [p IH|p IH|]; intros mrs Hm; simpl.
  - by apply IH, IH, shr_1_nonneg.
  - by apply IH, IH.
  - by apply shr_1_nonneg.
Qed.

Lemma shr_fexp_nonneg prec emax m e l :
  0 ≤ m → 0 ≤ SpecFloat.shr_m (SpecFloat.shr_fexp prec emax m e l).1.
Proof.
  intros Hm. unfold SpecFloat.shr_fexp, SpecFloat.shr.
  assert (0 ≤ SpecFloat.shr_m (SpecFloat.shr_record_of_loc m l)) as Hrecord
    by (by destruct l as [|[]]).
  destruct (_ - e); simpl; [done| |done]. by apply iter_shr_1_nonneg.
Qed.

(** Rounding a mantissa that is not negative does not give [NaN]. *)
Lemma binary_round_aux_number prec emax sx mx ex lx :
  0 ≤ mx → SpecFloat.binary_round_aux prec emax sx mx ex lx ≠ SpecFloat.S754_nan.
Proof.
  intros Hm. unfold SpecFloat.binary_round_aux.
  pose proof (shr_fexp_nonneg prec emax mx ex lx Hm) as H1.
  destruct (SpecFloat.shr_fexp prec emax mx ex lx) as [mrs' e']. simpl in H1.
  assert (0 ≤ SpecFloat.round_nearest_even (SpecFloat.shr_m mrs')
                (SpecFloat.loc_of_shr_record mrs')) as H2.
  { unfold SpecFloat.round_nearest_even.
    destruct (SpecFloat.loc_of_shr_record mrs') as [|[]]; [done| |done|lia].
    destruct (Z.even _); lia. }
  pose proof (shr_fexp_nonneg prec emax _ e' SpecFloat.loc_Exact H2) as H3.
  destruct (SpecFloat.shr_fexp prec emax _ e' SpecFloat.loc_Exact) as [mrs'' e'']. simpl in H3.
  destruct (SpecFloat.shr_m mrs''); [done| |lia]. by destruct (_ <=? _).
Qed.

(** A number of seconds times 1000 is a number. *)
Lemma double_mul_thousand_number seconds :
  seconds ≠ SpecFloat.S754_nan → double_mul seconds (double_of_Z 1000) ≠ SpecFloat.S754_nan.
Proof.
  intros Hseconds.
  change (double_of_Z 1000) with (SpecFloat.S754_finite false 8796093022208000 (-43)).
  destruct seconds as [s|s| |s m e]; [done|done|done|].
  apply binary_round_aux_number. lia.
Qed.

Lemma Math_ceil_number x : x ≠ SpecFloat.S754_nan → Math_ceil x ≠ NotANumber.
Proof. by destruct x. Qed.

Lemma Math_max_number x y : x ≠ NotANumber → y ≠ NotANumber → Math_max x y ≠ NotANumber.
Proof. by destruct x as [a|[]|], y as [b|[]|]. Qed.

Lemma number_le_Math_max_l x y :
  x ≠ NotANumber → y ≠ NotANumber → number_le x (Math_max x y) = true.
Proof.
  destruct x as [a|[]|], y as [b|[]|]; intros Hx Hy; try done;
    simpl; apply bool_decide_eq_true; lia.
Qed.

Lemma number_le_Math_max_r x y :
  x ≠ NotANumber → y ≠ NotANumber → number_le y (Math_max x y) = true.
Proof.
  destruct x as [a|[]|], y as [b|[]|]; intros Hx Hy; try done;
    simpl; apply bool_decide_eq_true; lia.
Qed.

Lemma Math_max_cases x y : x ≠ NotANumber → Math_max x y = x ∨ Math_max x y = y.
Proof.
  destruct x as [a|[]|], y as [b|[]|]; intros Hx; try done; try (by left); try (by right).
  simpl. destruct (Z.max_spec a b) as [[_ ->]|[_ ->]]; [by right|by left].
Qed.

(** A delay that is not below a positive one is positive. *)
Lemma number_le_positive (spacing : Z) delay :
  0 < spacing → number_le spacing delay = true → number_le delay 0 = false.
Proof.
  intros Hspacing. destruct delay as [z|[]|]; simpl; try done.
  intros Hle%bool_decide_eq_true. apply bool_decide_eq_false. lia.
Qed.

(** ** The Gemini adapter *)

Section GeminiFacts.
Context (GEMINI_REQUEST_SPACING_MS GEMINI_MAX_RETRIES GEMINI_RETRY_BACKOFF_MS : Z).
Context (GEMINI_FALLBACK_MODELS : list string).
Context (JSON_parse : string → option GeminiErrorPayload.t).
Context (trim : string → string).
Context (parseFloat : string → double) (parseInt : string → option Z).
Context (env : Env GeminiEvent GeminiResp).

Lemma run_sleep ms tr : run env (sleep ms) tr = (inl tt, tr ++ timerLog ms).
Proof.
  unfold sleep, timerLog. destruct (number_le ms 0); simpl; [by rewrite app_nil_r|].
  by destruct (env tr (SetTimeout ms)).
Qed.

Lemma run_callGeminiSingle input tr :
  run env (callGeminiSingle JSON_parse input) tr =
  (singleResult JSON_parse (LlmCallInput.model input) (env tr (Fetch input)),
   tr ++ [existT (Fetch input) (env tr (Fetch input))]).
Proof.
  unfold callGeminiSingle. simpl.
  destruct (env tr (Fetch input)) as [status body|[[|c text]|]|reason]; done.
Qed.

Lemma computeRetryDelay_specified error attempt :
  computeRetryDelay GEMINI_REQUEST_SPACING_MS GEMINI_RETRY_BACKOFF_MS trim parseFloat parseInt
    error attempt
  = specifiedRetryDelay GEMINI_REQUEST_SPACING_MS GEMINI_RETRY_BACKOFF_MS
      (extractRetryDelayMs trim parseFloat parseInt error) attempt.
Proof. done. Qed.

Lemma attemptsResult_one model currentError outcome :
  attemptsResult JSON_parse model currentError [outcome] =
  match singleResult JSON_parse model outcome with
  | inl text => inl text
  | inr e => inr (Some e)
  end.
Proof. done. Qed.

Lemma attemptsResult_cons model currentError currentError' outcome outcome' outcomes :
  attemptsResult JSON_parse model currentError (outcome :: outcome' :: outcomes) =
  attemptsResult JSON_parse model currentError' (outcome' :: outcomes).
Proof.
  unfold attemptsResult. rewrite last_cons_cons.
  destruct (last (outcome' :: outcomes)) eqn:Hlast; [done|]. by apply last_None in Hlast.
Qed.

(** The attempts on one model.  Whatever the backend answers, the loop
    does not throw; its interactions are those of [attemptsLog] for the
    outcomes of its requests, of which there are at most [remaining];
    an outcome that is not a retryable failure is the last one, and a
    retryable failure is the last one only when no iteration is left. *)
Lemma run_attemptLoop modelInput remaining attempt currentError tr :
  let model := LlmCallInput.model modelInput in
  ∃ outcomes : list FetchOutcome,
    run env
      (attemptLoop GEMINI_REQUEST_SPACING_MS GEMINI_RETRY_BACKOFF_MS JSON_parse trim parseFloat
         parseInt modelInput remaining attempt currentError) tr
    = (inl (attemptsResult JSON_parse model currentError outcomes),
       tr ++ attemptsLog GEMINI_REQUEST_SPACING_MS GEMINI_RETRY_BACKOFF_MS JSON_parse trim
               parseFloat parseInt modelInput attempt currentError outcomes) ∧
    (length outcomes ≤ remaining)%nat ∧
    (∀ p outcome, outcomes !! p = Some outcome →
       isRetryableGeminiError (failureOf JSON_parse model outcome) = false →
       S p = length outcomes) ∧
    (∀ outcome, last outcomes = Some outcome →
       isRetryableGeminiError (failureOf JSON_parse model outcome) = true →
       length outcomes = remaining) ∧
    (outcomes = [] → remaining = 0%nat).
Proof.
  intros model. subst model. revert attempt currentError tr.
  induction remaining as [|remaining IH]; intros attempt currentError tr.
  - exists []. simpl. rewrite app_nil_r. by split_and!.
  - cbn [attemptLoop]. rewrite run_tryCatch, run_bind, run_sleep, run_bind, run_callGeminiSingle.
    rewrite computeRetryDelay_specified.
    match goal with |- context [timerLog ?ms] => set (delay := ms) end.
    set (outcome := env (tr ++ timerLog delay) (Fetch modelInput)).
    assert (attemptsLog GEMINI_REQUEST_SPACING_MS GEMINI_RETRY_BACKOFF_MS JSON_parse trim
              parseFloat parseInt modelInput attempt currentError [outcome]
            = timerLog delay ++ [existT (Fetch modelInput) outcome]) as Hone by done.
    cbv beta iota zeta.
    destruct (singleResult JSON_parse (LlmCallInput.model modelInput) outcome)
      as [text|e] eqn:Hresult.
    + exists [outcome]. rewrite Hone, app_assoc, attemptsResult_one, Hresult.
      split_and!; [done|simpl; lia| | |done].
      * intros [|p] o; simpl; [done|]. by rewrite lookup_nil.
      * intros o [= <-]. unfold failureOf. by rewrite Hresult.
    + destruct (isRetryableGeminiError (Some e)) eqn:Hretry; simpl negb; cbv iota.
      * destruct (IH (attempt + 1) (Some e) ((tr ++ timerLog delay) ++ [existT (Fetch modelInput) outcome]))
          as (outcomes & Hrun & Hlen & Hstop & Hfull & Hnil).
        exists (outcome :: outcomes). rewrite Hrun. split_and!.
        -- f_equal.
           ++ destruct outcomes as [|o outcomes].
              ** by rewrite attemptsResult_one, Hresult.
              ** f_equal. symmetry. apply attemptsResult_cons.
           ++ cbn [attemptsLog]. fold delay. unfold failureOf. rewrite Hresult.
              by rewrite <-!app_assoc.
        -- simpl. lia.
        -- intros [|p] o; simpl.
           ++ intros [= <-]. unfold failureOf. rewrite Hresult, Hretry. done.
           ++ intros Ho Hno. f_equal. by apply (Hstop p o).
        -- intros o Ho Hyes. simpl. f_equal. destruct outcomes as [|o' outcomes].
           ++ by rewrite Hnil.
           ++ by apply (Hfull o).
        -- done.
      * exists [outcome]. rewrite run_mret, Hone, app_assoc, attemptsResult_one, Hresult.
        split_and!; [done|simpl; lia| | |done].
        -- intros [|p] o; simpl; [done|]. by rewrite lookup_nil.
        -- intros o [= <-]. unfold failureOf. by rewrite Hresult, Hretry.
Qed.

Lemma fetches_app log1 log2 : fetches (log1 ++ log2) = fetches log1 ++ fetches log2.
Proof. unfold fetches. apply omap_app. Qed.

Lemma timers_app log1 log2 : timers (log1 ++ log2) = timers log1 ++ timers log2.
Proof. unfold timers. apply omap_app. Qed.

Lemma fetches_timerLog ms : fetches (timerLog ms) = [].
Proof. unfold timerLog. by destruct (number_le ms 0). Qed.

Lemma timers_timerLog ms : number_le ms 0 = false → timers (timerLog ms) = [ms].
Proof. intros Hms. unfold timerLog. by rewrite Hms. Qed.

(** The retry hint read from an error is a number: the text of its
    seconds is used only when it is not read as [NaN], and then the
    product by 1000 and its ceiling are numbers too. *)
Lemma extractRetryDelayMs_number error :
  extractRetryDelayMs trim parseFloat parseInt error ≠ Some NotANumber.
Proof.
  unfold extractRetryDelayMs. destruct (isGeminiCallError error) as [e|]; [|done].
  cbv zeta. destruct (_ ≫= GeminiErrorDetail.retryDelay) as [[|c text]|]; [done| |done].
  destruct (endsWith _ _); [|by destruct (parseInt _)].
  destruct (Number_isNaN _) eqn:Hnan; simpl negb; cbv iota; [by destruct (parseInt _)|].
  intros [= Hceil]. revert Hceil. apply Math_ceil_number, double_mul_thousand_number.
  intros Hseconds. by rewrite Hseconds in Hnan.
Qed.

Lemma specifiedRetryDelay_number error attempt :
  specifiedRetryDelay GEMINI_REQUEST_SPACING_MS GEMINI_RETRY_BACKOFF_MS
    (extractRetryDelayMs trim parseFloat parseInt error) attempt ≠ NotANumber.
Proof.
  pose proof (extractRetryDelayMs_number error) as Hnumber. unfold specifiedRetryDelay.
  destruct (extractRetryDelayMs trim parseFloat parseInt error) as [hint|]; [|done].
  apply Math_max_number; [congruence|done].
Qed.

Lemma specifiedRetryDelay_spacing error attempt :
  number_le GEMINI_REQUEST_SPACING_MS
    (specifiedRetryDelay GEMINI_REQUEST_SPACING_MS GEMINI_RETRY_BACKOFF_MS
       (extractRetryDelayMs trim parseFloat parseInt error) attempt) = true.
Proof.
  pose proof (extractRetryDelayMs_number error) as Hnumber. unfold specifiedRetryDelay.
  destruct (extractRetryDelayMs trim parseFloat parseInt error) as [hint|].
  - apply number_le_Math_max_r; [congruence|done].
  - simpl. apply bool_decide_eq_true. lia.
Qed.

(** The delay before an attempt is not below the spacing. *)
Lemma attemptDelay_spacing (attempt : Z) error :
  number_le GEMINI_REQUEST_SPACING_MS
    (if decide (attempt = 0) then Integer GEMINI_REQUEST_SPACING_MS
     else specifiedRetryDelay GEMINI_REQUEST_SPACING_MS GEMINI_RETRY_BACKOFF_MS
            (extractRetryDelayMs trim parseFloat parseInt error) attempt) = true.
Proof.
  case_decide; [|apply specifiedRetryDelay_spacing].
  simpl. apply bool_decide_eq_true. lia.
Qed.

(** The requests of the attempts on one model are all for that model. *)
Lemma fetches_attemptsLog modelInput attempt currentError outcomes :
  fetches (attemptsLog GEMINI_REQUEST_SPACING_MS GEMINI_RETRY_BACKOFF_MS JSON_parse trim
             parseFloat parseInt modelInput attempt currentError outcomes)
  = (λ outcome, (LlmCallInput.model modelInput, outcome)) <$> outcomes.
Proof.
  revert attempt currentError. induction outcomes as [|outcome outcomes IH];
    intros attempt currentError; [done|].
  cbn [attemptsLog]. rewrite fetches_app, fetches_timerLog.
  change (fetches (?it :: ?log)) with (fetches [it] ++ fetches log).
  by rewrite IH.
Qed.

(** With a positive spacing every attempt is preceded by a timer, set to
    the delay of [attemptDelays]. *)
Lemma timers_attemptsLog modelInput attempt currentError outcomes :
  0 < GEMINI_REQUEST_SPACING_MS →
  timers (attemptsLog GEMINI_REQUEST_SPACING_MS GEMINI_RETRY_BACKOFF_MS JSON_parse trim
            parseFloat parseInt modelInput attempt currentError outcomes)
  = attemptDelays GEMINI_REQUEST_SPACING_MS GEMINI_RETRY_BACKOFF_MS JSON_parse trim parseFloat
      parseInt (LlmCallInput.model modelInput) attempt currentError outcomes.
Proof.
  intros Hspacing. revert attempt currentError.
  induction outcomes as [|outcome outcomes IH]; intros attempt currentError; [done|].
  cbn [attemptsLog attemptDelays]. rewrite timers_app, timers_timerLog.
  - change (timers (?it :: ?log)) with (timers [it] ++ timers log). by rewrite IH.
  - eapply number_le_positive; [exact Hspacing|apply attemptDelay_spacing].
Qed.

Lemma modelsLog_nil input candidates :
  modelsLog GEMINI_REQUEST_SPACING_MS GEMINI_RETRY_BACKOFF_MS JSON_parse trim parseFloat parseInt
    input candidates [] = [].
Proof. by destruct candidates. Qed.

(** The fallback loop.  It does not throw; its interactions are the
    attempts on the candidates it tried, in order, each counted from
    attempt 0.  It goes past a candidate exactly when the attempts on it
    end in an error of [advancesOn]. *)
Lemma run_modelLoop input candidates lastError preferredError tr :
  let attempts := Z.to_nat (GEMINI_MAX_RETRIES + 1) in
  ∃ (segments : list (list FetchOutcome)) result,
    run env
      (modelLoop GEMINI_REQUEST_SPACING_MS GEMINI_MAX_RETRIES GEMINI_RETRY_BACKOFF_MS JSON_parse
         trim parseFloat parseInt input candidates lastError preferredError) tr
    = (inl result,
       tr ++ modelsLog GEMINI_REQUEST_SPACING_MS GEMINI_RETRY_BACKOFF_MS JSON_parse trim
               parseFloat parseInt input candidates segments) ∧
    (length segments ≤ length candidates)%nat ∧
    (candidates ≠ [] → segments ≠ []) ∧
    ∀ k model outcomes,
      candidates !! k = Some model → segments !! k = Some outcomes →
      (length outcomes ≤ attempts)%nat ∧
      (∀ p outcome, outcomes !! p = Some outcome →
         isRetryableGeminiError (failureOf JSON_parse model outcome) = false →
         S p = length outcomes) ∧
      (∀ outcome, last outcomes = Some outcome →
         isRetryableGeminiError (failureOf JSON_parse model outcome) = true →
         length outcomes = attempts) ∧
      ((S k < length segments)%nat →
       ∃ currentError,
         attemptsResult JSON_parse model None outcomes = inr currentError ∧
         advancesOn currentError = true) ∧
      (S k = length segments → (S k < length candidates)%nat →
       ∀ currentError,
         attemptsResult JSON_parse model None outcomes = inr currentError →
         advancesOn currentError = false) ∧
      (outcomes = [] → attempts = 0%nat).
Proof.
  intros attempts. revert lastError preferredError tr.
  induction candidates as [|model rest IH]; intros lastError preferredError tr.
  - exists [], (inr (lastError, preferredError)). simpl. rewrite app_nil_r.
    by split_and!.
  - destruct (run_attemptLoop (withModel input model) attempts 0 None tr)
      as (outcomes & Hrun & Hlen & Hstop & Hfull & Hnone).
    cbn [LlmCallInput.model withModel] in Hrun, Hstop, Hfull.
    cbn [modelLoop]. cbv zeta.
    change (LlmCallInput.mk (LlmCallInput.provider input) model (LlmCallInput.messages input)
              (LlmCallInput.temperature input) (LlmCallInput.maxTokens input))
      with (withModel input model).
    fold attempts. rewrite run_bind, Hrun.
    destruct (attemptsResult JSON_parse model None outcomes) as [text|currentError] eqn:Hresult.
    + exists [outcomes], (inl text). rewrite run_mret. cbn [modelsLog].
      rewrite modelsLog_nil, app_nil_r. split_and!; [done|simpl; lia|done|].
      intros [|k] model' outcomes'; simpl; [|by rewrite lookup_nil].
      intros [= <-] [= <-].
      split_and!; [done|done|done|intros; lia|intros _ _ ? ?; congruence|done].
    + set (preferredError' :=
             if bool_decide (is_Some currentError) && negb (isModelNotFoundError currentError)
             then currentError else preferredError).
      match goal with
      | |- context [run env ?body _] =>
          assert (body =
                  if advancesOn currentError
                  then modelLoop GEMINI_REQUEST_SPACING_MS GEMINI_MAX_RETRIES
                         GEMINI_RETRY_BACKOFF_MS JSON_parse trim parseFloat parseInt input rest
                         currentError preferredError'
                  else mret (inr (currentError, preferredError'))) as ->
      end.
      { unfold advancesOn. destruct (isModelNotFoundError currentError); [done|].
        by destruct (isQuotaError currentError), (isRetryableGeminiError currentError). }
      destruct (advancesOn currentError) eqn:Hadvance.
      * destruct (IH currentError preferredError'
                    (tr ++ attemptsLog GEMINI_REQUEST_SPACING_MS GEMINI_RETRY_BACKOFF_MS
                             JSON_parse trim parseFloat parseInt (withModel input model) 0 None
                             outcomes))
          as (segments & result & Hrun' & Hlen' & Hsome & Hsegments).
        exists (outcomes :: segments), result. rewrite Hrun'. cbn [modelsLog].
        split_and!; [by rewrite app_assoc|simpl; lia|done|].
        intros [|k] model' outcomes'; simpl.
        -- intros [= <-] [= <-]. split_and!; [done|done|done| | |done].
           ++ intros _. by exists currentError.
           ++ intros Hlast Hmore. exfalso. destruct rest; [simpl in *; lia|].
              destruct segments; [by apply Hsome|]. simpl in *. lia.
        -- intros Hmodel Houtcomes.
           destruct (Hsegments k model' outcomes' Hmodel Houtcomes)
             as (? & ? & ? & Hpast & Hlast & ?).
           split_and!; [done|done|done| | |done].
           ++ intros Hk. apply Hpast. lia.
           ++ intros Hk Hk'. apply Hlast; lia.
      * exists [outcomes], (inr (currentError, preferredError')).
        rewrite run_mret. cbn [modelsLog]. rewrite modelsLog_nil, app_nil_r.
        split_and!; [done|simpl; lia|done|].
        intros [|k] model' outcomes'; simpl; [|by rewrite lookup_nil].
        intros [= <-] [= <-]. split_and!; [done|done|done|intros; lia| |done].
        intros _ _ currentError' Hresult'. congruence.
Qed.

(** A request of the attempts on a candidate is a request of the
    fallback loop, for that candidate. *)
Lemma fetches_modelsLog_lookup input candidates segments (k : nat) model outcomes outcome :
  candidates !! k = Some model → segments !! k = Some outcomes → outcome ∈ outcomes →
  (model, outcome) ∈
    fetches (modelsLog GEMINI_REQUEST_SPACING_MS GEMINI_RETRY_BACKOFF_MS JSON_parse trim
               parseFloat parseInt input candidates segments).
Proof.
  revert segments k.
  induction candidates as [|first rest IH]; intros [|segment segments] k; try done.
  cbn [modelsLog]. rewrite fetches_app, fetches_attemptsLog, elem_of_app.
  destruct k as [|k]; simpl.
  - intros [= <-] [= <-] Hin. left. by apply (list_elem_of_fmap_2 (λ o, (first, o))).
  - intros Hmodel Houtcomes Hin. right. by apply (IH segments k).
Qed.

(** How the retry hint is read from the text that the error carries. *)
Lemma extractRetryDelayMs_read error :
  extractRetryDelayMs trim parseFloat parseInt error =
  match retryDelayOf error with
  | None | Some EmptyString => None
  | Some retryDelayValue =>
      let normalized := trim retryDelayValue in
      let seconds := parseFloat (slice0 normalized (String.length normalized - 1)) in
      if endsWith normalized "s" && negb (Number_isNaN seconds)
      then Some (Math_ceil (double_mul seconds (double_of_Z 1000)))
      else Integer <$> parseInt normalized
  end.
Proof.
  unfold extractRetryDelayMs, retryDelayOf.
  destruct (isGeminiCallError error) as [e|]; [|done]. simpl.
  destruct ((GeminiCallError.bodyJson e ≫= GeminiErrorPayload.error) ≫= GeminiErrorInfo.details)
    as [details|]; simpl; [|done].
  destruct (List.find _ details) as [retryInfo|]; simpl; [|done].
  destruct (GeminiErrorDetail.retryDelay retryInfo) as [[|c text]|]; [done| |done].
  destruct (endsWith _ _); [|done]. simpl. by destruct (Number_isNaN _).
Qed.

End GeminiFacts.

Section GeminiClaims.
Context (GEMINI_REQUEST_SPACING_MS GEMINI_MAX_RETRIES GEMINI_RETRY_BACKOFF_MS : Z).
Context (GEMINI_FALLBACK_MODELS : list string).
Context (JSON_parse : string → option GeminiErrorPayload.t).
Context (trim : string → string).
Context (parseFloat : string → double) (parseInt : string → option Z).
Context (env : Env GeminiEvent GeminiResp).

Lemma attemptDelays_first model currentError outcome outcomes :
  attemptDelays GEMINI_REQUEST_SPACING_MS GEMINI_RETRY_BACKOFF_MS JSON_parse trim parseFloat
    parseInt model 0 currentError (outcome :: outcomes) !! 0%nat
  = Some (Integer GEMINI_REQUEST_SPACING_MS).
Proof. done. Qed.

Lemma attemptDelays_retry model attempt currentError outcomes (p : nat) outcome :
  0 ≤ attempt →
  outcomes !! p = Some outcome →
  (S p < length outcomes)%nat →
  attemptDelays GEMINI_REQUEST_SPACING_MS GEMINI_RETRY_BACKOFF_MS JSON_parse trim parseFloat
    parseInt model attempt currentError outcomes !! S p
  = Some (specifiedRetryDelay GEMINI_REQUEST_SPACING_MS GEMINI_RETRY_BACKOFF_MS
            (extractRetryDelayMs trim parseFloat parseInt (failureOf JSON_parse model outcome))
            (attempt + Z.of_nat (S p))).
Proof.
  revert attempt currentError p.
  induction outcomes as [|first outcomes IH]; intros attempt currentError p Hattempt; [done|].
  destruct p as [|p]; cbn [attemptDelays]; simpl lookup.
  - intros [= <-] Hlen. destruct outcomes as [|second outcomes]; [simpl in Hlen; lia|].
    cbn [attemptDelays]. simpl lookup. rewrite decide_False by lia.
    by replace (attempt + Z.of_nat 1) with (attempt + 1) by lia.
  - intros Hp Hlen. rewrite (IH (attempt + 1) _ p) by (simpl in *; lia || done).
    by replace (attempt + 1 + Z.of_nat (S p)) with (attempt + Z.of_nat (S (S p))) by lia.
Qed.

(** C6.  The delay computed for a retry is the larger of the server's
    retry hint in milliseconds and the minimum spacing when the error
    carries a hint the adapter can read, and else the base backoff times
    [2 ^ (a - 1)], not below the minimum spacing.  The hint is read from
    the [retryDelay] text of the first [RetryInfo] detail of the error:
    a text that ends with ["s"] after a number of seconds is that number
    times 1000, as binary64 values, rounded up to an integer (5 seconds
    are 5000 ms); any other text is the integer that [parseInt] finds
    in it, if any; an error without such a text carries no hint.  In the
    attempts on one model this delay, computed from the failure of the
    attempt before, is the timer set before attempt [a >= 1]; the first
    attempt waits the spacing.  A response that is not ok is retried
    exactly when its status is 429 or at least 500; there is a first
    attempt when the maximum is not negative and there are never more
    than [GEMINI_MAX_RETRIES + 1] attempts, an outcome that is not a
    retryable failure ends the attempts at once, and a retryable failure
    ends them only when the retries are used up. *)
Theorem retry_policy (modelInput : LlmCallInput.t) (tr : list GeminiInteraction) :
  let model := LlmCallInput.model modelInput in
  let attempts := Z.to_nat (GEMINI_MAX_RETRIES + 1) in
  let retryHintMs := extractRetryDelayMs trim parseFloat parseInt in
  let delay :=
    computeRetryDelay GEMINI_REQUEST_SPACING_MS GEMINI_RETRY_BACKOFF_MS trim parseFloat parseInt in
  (∀ error a,
     delay error a
     = match retryHintMs error with
       | Some hint => Math_max hint GEMINI_REQUEST_SPACING_MS
       | None =>
           Integer (Z.max (GEMINI_RETRY_BACKOFF_MS * 2 ^ (a - 1)) GEMINI_REQUEST_SPACING_MS)
       end) ∧
  (∀ error a hint, retryHintMs error = Some hint →
     number_le hint (delay error a) = true ∧
     number_le GEMINI_REQUEST_SPACING_MS (delay error a) = true ∧
     (delay error a = hint ∨ delay error a = Integer GEMINI_REQUEST_SPACING_MS)) ∧
  (∀ error,
     retryDelayOf error = None ∨ retryDelayOf error = Some EmptyString →
     retryHintMs error = None) ∧
  (∀ error text seconds,
     retryDelayOf error = Some text → text ≠ EmptyString →
     trim text = seconds +:+ "s" → Number_isNaN (parseFloat seconds) = false →
     retryHintMs error
     = Some (Math_ceil (double_mul (parseFloat seconds) (double_of_Z 1000)))) ∧
  (∀ error text,
     retryDelayOf error = Some text → text ≠ EmptyString →
     (∀ seconds, trim text = seconds +:+ "s" → Number_isNaN (parseFloat seconds) = true) →
     retryHintMs error = Integer <$> parseInt (trim text)) ∧
  (∀ error text seconds a,
     retryDelayOf error = Some text → text ≠ EmptyString →
     trim text = seconds +:+ "s" → parseFloat seconds = double_of_Z 5 →
     retryHintMs error = Some (Integer 5000) ∧
     delay error a = Integer (Z.max 5000 GEMINI_REQUEST_SPACING_MS)) ∧
  (∀ status body,
     isRetryableGeminiError (failureOf JSON_parse model (ResponseNotOk status body)) = true
     ↔ status = 429 ∨ 500 ≤ status) ∧
  ∃ outcomes : list FetchOutcome,
    let log :=
      attemptsLog GEMINI_REQUEST_SPACING_MS GEMINI_RETRY_BACKOFF_MS JSON_parse trim parseFloat
        parseInt modelInput 0 None outcomes in
    run env
      (attemptLoop GEMINI_REQUEST_SPACING_MS GEMINI_RETRY_BACKOFF_MS JSON_parse trim parseFloat
         parseInt modelInput attempts 0 None) tr
    = (inl (attemptsResult JSON_parse model None outcomes), tr ++ log) ∧
    fetches log = (λ outcome, (model, outcome)) <$> outcomes ∧
    (length outcomes ≤ attempts)%nat ∧
    (0 ≤ GEMINI_MAX_RETRIES → outcomes ≠ []) ∧
    (∀ (p : nat) outcome, outcomes !! p = Some outcome →
       isRetryableGeminiError (failureOf JSON_parse model outcome) = false →
       S p = length outcomes) ∧
    (∀ outcome, last outcomes = Some outcome →
       isRetryableGeminiError (failureOf JSON_parse model outcome) = true →
       length outcomes = attempts) ∧
    (0 < GEMINI_REQUEST_SPACING_MS →
     length (timers log) = length outcomes ∧
     (outcomes ≠ [] → timers log !! 0%nat = Some (Integer GEMINI_REQUEST_SPACING_MS)) ∧
     ∀ (p : nat) outcome, outcomes !! p = Some outcome → (S p < length outcomes)%nat →
       timers log !! S p
       = Some (match retryHintMs (failureOf JSON_parse model outcome) with
               | Some hint => Math_max hint GEMINI_REQUEST_SPACING_MS
               | None =>
                   Integer (Z.max (GEMINI_RETRY_BACKOFF_MS * 2 ^ (Z.of_nat (S p) - 1))
                              GEMINI_REQUEST_SPACING_MS)
               end)).
Proof.
  intros model attempts retryHintMs delay.
  assert (∀ error text seconds,
            retryDelayOf error = Some text → text ≠ EmptyString →
            trim text = seconds +:+ "s" → Number_isNaN (parseFloat seconds) = false →
            retryHintMs error
            = Some (Math_ceil (double_mul (parseFloat seconds) (double_of_Z 1000)))) as Hseconds.
  { intros error text seconds Htext Hnonempty Htrim Hnumber. unfold retryHintMs.
    rewrite extractRetryDelayMs_read, Htext. destruct text as [|c text]; [done|].
    cbv zeta. rewrite Htrim, endsWith_app.
    change 1%nat with (String.length "s"). by rewrite slice0_app, Hnumber. }
  split_and!.
  - done.
  - intros error a hint Hhint. unfold delay, computeRetryDelay. fold retryHintMs.
    rewrite Hhint.
    assert (hint ≠ NotANumber) as Hnumber.
    { intros ->. by apply (extractRetryDelayMs_number trim parseFloat parseInt error). }
    split_and!.
    + by apply number_le_Math_max_l.
    + by apply number_le_Math_max_r.
    + by apply Math_max_cases.
  - intros error Hnone. unfold retryHintMs. rewrite extractRetryDelayMs_read.
    by destruct Hnone as [-> | ->].
  - exact Hseconds.
  - intros error text Htext Hnonempty Hnan. unfold retryHintMs.
    rewrite extractRetryDelayMs_read, Htext. destruct text as [|c text]; [done|].
    cbv zeta. destruct (endsWith _ _) eqn:Hends; [|done].
    apply endsWith_inv in Hends. change (String.length "s") with 1%nat in Hends.
    by rewrite (Hnan _ Hends).
  - intros error text seconds a Htext Hnonempty Htrim Hfive.
    assert (retryHintMs error = Some (Integer 5000)) as Hhint.
    { rewrite (Hseconds error text seconds) by (by rewrite ?Hfive). by rewrite Hfive. }
    split; [done|]. unfold delay, computeRetryDelay. fold retryHintMs. by rewrite Hhint.
  - intros status body. unfold failureOf, singleResult, isRetryableGeminiError. simpl.
    rewrite orb_true_iff, !bool_decide_eq_true. done.
  - destruct (run_attemptLoop GEMINI_REQUEST_SPACING_MS GEMINI_RETRY_BACKOFF_MS JSON_parse trim
                parseFloat parseInt env modelInput attempts 0 None tr)
      as (outcomes & Hrun & Hlen & Hstop & Hfull & Hnone).
    exists outcomes. cbv zeta. split_and!; [done| |done| |done|done|].
    + apply fetches_attemptsLog.
    + intros Hmax Houtcomes. specialize (Hnone Houtcomes). unfold attempts in Hnone. lia.
    + intros Hspacing. rewrite timers_attemptsLog by done. split_and!.
      * clear. generalize 0 at 1. generalize (@None Thrown).
        induction outcomes as [|outcome outcomes IH]; intros currentError attempt; [done|].
        cbn [attemptDelays]. simpl. by rewrite IH.
      * destruct outcomes; [done|]. intros _. apply attemptDelays_first.
      * intros p outcome Hp Hlt.
        rewrite (attemptDelays_retry (LlmCallInput.model modelInput) 0 None outcomes p outcome)
          by done.
        by rewrite Z.add_0_l.
Qed.

Lemma advancesOn_GeminiError (e : GeminiCallError.t) :
  advancesOn (Some (GeminiError e)) = true ↔
  GeminiCallError.status e = 404 ∨ GeminiCallError.status e = 429 ∨
  500 ≤ GeminiCallError.status e ∨
  (GeminiCallError.bodyJson e ≫= GeminiErrorPayload.error) ≫= GeminiErrorInfo.status
    = Some "RESOURCE_EXHAUSTED".
Proof.
  unfold advancesOn, isModelNotFoundError, isQuotaError, isRetryableGeminiError. simpl.
  rewrite !orb_true_iff, !bool_decide_eq_true. tauto.
Qed.

(** C5, as the code has it.  The interactions of the adapter are the
    attempts on the candidates it tried, in the order of the candidate
    list, each candidate's attempts counted anew from attempt 0.  The
    adapter goes on from a candidate to the next one exactly when the
    attempts on it end in a failure that is model-not-found (404), a
    quota failure (status 429 or an error payload with status
    RESOURCE_EXHAUSTED) or a retryable failure (429 or at least 500):
    after such a failure it makes at least one request for the next
    candidate, if there is one.  A 404 is not retried, so it ends the
    candidate's attempts at once; a 429 or a status of at least 500 is
    retried on the same candidate and is left behind only after
    [GEMINI_MAX_RETRIES + 1] attempts.  After any other failure no
    further candidate is tried. *)
Theorem fallback_advances (input : LlmCallInput.t) (tr : list GeminiInteraction) :
  let candidates := uniqueValues (LlmCallInput.model input :: GEMINI_FALLBACK_MODELS) in
  let attempts := Z.to_nat (GEMINI_MAX_RETRIES + 1) in
  (∀ e : GeminiCallError.t,
     (advancesOn (Some (GeminiError e)) = true ↔
      GeminiCallError.status e = 404 ∨ GeminiCallError.status e = 429 ∨
      500 ≤ GeminiCallError.status e ∨
      (GeminiCallError.bodyJson e ≫= GeminiErrorPayload.error) ≫= GeminiErrorInfo.status
        = Some "RESOURCE_EXHAUSTED") ∧
     (isRetryableGeminiError (Some (GeminiError e)) = true ↔
      GeminiCallError.status e = 429 ∨ 500 ≤ GeminiCallError.status e)) ∧
  (∀ message, advancesOn (Some (JsError message)) = false) ∧
  advancesOn None = false ∧
  ∃ segments : list (list FetchOutcome),
    let log :=
      modelsLog GEMINI_REQUEST_SPACING_MS GEMINI_RETRY_BACKOFF_MS JSON_parse trim
        parseFloat parseInt input candidates segments in
    (run env
       (callGeminiWithFallbackAndRetries GEMINI_REQUEST_SPACING_MS GEMINI_MAX_RETRIES
          GEMINI_RETRY_BACKOFF_MS GEMINI_FALLBACK_MODELS JSON_parse trim parseFloat parseInt
          input) tr).2
    = tr ++ log ∧
    (length segments ≤ length candidates)%nat ∧
    ∀ (k : nat) (model : string) (outcomes : list FetchOutcome),
      candidates !! k = Some model → segments !! k = Some outcomes →
      (length outcomes ≤ attempts)%nat ∧
      (0 ≤ GEMINI_MAX_RETRIES → outcomes ≠ []) ∧
      (∀ outcome, outcome ∈ outcomes → (model, outcome) ∈ fetches log) ∧
      (∀ (p : nat) outcome, outcomes !! p = Some outcome →
         isRetryableGeminiError (failureOf JSON_parse model outcome) = false →
         S p = length outcomes) ∧
      (∀ outcome, last outcomes = Some outcome →
         isRetryableGeminiError (failureOf JSON_parse model outcome) = true →
         length outcomes = attempts) ∧
      ((S k < length segments)%nat →
       ∃ currentError,
         attemptsResult JSON_parse model None outcomes = inr currentError ∧
         advancesOn currentError = true) ∧
      (S k = length segments → (S k < length candidates)%nat →
       ∀ currentError,
         attemptsResult JSON_parse model None outcomes = inr currentError →
         advancesOn currentError = false) ∧
      (∀ currentError next,
         attemptsResult JSON_parse model None outcomes = inr currentError →
         advancesOn currentError = true →
         candidates !! S k = Some next →
         ∃ outcome' outcomes',
           segments !! S k = Some (outcome' :: outcomes') ∧
           (next, outcome') ∈ fetches log).
Proof.
  intros candidates attempts. split_and!.
  - intros e. split; [apply advancesOn_GeminiError|].
    unfold isRetryableGeminiError. simpl. by rewrite orb_true_iff, !bool_decide_eq_true.
  - done.
  - done.
  - unfold callGeminiWithFallbackAndRetries. fold candidates. rewrite run_bind.
    destruct (run_modelLoop GEMINI_REQUEST_SPACING_MS GEMINI_MAX_RETRIES GEMINI_RETRY_BACKOFF_MS
                JSON_parse trim parseFloat parseInt env input candidates None None tr)
      as (segments & result & Hrun & Hlen & _ & Hsegments).
    exists segments. cbv zeta. rewrite Hrun. split_and!; [|done|].
    { destruct result as [text|[lastError preferredError]]; [done|].
      destruct (isModelNotFoundError _); [done|].
      by destruct preferredError as [[]|]; [..|destruct lastError as [[]|]]. }
    intros k model outcomes Hmodel Houtcomes.
    destruct (Hsegments k model outcomes Hmodel Houtcomes)
      as (Hbound & Hstop & Hfull & Hpast & Hlast & Hnone).
    split_and!; [done| | |done|done|done|done|].
    + intros Hmax Hnil. specialize (Hnone Hnil). unfold attempts in Hnone. lia.
    + intros outcome Hin. by eapply fetches_modelsLog_lookup.
    + intros currentError next Hresult Hadvance Hnext.
      assert (S k < length segments)%nat as Hmore.
      { destruct (decide (S k < length segments)%nat) as [|Hno]; [done|]. exfalso.
        assert (S k = length segments) as Hk.
        { apply lookup_lt_Some in Houtcomes. lia. }
        apply lookup_lt_Some in Hnext.
        specialize (Hlast Hk Hnext currentError Hresult). congruence. }
      destruct (lookup_lt_is_Some_2 segments (S k) Hmore) as [outcomes' Houtcomes'].
      destruct (Hsegments (S k) next outcomes' Hnext Houtcomes')
        as (_ & _ & _ & _ & _ & Hnone').
      destruct outcomes' as [|outcome' outcomes'].
      { exfalso. specialize (Hnone' eq_refl).
        assert (outcomes ≠ []) as Hsome.
        { intros ->. unfold attemptsResult in Hresult. simpl in Hresult.
          injection Hresult as <-. done. }
        destruct outcomes; [done|]. simpl in Hbound. lia. }
      exists outcome', outcomes'. split; [done|].
      eapply fetches_modelsLog_lookup; [exact Hnext|exact Houtcomes'|apply list_elem_of_here].
Qed.

End GeminiClaims.

(** With the default configuration the adapter, after three answers of
    status 429 for the first candidate, requests the second candidate:
    a 429 failure does make it advance. *)
Lemma quota_failure_advances : ¬ neverAdvancesAfter429 (fetches exampleAdapterRun.2).
Proof.
  intros Hnever.
  specialize (Hnever 2%nat "gemini-2.5-flash" "quota exceeded" "gemini-flash-latest"
                (ResponseOk (Some "Answer: 42"))).
  assert ("gemini-flash-latest" = "gemini-2.5-flash") as Heq.
  { apply Hnever; vm_compute; reflexivity. }
  discriminate Heq.
Qed.

Lemma fallback_advances_witness :
  ∃ segments : list (list FetchOutcome),
    exampleAdapterRun.2
    = modelsLog 2500 3000 (λ _, None) (λ s, s) (λ _, SpecFloat.S754_nan) (λ _, None)
        exampleGeminiInput ["gemini-2.5-flash"; "gemini-flash-latest"] segments ∧
    (length segments ≤ 2)%nat ∧
    ∃ outcome' outcomes',
      segments !! 1%nat = Some (outcome' :: outcomes') ∧
      ("gemini-flash-latest", outcome') ∈ fetches exampleAdapterRun.2.
Proof.
  destruct (fallback_advances 2500 2 3000 ["gemini-flash-latest"] (λ _, None) (λ s, s)
              (λ _, SpecFloat.S754_nan) (λ _, None) quotaEnv exampleGeminiInput [])
    as (_ & _ & _ & segments & Hlog & Hlen & Hsegments).
  exists segments. split; [exact Hlog|]. split; [exact Hlen|].
  assert (exampleAdapterRun.2
          = modelsLog 2500 3000 (λ _, None) (λ s, s) (λ _, SpecFloat.S754_nan) (λ _, None)
              exampleGeminiInput ["gemini-2.5-flash"; "gemini-flash-latest"] segments) as Hlog'
    by exact Hlog.
  change (uniqueValues (LlmCallInput.model exampleGeminiInput :: ["gemini-flash-latest"]))
    with ["gemini-2.5-flash"; "gemini-flash-latest"] in Hsegments.
  rewrite <-Hlog' in Hsegments. clear Hlog.
  destruct segments as [|outcomes segments]; [vm_compute in Hlog'; discriminate Hlog'|].
  destruct (Hsegments 0%nat "gemini-2.5-flash" outcomes eq_refl eq_refl)
    as (Hbound & _ & _ & _ & _ & _ & _ & Hnext).
  assert (outcomes = replicate 3 (ResponseNotOk 429 "quota exceeded")) as ->.
  { assert (fetches exampleAdapterRun.2
            = [("gemini-2.5-flash", ResponseNotOk 429 "quota exceeded");
               ("gemini-2.5-flash", ResponseNotOk 429 "quota exceeded");
               ("gemini-2.5-flash", ResponseNotOk 429 "quota exceeded");
               ("gemini-flash-latest", ResponseOk (Some "Answer: 42"))]) as Hfetches
      by (vm_compute; reflexivity).
    rewrite Hlog' in Hfetches. clear Hlog' Hsegments Hnext Hlen. cbn [modelsLog] in Hfetches.
    rewrite fetches_app, fetches_attemptsLog in Hfetches.
    cbn [LlmCallInput.model withModel] in Hfetches.
    change (Z.to_nat (2 + 1)) with 3%nat in Hbound.
    destruct segments as [|s1 segments]; cbn [modelsLog] in Hfetches;
      [|rewrite fetches_app, fetches_attemptsLog in Hfetches; destruct s1 as [|? [|? ?]]];
      destruct outcomes as [|o1 [|o2 [|o3 [|o4 outcomes]]]];
      simpl in Hbound, Hfetches; try lia; by simplify_eq. }
  exact (Hnext (Some (GeminiError
                        (createGeminiError (λ _, None) 429 "quota exceeded" "gemini-2.5-flash")))
           "gemini-flash-latest" eq_refl eq_refl eq_refl).
Defined.

(** With the default configuration and a backend that is over quota
    twice, asking to wait 5 seconds and then 4.001 seconds, the timers
    before the three attempts are the spacing, 5000 ms and 4002 ms: the
    binary64 product of 4.001 and 1000 is above 4001. *)
Lemma retry_policy_witness :
  ∃ outcomes : list FetchOutcome,
    outcomes = [ResponseNotOk 429 (retryInfoBody "5s");
                ResponseNotOk 429 (retryInfoBody "4.001s");
                ResponseOk (Some "Answer: 42")] ∧
    timers (attemptsLog 2500 3000 exampleJsonParse exampleTrim exampleParseFloat exampleParseInt
              exampleGeminiInput 0 None outcomes)
    = [Integer 2500; Integer 5000; Integer 4002] ∧
    extractRetryDelayMs exampleTrim exampleParseFloat exampleParseInt
      (failureOf exampleJsonParse "gemini-2.5-flash" (ResponseNotOk 429 (retryInfoBody "5s")))
    = Some (Integer 5000).
Proof.
  destruct (retry_policy 2500 2 3000 exampleJsonParse exampleTrim exampleParseFloat
              exampleParseInt retryHintEnv exampleGeminiInput [])
    as (_ & _ & _ & _ & _ & Hfive & _ & outcomes & Hrun & Hfetches & Hlen & _ & _ & _ & Htimers).
  exists outcomes.
  assert (outcomes = [ResponseNotOk 429 (retryInfoBody "5s");
                      ResponseNotOk 429 (retryInfoBody "4.001s");
                      ResponseOk (Some "Answer: 42")]) as ->.
  { pose proof (f_equal (λ result, fetches result.2) Hrun) as Hlog. cbv beta in Hlog.
    cbn [snd app] in Hlog. rewrite Hfetches in Hlog. clear Hrun Hfetches Htimers Hfive.
    vm_compute in Hlog.
    destruct outcomes as [|o1 [|o2 [|o3 [|o4 outcomes]]]]; try discriminate Hlog.
    injection Hlog as <- <- <-. vm_compute. reflexivity. }
  split; [reflexivity|]. split.
  - destruct Htimers as (Hlength & Hfirst & Hretry); [lia|].
    specialize (Hfirst ltac:(discriminate)).
    pose proof (Hretry 0%nat _ eq_refl ltac:(simpl; lia)) as Hsecond.
    pose proof (Hretry 1%nat _ eq_refl ltac:(simpl; lia)) as Hthird.
    clear Hretry Hrun Hfetches Hfive.
    remember (timers _) as delays eqn:Hdelays. clear Hdelays.
    vm_compute in Hsecond, Hthird, Hfirst, Hlength.
    destruct delays as [|t0 [|t1 [|t2 [|t3 delays]]]]; try discriminate Hlength.
    by injection Hfirst as ->; injection Hsecond as ->; injection Hthird as ->.
  - apply (Hfive (failureOf exampleJsonParse "gemini-2.5-flash"
                    (ResponseNotOk 429 (retryInfoBody "5s"))) "5s" "5" 1);
      [vm_compute; reflexivity|discriminate|vm_compute; reflexivity|vm_compute; reflexivity].
Defined.

(** ** The queue of Gemini calls *)

Section GeminiQueueFacts.

Local Open Scope nat_scope.

Lemma lookup_tabulate {A} (f : nat → A) n i :
  tabulate f n !! i = if decide (i < n) then Some (f i) else None.
Proof.
  unfold tabulate. rewrite list_lookup_fmap.
  case_decide.
  - by rewrite lookup_seq_lt.
  - by rewrite lookup_seq_ge by lia.
Qed.

Lemma length_tabulate {A} (f : nat → A) n : length (tabulate f n) = n.
Proof. unfold tabulate. by rewrite length_fmap, length_seq. Qed.

Lemma tabulate_ext {A} (f g : nat → A) n :
  (∀ i, i < n → f i = g i) → tabulate f n = tabulate g n.
Proof.
  intros H. apply list_eq. intros i. rewrite !lookup_tabulate.
  case_decide; [by rewrite H|done].
Qed.

Lemma tabulate_snoc {A} (f : nat → A) n : tabulate f n ++ [f n] = tabulate f (S n).
Proof. unfold tabulate. by rewrite seq_S, fmap_app. Qed.

Lemma insert_tabulate {A} (f : nat → A) n i x :
  <[i := x]> (tabulate f n) = tabulate (λ j, if decide (j = i) then x else f j) n.
Proof.
  apply list_eq. intros j.
  destruct (decide (j = i)) as [->|Hne].
  - rewrite lookup_tabulate. case_decide.
    + rewrite list_lookup_insert_eq by (by rewrite length_tabulate).
      by rewrite decide_True.
    + by rewrite lookup_ge_None_2 by (rewrite length_insert, length_tabulate; lia).
  - rewrite list_lookup_insert_ne by done. rewrite !lookup_tabulate.
    case_decide; [by rewrite decide_False|done].
Qed.

#[local] Ltac Zify.zify_post_hook ::= Z.to_euclidean_division_equations.

Lemma viewStep_ok ev v v' : viewOk v → viewStep ev v = Some v' → viewOk v'.
Proof.
  unfold viewOk, viewStep. intros Hok Hstep.
  destruct ev, v as [fin [| |s0] n]; simpl in *; repeat case_decide; simplify_eq; simpl;
    rewrite ?length_app; simpl; lia.
Qed.

Lemma tabulate_snoc_other {A} (f : nat → A) n x :
  tabulate f n ++ [x] = tabulate (λ j, if decide (j = n) then x else f j) (S n).
Proof.
  rewrite <-tabulate_snoc, decide_True by done. f_equal.
  apply tabulate_ext. intros i Hi. by rewrite decide_False by lia.
Qed.

Lemma tabulate_eq {A} (f g : nat → A) n m :
  n = m → (∀ i, i < n → f i = g i) → tabulate f n = tabulate g m.
Proof. intros <-. apply tabulate_ext. Qed.

Lemma promiseThen_tabulate f n p cb js q ts :
  p < n →
  promiseThen p cb (mkRuntime (tabulate f n) js q ts) =
  (n, match f p with
      | Pending reactions =>
          mkRuntime
            (tabulate (λ j, if decide (j = n) then Pending []
                            else if decide (j = p) then Pending (reactions ++ [mkReaction cb n])
                            else f j) (S n))
            js q ts
      | Settled _ =>
          mkRuntime (tabulate (λ j, if decide (j = n) then Pending [] else f j) (S n))
            (js ++ [mkReaction cb n]) q ts
      end).
Proof.
  intros Hp. unfold promiseThen. cbn [promises jobs geminiQueue tasks].
  rewrite length_tabulate, lookup_tabulate, decide_True by done.
  destruct (f p); f_equal.
  - by rewrite insert_tabulate, tabulate_snoc_other.
  - by rewrite tabulate_snoc_other.
Qed.

Lemma settlePromise_tabulate f n p s js q ts :
  settlePromise p s (mkRuntime (tabulate f n) js q ts) =
  match (if decide (p < n) then Some (f p) else None) with
  | Some (Pending reactions) =>
      mkRuntime (tabulate (λ j, if decide (j = p) then Settled s else f j) n)
        (js ++ reactions) q ts
  | _ => mkRuntime (tabulate f n) js q ts
  end.
Proof.
  unfold settlePromise. cbn [promises jobs geminiQueue tasks].
  rewrite lookup_tabulate. case_decide; [|done].
  destruct (f p); [|done]. by rewrite insert_tabulate.
Qed.


Lemma promiseOf_0 v : promiseOf v 0 = Settled Fulfilled.
Proof. done. Qed.

Lemma promiseOf_run v t : promiseOf v (2 * t + 1) = runOf v t.
Proof.
  unfold promiseOf. rewrite decide_False, decide_True by lia. f_equal. lia.
Qed.

Lemma promiseOf_queue v t : promiseOf v (2 * t + 2) = queueOf v t.
Proof.
  unfold promiseOf. rewrite decide_False, decide_False by lia. f_equal. lia.
Qed.

Lemma index_shape i : i = 0 ∨ ∃ t, i = 2 * t + 1 ∨ i = 2 * t + 2.
Proof.
  destruct (decide (i = 0)) as [|Hi]; [by left|right].
  exists ((i - 1) / 2). lia.
Qed.

Lemma promiseOf_geminiQueue v :
  viewOk v →
  promiseOf v (2 * count v) =
  if decide (length (finished v) < count v) then Pending [] else Settled Fulfilled.
Proof.
  unfold viewOk. intros Hok. destruct (count v) as [|m] eqn:Hn.
  - rewrite decide_False by lia. done.
  - replace (2 * S m) with (2 * m + 2) by lia. rewrite promiseOf_queue.
    unfold queueOf. rewrite Hn.
    rewrite (decide_False (P := m + 1 < S m)) by lia.
    destruct (phase v); repeat case_decide; try done; lia.
Qed.

Ltac by_index i :=
  destruct (index_shape i) as [->|[? [->| ->]]];
  rewrite ?promiseOf_0, ?promiseOf_run, ?promiseOf_queue.

Ltac view_cases :=
  unfold runOf, queueOf, taskOf, jobsOf;
  cbn [finished phase count];
  repeat first [progress simplify_eq | case_decide | case_match];
  rewrite ?length_app in *; cbn [length] in *;
  try lia; try done.


Lemma lookup_total_snoc (l : list Settlement) s : (l ++ [s]) !!! length l = s.
Proof. by apply list_lookup_total_correct, list_lookup_middle. Qed.

Ltac view_solve :=
  rewrite ?length_tabulate; view_cases; cbn [app];
  rewrite ?lookup_total_snoc, ?lookup_total_app_l by lia;
  repeat first [lia | done | f_equal].

Lemma mkRuntime_eq p p' j j' q q' t t' :
  p = p' → j = j' → q = q' → t = t' → mkRuntime p j q t = mkRuntime p' j' q' t'.
Proof. by intros -> -> -> ->. Qed.

Lemma queueStep_Call v :
  viewOk v → (callGemini (runtimeOf v)).2 = runtimeOf (mkQueueView (finished v) (phase v) (S (count v))).
Proof.
  intros Hok. pose proof (promiseOf_geminiQueue v Hok) as Hq.
  destruct v as [fin ph n]. unfold viewOk in Hok. cbn [finished phase count] in *.
  unfold callGemini, enqueueGeminiWork, runtimeOf. cbn [promises jobs geminiQueue tasks finished phase count].
  rewrite promiseThen_tabulate by lia.
  set (v := mkQueueView fin ph n) in *. rewrite Hq. clear Hq.
  case_decide.
  - rewrite promiseThen_tabulate by lia.
    rewrite decide_True by done. cbn [snd promises jobs geminiQueue tasks app].
    subst v. apply mkRuntime_eq.
    + apply tabulate_eq; [lia|]. intros i Hi. by_index i; view_solve.
    + view_solve.
    + lia.
    + rewrite tabulate_snoc_other. apply tabulate_ext. intros i Hi. view_solve.
  - rewrite promiseThen_tabulate by lia.
    rewrite decide_True by done. cbn [snd promises jobs geminiQueue tasks app].
    subst v. apply mkRuntime_eq.
    + apply tabulate_eq; [lia|]. intros i Hi. by_index i; view_solve.
    + view_solve.
    + lia.
    + rewrite tabulate_snoc_other. apply tabulate_ext. intros i Hi. view_solve.
Qed.

Lemma queueStep_Job v :
  viewOk v → runJob (runtimeOf v) = runtimeOf <$> viewStep Job v.
Proof.
  intros Hok. destruct v as [fin ph n]. unfold viewOk in Hok. cbn [finished phase count] in *.
  unfold runJob, runtimeOf, viewStep. cbn [promises jobs geminiQueue tasks finished phase count].
  destruct ph as [| |s].
  - unfold jobsOf at 1. cbn [finished phase count]. case_decide; [|done].
    cbn [callback derived promises jobs geminiQueue tasks fmap option_fmap option_map]. f_equal.
    unfold runtimeOf. cbn [finished phase count]. apply mkRuntime_eq.
    + apply tabulate_ext. intros i Hi. by_index i; view_solve.
    + view_solve.
    + done.
    + rewrite insert_tabulate. apply tabulate_ext. intros i Hi. view_solve.
  - done.
  - unfold jobsOf at 1. cbn [finished phase count].
    cbn [callback derived promises jobs geminiQueue tasks fmap option_fmap option_map]. f_equal.
    rewrite settlePromise_tabulate, decide_True by lia.
    rewrite promiseOf_queue. unfold queueOf at 1. cbn [finished phase count].
    rewrite decide_False by lia.
    unfold runtimeOf. cbn [finished phase count app]. apply mkRuntime_eq.
    + apply tabulate_ext. intros i Hi. by_index i; view_solve.
    + view_solve.
    + done.
    + apply tabulate_ext. intros i Hi. view_solve.
Qed.

Lemma queueStep_Finish v t s :
  viewOk v → finishTask t s (runtimeOf v) = runtimeOf <$> viewStep (Finish t s) v.
Proof.
  intros Hok. destruct v as [fin ph n]. unfold viewOk in Hok. cbn [finished phase count] in *.
  unfold finishTask, runtimeOf, viewStep. cbn [promises jobs geminiQueue tasks finished phase count].
  rewrite lookup_tabulate.
  destruct ph as [| |s'].
  - view_cases.
  - case_decide as Ht; [|by rewrite decide_False by lia].
    unfold taskOf at 1. cbn [finished phase count].
    destruct (decide (t = length fin)) as [->|Hne].
    + rewrite decide_False by lia.
      cbn [fmap option_fmap option_map]. f_equal.
      rewrite settlePromise_tabulate, decide_True by lia.
      rewrite promiseOf_run. unfold runOf at 1. cbn [finished phase count].
      rewrite decide_False by lia.
      unfold runtimeOf. cbn [finished phase count app]. apply mkRuntime_eq.
      * apply tabulate_ext. intros i Hi. by_index i; view_solve.
      * view_solve.
      * done.
      * rewrite insert_tabulate. apply tabulate_ext. intros i Hi. view_solve.
    + view_cases.
  - view_cases.
Qed.

Lemma queueStep_runtimeOf ev v :
  viewOk v → queueStep ev (runtimeOf v) = runtimeOf <$> viewStep ev v.
Proof.
  intros Hok. destruct ev as [| |t s].
  - cbn [queueStep]. rewrite queueStep_Call by done. by destruct v as [? [] ?].
  - by apply queueStep_Job.
  - by apply queueStep_Finish.
Qed.

Lemma reachable_view rt : reachable rt → ∃ v, viewOk v ∧ rt = runtimeOf v.
Proof.
  induction 1 as [|rt ev rt' _ (v & Hok & ->) Hstep].
  - exists (mkQueueView [] Starting 0). split; [unfold viewOk; simpl; lia|done].
  - rewrite queueStep_runtimeOf in Hstep by done.
    destruct (viewStep ev v) as [v'|] eqn:Hv; [|done].
    exists v'. split; [by eapply viewStep_ok|]. by simplify_eq/=.
Qed.

Lemma reachable_queueSteps evs rt rt' :
  reachable rt → queueSteps evs rt = Some rt' → reachable rt'.
Proof.
  revert rt. induction evs as [|ev evs IH]; intros rt Hrt Hsteps; simpl in Hsteps.
  - by simplify_eq.
  - destruct (queueStep ev rt) as [rt1|] eqn:Hstep; [|done].
    eapply IH; [|done]. by eapply reachable_step.
Qed.

Lemma queueSteps_runtimeOf evs v :
  viewOk v → queueSteps evs (runtimeOf v) = runtimeOf <$> viewSteps evs v.
Proof.
  revert v. induction evs as [|ev evs IH]; intros v Hok; [done|].
  cbn [queueSteps viewSteps]. rewrite queueStep_runtimeOf by done.
  destruct (viewStep ev v) as [v'|] eqn:Hv; [|done].
  cbn [fmap option_fmap option_map]. apply IH. by eapply viewStep_ok.
Qed.

Lemma tasks_runtimeOf v t :
  tasks (runtimeOf v) !! t = if decide (t < count v) then Some (taskOf v t) else None.
Proof. apply lookup_tabulate. Qed.

Lemma inFlight_runtimeOf v t :
  inFlight (runtimeOf v) t ↔ t < count v ∧ t = length (finished v) ∧ phase v = Running.
Proof.
  unfold inFlight. rewrite tasks_runtimeOf. destruct v as [fin ph n]. split.
  - intros [run Hrun]. revert Hrun. view_cases.
  - intros (Ht & -> & Hph). cbn [finished phase count] in *. subst ph.
    rewrite decide_True by done. unfold taskOf. cbn [finished phase count].
    rewrite decide_False, decide_True by lia. by eexists.
Qed.

Lemma settledTask_runtimeOf v t :
  settledTask (runtimeOf v) t ↔
  t < count v ∧
  (t < length (finished v) ∨ t = length (finished v) ∧ ∃ s, phase v = Finishing s).
Proof.
  unfold settledTask. rewrite tasks_runtimeOf. destruct v as [fin ph n]. split.
  - intros [s Hs]. revert Hs. view_cases; intros; split; try lia; right; eauto.
  - intros (Ht & [Hlt|[-> [s Hs]]]); cbn [finished phase count] in *.
    + rewrite decide_True by done. unfold taskOf. cbn [finished phase count].
      rewrite decide_True by done. by eexists.
    + subst ph. rewrite decide_True by done. unfold taskOf. cbn [finished phase count].
      rewrite decide_False, decide_True by lia. by eexists.
Qed.

Lemma tasks_promiseThen p cb rt : tasks (promiseThen p cb rt).2 = tasks rt.
Proof. unfold promiseThen. by repeat case_match. Qed.

Lemma tasks_callGemini rt : tasks (callGemini rt).2 = tasks rt ++ [NotStarted].
Proof.
  unfold callGemini, enqueueGeminiWork.
  destruct (promiseThen (geminiQueue _) _ _) as [run rt1] eqn:H1.
  destruct (promiseThen run _ rt1) as [queue rt2] eqn:H2.
  apply (f_equal snd) in H1, H2. cbn [snd tasks] in *.
  by rewrite <-H2, tasks_promiseThen, <-H1, tasks_promiseThen.
Qed.

(** C7.  In every state the module can reach: a call of [callGemini]
    only enqueues its task (the task has not begun when the call returns
    and the promise handed to the caller is pending); a task that has
    begun has every earlier task settled; at most one task is in flight;
    when the task in flight settles, fulfilled or rejected, and a later
    call is queued, the next two jobs put the next task in flight; and a
    task that has not begun while all earlier ones are settled is put in
    flight by at most two jobs. *)
Theorem gemini_queue_fifo rt :
  reachable rt →
  (tasks (callGemini rt).2 = tasks rt ++ [NotStarted] ∧
   ∃ reactions, promises (callGemini rt).2 !! (callGemini rt).1 = Some (Pending reactions)) ∧
  (∀ t t', begun rt t → t' < t → settledTask rt t') ∧
  (∀ t t', inFlight rt t → inFlight rt t' → t = t') ∧
  (∀ t s, inFlight rt t → S t < length (tasks rt) →
     ∃ rt', queueSteps [Finish t s; Job; Job] rt = Some rt' ∧
            tasks rt' !! t = Some (Done s) ∧ inFlight rt' (S t)) ∧
  (∀ t, tasks rt !! t = Some NotStarted → (∀ t', t' < t → settledTask rt t') →
     ∃ k rt', k ≤ 2 ∧ queueSteps (replicate k Job) rt = Some rt' ∧ inFlight rt' t).
Proof.
  intros (v & Hok & ->)%reachable_view. split_and!.
  - apply tasks_callGemini.
  - unfold callGemini, enqueueGeminiWork, runtimeOf.
    cbn [promises jobs geminiQueue tasks]. rewrite promiseThen_tabulate by lia.
    destruct (promiseOf v (2 * count v)).
    + rewrite promiseThen_tabulate by lia. rewrite decide_True by done.
      cbn [fst snd promises]. rewrite lookup_tabulate, decide_True by lia.
      rewrite decide_False, decide_True by lia. by eexists.
    + rewrite promiseThen_tabulate by lia. rewrite decide_True by done.
      cbn [fst snd promises]. rewrite lookup_tabulate, decide_True by lia.
      rewrite decide_False, decide_True by lia. by eexists.
  - intros t t' Hbegun Hlt. apply settledTask_runtimeOf.
    destruct Hbegun as [Ht|Ht].
    + apply inFlight_runtimeOf in Ht. lia.
    + apply settledTask_runtimeOf in Ht. lia.
  - intros t t' Ht Ht'. apply inFlight_runtimeOf in Ht, Ht'. lia.
  - intros t s Ht Hnext. apply inFlight_runtimeOf in Ht as (Hlt & -> & Hph).
    unfold runtimeOf in Hnext at 1. cbn [tasks] in Hnext. rewrite length_tabulate in Hnext.
    rewrite queueSteps_runtimeOf by done. destruct v as [fin ph n].
    cbn [finished phase count] in *. subst ph.
    cbn [viewSteps viewStep phase finished count]. rewrite decide_True by done.
    cbn [viewSteps viewStep phase finished count]. rewrite length_app. cbn [length].
    rewrite decide_True by lia. eexists. split; [done|]. split.
    + rewrite tasks_runtimeOf. cbn [count]. rewrite decide_True by lia. view_solve.
    + apply inFlight_runtimeOf. cbn [finished phase count]. rewrite length_app. cbn [length].
      split_and!; [lia|lia|done].
  - intros t Ht Hall. rewrite tasks_runtimeOf in Ht.
    assert (∀ t', t' < t → t' < length (finished v) ∨
              t' = length (finished v) ∧ ∃ s, phase v = Finishing s) as Hall'.
    { intros t' Hlt. by apply Hall, settledTask_runtimeOf in Hlt as [_ ?]. }
    clear Hall. destruct v as [fin ph n]. unfold viewOk in Hok.
    cbn [finished phase count] in *. case_decide as Hlt; [|done].
    destruct ph as [| |s].
    + assert (t = length fin) as ->.
      { destruct (decide (t ≤ length fin)) as [|Hgt]; [revert Ht; view_cases|].
        destruct (Hall' (length fin)) as [|[_ [? ?]]]; [lia|lia|done]. }
      exists 1, (runtimeOf (mkQueueView fin Running n)). split; [lia|].
      cbn [replicate]. rewrite queueSteps_runtimeOf by done.
      cbn [viewSteps viewStep phase finished count]. rewrite decide_True by done.
      split; [done|]. by apply inFlight_runtimeOf.
    + exfalso. destruct (decide (t ≤ length fin)) as [|Hgt]; [revert Ht; view_cases|].
      destruct (Hall' (length fin)) as [|[_ [? ?]]]; [lia|lia|done].
    + assert (t = S (length fin)) as ->.
      { destruct (decide (t ≤ S (length fin))) as [|Hgt]; [revert Ht; view_cases|].
        destruct (Hall' (S (length fin))) as [|[? _]]; lia. }
      exists 2, (runtimeOf (mkQueueView (fin ++ [s]) Running n)). split; [lia|].
      cbn [replicate]. rewrite queueSteps_runtimeOf by done.
      cbn [viewSteps viewStep phase finished count]. rewrite length_app. cbn [length].
      rewrite decide_True by lia.
      split; [done|]. apply inFlight_runtimeOf. cbn [finished phase count].
      rewrite length_app. cbn [length]. split_and!; [lia|lia|done].
Qed.

(** Two calls, the first one in flight: it is rejected and the second
    one starts. *)
Lemma gemini_queue_fifo_witness :
  ∃ rt rt',
    queueSteps [Call; Call; Job] initialRuntime = Some rt ∧
    queueSteps [Finish 0 Rejected; Job; Job] rt = Some rt' ∧
    tasks rt' = [Done Rejected; InFlight 3].
Proof.
  eexists. 
  assert (queueSteps [Call; Call; Job] initialRuntime = Some _) as Hrt by reflexivity.
  destruct (gemini_queue_fifo _ (reachable_queueSteps _ _ _ reachable_initial Hrt))
    as (_ & _ & _ & Hnext & _).
  destruct (Hnext 0 Rejected) as (rt' & Hsteps & Hdone & Hflight).
  { by eexists. }
  { simpl. lia. }
  exists rt'. split_and!; [done|done|].
  vm_compute in Hsteps. by simplify_eq.
Defined.

End GeminiQueueFacts.

(** * Further properties *)

(** ** lib/providers.ts: the model candidates *)

Lemma uniqueValues_foldl (seen values : list string) :
  let result :=
    foldl (λ seen value, if decide (value ∈ seen) then seen else seen ++ [value]) seen values in
  ∃ new,
    result = seen ++ new ∧
    sublist new values ∧
    (NoDup seen → NoDup result) ∧
    (∀ v, v ∈ result ↔ v ∈ seen ∨ v ∈ values) ∧
    (seen = [] → head new = head values) ∧
    (∀ v, v ∈ new → v ∉ seen) ∧
    (∀ (i j : nat) x y, new !! i = Some x → new !! j = Some y → (i < j)%nat →
       ∃ p : nat, values !! p = Some x ∧ y ∉ take (S p) values).
Proof.
  revert seen. induction values as [|value values IH]; intros seen; cbn [foldl].
  - exists []. rewrite app_nil_r. split_and!; try done.
    + intros v. rewrite elem_of_nil. tauto.
    + intros v Hv. by apply elem_of_nil in Hv.
  - case_decide as Hseen.
    + destruct (IH seen) as (new & Heq & Hsub & Hnodup & Hmem & Hhead & Hfresh & Horder).
      exists new. split_and!; try done.
      * by apply sublist_cons.
      * intros v. rewrite Hmem, elem_of_cons. intuition (subst; auto).
      * intros ->. by apply elem_of_nil in Hseen.
      * intros i j x y Hx Hy Hlt. destruct (Horder i j x y Hx Hy Hlt) as (p & Hp & Hnot).
        exists (S p). split; [done|]. cbn [take]. rewrite not_elem_of_cons. split; [|done].
        intros ->. apply (Hfresh value); [|done]. by eapply list_elem_of_lookup_2.
    + destruct (IH (seen ++ [value])) as (new & Heq & Hsub & Hnodup & Hmem & Hhead & Hfresh & Horder).
      assert (∀ v, v ∈ new → v ≠ value) as Hother.
      { intros v Hv ->. apply (Hfresh value Hv), elem_of_app. right. apply list_elem_of_here. }
      exists (value :: new). split_and!.
      * by rewrite Heq, <-app_assoc.
      * by apply sublist_skip.
      * intros Hnd. apply Hnodup, NoDup_app. split_and!; [done| |apply NoDup_singleton].
        intros v Hv ->%list_elem_of_singleton. done.
      * intros v. rewrite Hmem, elem_of_app, !elem_of_cons, elem_of_nil. tauto.
      * done.
      * intros v [->|Hv]%elem_of_cons; [done|].
        intros Hin. apply (Hfresh v Hv), elem_of_app. by left.
      * intros [|i] [|j] x y Hx Hy Hlt; try lia; simpl in Hx, Hy.
        -- injection Hx as <-. exists 0%nat. split; [done|]. simpl.
           rewrite not_elem_of_cons. split; [|apply not_elem_of_nil].
           apply Hother. by eapply list_elem_of_lookup_2.
        -- destruct (Horder i j x y Hx Hy ltac:(lia)) as (p & Hp & Hnot).
           exists (S p). split; [done|]. cbn [take]. rewrite not_elem_of_cons. split; [|done].
           apply Hother. by eapply list_elem_of_lookup_2.
Qed.

(** X1.  [uniqueValues] keeps every value once, in the order of the
    first occurrences: the result has no duplicates and the members of
    the input, is a subsequence of the input, and starts with the same
    value; of two values of the result, the one that comes first is at a
    place of the input up to which the other one has not occurred. *)
Theorem uniqueValues_first_occurrences (values : list string) :
  NoDup (uniqueValues values) ∧
  (∀ v, v ∈ uniqueValues values ↔ v ∈ values) ∧
  sublist (uniqueValues values) values ∧
  head (uniqueValues values) = head values ∧
  (∀ (i j : nat) x y,
     uniqueValues values !! i = Some x → uniqueValues values !! j = Some y → (i < j)%nat →
     ∃ p : nat, values !! p = Some x ∧ y ∉ take (S p) values).
Proof.
  destruct (uniqueValues_foldl [] values)
    as (new & Heq & Hsub & Hnodup & Hmem & Hhead & _ & Horder).
  unfold uniqueValues. cbn zeta in *. rewrite Heq in *. cbn [app] in *.
  split_and!; [apply Hnodup, NoDup_nil_2| |done|by apply Hhead|done].
  intros v. rewrite Hmem, elem_of_nil. tauto.
Qed.

(** The candidates of the adapter are distinct. *)
Lemma NoDup_uniqueValues (values : list string) : NoDup (uniqueValues values).
Proof.
  destruct (uniqueValues_foldl [] values) as (new & Heq & _ & Hnodup & _).
  unfold uniqueValues. apply Hnodup, NoDup_nil_2.
Qed.

(** ** lib/providers.ts: runs of the Gemini adapter *)

Section AdapterRuns.
Context (GEMINI_REQUEST_SPACING_MS GEMINI_MAX_RETRIES GEMINI_RETRY_BACKOFF_MS : Z).
Context (GEMINI_FALLBACK_MODELS : list string).
Context (JSON_parse : string → option GeminiErrorPayload.t).
Context (trim : string → string).
Context (parseFloat : string → double) (parseInt : string → option Z).
Context (env : Env GeminiEvent GeminiResp).

Lemma singleResult_answersText model outcome :
  singleResult JSON_parse model outcome =
  match answersText outcome with
  | Some text => inl text
  | None => singleResult JSON_parse model outcome
  end.
Proof. by destruct outcome as [| [[|]|] |]. Qed.

Lemma singleResult_inl model outcome text :
  singleResult JSON_parse model outcome = inl text ↔ answersText outcome = Some text.
Proof. destruct outcome as [| [[|]|] |]; simpl; split; intros; by simplify_eq. Qed.

Lemma failureOf_None model outcome :
  failureOf JSON_parse model outcome = None ↔ is_Some (answersText outcome).
Proof.
  unfold failureOf. destruct outcome as [| [[|]|] |]; simpl; split;
    first [done | by intros [? ?] | by eexists].
Qed.

(** One iteration of the attempt loop. *)
Lemma run_attemptLoop_S modelInput remaining attempt currentError tr :
  let delay :=
    if decide (attempt = 0) then Integer GEMINI_REQUEST_SPACING_MS
    else computeRetryDelay GEMINI_REQUEST_SPACING_MS GEMINI_RETRY_BACKOFF_MS trim parseFloat
           parseInt currentError attempt in
  let tr1 := tr ++ timerLog delay in
  let outcome := env tr1 (Fetch modelInput) in
  let tr2 := tr1 ++ [existT (Fetch modelInput) outcome] in
  run env
    (attemptLoop GEMINI_REQUEST_SPACING_MS GEMINI_RETRY_BACKOFF_MS JSON_parse trim parseFloat
       parseInt modelInput (S remaining) attempt currentError) tr =
  match singleResult JSON_parse (LlmCallInput.model modelInput) outcome with
  | inl text => (inl (inl text), tr2)
  | inr error =>
      if isRetryableGeminiError (Some error)
      then run env
             (attemptLoop GEMINI_REQUEST_SPACING_MS GEMINI_RETRY_BACKOFF_MS JSON_parse trim
                parseFloat parseInt modelInput remaining (attempt + 1) (Some error)) tr2
      else (inl (inr (Some error)), tr2)
  end.
Proof.
  intros delay tr1 outcome tr2. cbn [attemptLoop].
  rewrite run_tryCatch, run_bind, run_sleep. fold delay tr1.
  rewrite run_bind, run_callGeminiSingle. fold outcome tr2.
  destruct (singleResult _ _ outcome) as [text|error]; [done|].
  by destruct (isRetryableGeminiError (Some error)).
Qed.

(** One iteration of the fallback loop. *)
Lemma run_modelLoop_cons input model rest lastError preferredError tr :
  run env
    (modelLoop GEMINI_REQUEST_SPACING_MS GEMINI_MAX_RETRIES GEMINI_RETRY_BACKOFF_MS JSON_parse
       trim parseFloat parseInt input (model :: rest) lastError preferredError) tr =
  match
    run env
      (attemptLoop GEMINI_REQUEST_SPACING_MS GEMINI_RETRY_BACKOFF_MS JSON_parse trim parseFloat
         parseInt (withModel input model) (Z.to_nat (GEMINI_MAX_RETRIES + 1)) 0 None) tr
  with
  | (inl (inl text), tr') => (inl (inl text), tr')
  | (inl (inr currentError), tr') =>
      let preferredError' :=
        if bool_decide (is_Some currentError) && negb (isModelNotFoundError currentError)
        then currentError else preferredError in
      if advancesOn currentError
      then run env
             (modelLoop GEMINI_REQUEST_SPACING_MS GEMINI_MAX_RETRIES GEMINI_RETRY_BACKOFF_MS
                JSON_parse trim parseFloat parseInt input rest currentError preferredError') tr'
      else (inl (inr (currentError, preferredError')), tr')
  | (inr e, tr') => (inr e, tr')
  end.
Proof.
  cbn [modelLoop]. cbv zeta. rewrite run_bind. fold (withModel input model).
  destruct (run env (attemptLoop _ _ _ _ _ _ _ _ _ _) tr) as [[[text|currentError]|e] tr'];
    [done| |done].
  unfold advancesOn. destruct (isModelNotFoundError currentError); [done|].
  by destruct (isQuotaError currentError), (isRetryableGeminiError currentError).
Qed.

Lemma uniqueValues_cons value values : ∃ rest, uniqueValues (value :: values) = value :: rest.
Proof.
  unfold uniqueValues. cbn [foldl]. rewrite decide_False by apply not_elem_of_nil.
  destruct (uniqueValues_foldl ([] ++ [value]) values) as (new & -> & _). by exists new.
Qed.

(** X2.  With a negative [GEMINI_MAX_RETRIES] the attempt loop is never
    entered: the adapter sets no timer, makes no request and throws
    [Error("Gemini request failed.")]. *)
Theorem adapter_without_attempts (input : LlmCallInput.t) (tr : list GeminiInteraction) :
  GEMINI_MAX_RETRIES < 0 →
  run env
    (callGeminiWithFallbackAndRetries GEMINI_REQUEST_SPACING_MS GEMINI_MAX_RETRIES
       GEMINI_RETRY_BACKOFF_MS GEMINI_FALLBACK_MODELS JSON_parse trim parseFloat parseInt input)
    tr
  = (inr (JsError "Gemini request failed."), tr).
Proof.
  intros Hneg. unfold callGeminiWithFallbackAndRetries. cbv zeta.
  destruct (uniqueValues_cons (LlmCallInput.model input) GEMINI_FALLBACK_MODELS) as [rest ->].
  rewrite run_bind, run_modelLoop_cons.
  replace (Z.to_nat (GEMINI_MAX_RETRIES + 1)) with 0%nat by lia.
  done.
Qed.

(** X3.  When the first request fails with an error after which the
    fallback loop does not go on (not a 404, not quota, not retryable),
    that request is the only one, and the adapter throws this very error
    if it is an [Error], otherwise [Error("Gemini request failed.")]. *)
Theorem adapter_rethrows_final_failure (input : LlmCallInput.t) (tr : list GeminiInteraction)
    (error : Thrown) :
  let first := withModel input (LlmCallInput.model input) in
  let tr1 := tr ++ timerLog GEMINI_REQUEST_SPACING_MS in
  let outcome := env tr1 (Fetch first) in
  0 ≤ GEMINI_MAX_RETRIES →
  singleResult JSON_parse (LlmCallInput.model input) outcome = inr error →
  advancesOn (Some error) = false →
  run env
    (callGeminiWithFallbackAndRetries GEMINI_REQUEST_SPACING_MS GEMINI_MAX_RETRIES
       GEMINI_RETRY_BACKOFF_MS GEMINI_FALLBACK_MODELS JSON_parse trim parseFloat parseInt input)
    tr
  = (inr match error with
         | NotAnError => JsError "Gemini request failed."
         | _ => error
         end,
     tr1 ++ [existT (Fetch first) outcome]).
Proof.
  intros first tr1 outcome Hretries Hresult Hfinal.
  unfold callGeminiWithFallbackAndRetries. cbv zeta.
  destruct (uniqueValues_cons (LlmCallInput.model input) GEMINI_FALLBACK_MODELS) as [rest ->].
  rewrite run_bind, run_modelLoop_cons.
  destruct (Z.to_nat (GEMINI_MAX_RETRIES + 1)) as [|remaining] eqn:Hattempts; [lia|].
  rewrite run_attemptLoop_S. rewrite decide_True by done.
  fold first tr1 outcome.
  change (LlmCallInput.model first) with (LlmCallInput.model input). rewrite Hresult.
  pose proof Hfinal as Hfinal'. unfold advancesOn in Hfinal'.
  apply orb_false_iff in Hfinal' as [[Hnotfound Hquota]%orb_false_iff Hretry].
  rewrite Hretry. cbv zeta. rewrite Hfinal. cbn [bool_decide]. 
  rewrite bool_decide_true by done. rewrite Hnotfound. cbn [negb andb].
  rewrite Hnotfound. by destruct error.
Qed.


Lemma attemptsResult_outcomes model currentError outcomes :
  (∀ (p : nat) outcome, outcomes !! p = Some outcome →
     isRetryableGeminiError (failureOf JSON_parse model outcome) = false →
     S p = length outcomes) →
  match attemptsResult JSON_parse model currentError outcomes with
  | inl text =>
      ∃ earlier outcome,
        outcomes = earlier ++ [outcome] ∧ answersText outcome = Some text ∧
        Forall (λ outcome, answersText outcome = None) earlier
  | inr _ => Forall (λ outcome, answersText outcome = None) outcomes
  end.
Proof.
  intros Hstop.
  assert (∀ earlier outcome, outcomes = earlier ++ [outcome] →
            Forall (λ outcome, answersText outcome = None) earlier) as Hearlier.
  { intros earlier outcome ->. apply Forall_lookup. intros p o Hp.
    destruct (answersText o) as [text|] eqn:Htext; [|done]. exfalso.
    pose proof (lookup_lt_Some _ _ _ Hp) as Hlt.
    assert (S p = length (earlier ++ [outcome])) as Hlast.
    { apply (Hstop p o); [by apply lookup_app_l_Some|].
      assert (failureOf JSON_parse model o = None) as ->; [|done].
      apply failureOf_None. by rewrite Htext. }
    rewrite length_app in Hlast. simpl in Hlast. lia. }
  destruct outcomes as [|first others] using rev_ind; [by apply Forall_nil|].
  clear IHothers. unfold attemptsResult. rewrite last_snoc.
  destruct (singleResult JSON_parse model first) as [text|error] eqn:Hfirst.
  - exists others, first. split_and!; [done|by apply singleResult_inl in Hfirst|by eapply Hearlier].
  - apply Forall_app. split; [by eapply Hearlier|]. apply Forall_singleton.
    destruct (answersText first) as [text|] eqn:Htext; [|done].
    apply (proj2 (singleResult_inl model first text)) in Htext. congruence.
Qed.

(** The fallback loop returns the text of its last request, and every
    request before that one failed; when it is left without a text all
    its requests failed. *)
Lemma run_modelLoop_answers input candidates lastError preferredError tr :
  ∃ log result,
    run env
      (modelLoop GEMINI_REQUEST_SPACING_MS GEMINI_MAX_RETRIES GEMINI_RETRY_BACKOFF_MS JSON_parse
         trim parseFloat parseInt input candidates lastError preferredError) tr
    = (inl result, tr ++ log) ∧
    match result with
    | inl text =>
        ∃ earlier model outcome,
          fetches log = earlier ++ [(model, outcome)] ∧ answersText outcome = Some text ∧
          Forall (λ request, answersText request.2 = None) earlier
    | inr _ => Forall (λ request, answersText request.2 = None) (fetches log)
    end.
Proof.
  revert lastError preferredError tr.
  induction candidates as [|model rest IH]; intros lastError preferredError tr.
  - exists [], (inr (lastError, preferredError)). simpl. rewrite app_nil_r. split; [done|].
    apply Forall_nil_2.
  - rewrite run_modelLoop_cons.
    destruct (run_attemptLoop GEMINI_REQUEST_SPACING_MS GEMINI_RETRY_BACKOFF_MS JSON_parse trim
                parseFloat parseInt env (withModel input model)
                (Z.to_nat (GEMINI_MAX_RETRIES + 1)) 0 None tr)
      as (outcomes & Hrun & _ & Hstop & _).
    cbn [LlmCallInput.model withModel] in Hrun, Hstop. rewrite Hrun.
    pose proof (attemptsResult_outcomes model None outcomes Hstop) as Houtcomes.
    set (log := attemptsLog _ _ _ _ _ _ _ _ _ outcomes).
    assert (fetches log = (λ outcome, (model, outcome)) <$> outcomes) as Hfetches.
    { subst log. by rewrite fetches_attemptsLog. }
    destruct (attemptsResult JSON_parse model None outcomes) as [text|currentError].
    + exists log, (inl text). split; [done|].
      destruct Houtcomes as (earlier & outcome & -> & Htext & Hearlier).
      exists ((λ outcome, (model, outcome)) <$> earlier), model, outcome.
      split_and!; [by rewrite Hfetches, fmap_app|done|].
      by apply Forall_fmap.
    + cbv zeta. assert (Forall (λ request, answersText request.2 = None) (fetches log)) as Hfailed.
      { rewrite Hfetches. by apply Forall_fmap. }
      destruct (advancesOn currentError).
      * edestruct IH as (log' & result & -> & Hresult).
        exists (log ++ log'), result. split; [by rewrite app_assoc|].
        rewrite fetches_app. destruct result as [text|errors].
        -- destruct Hresult as (earlier & model' & outcome & -> & Htext & Hearlier).
           exists (fetches log ++ earlier), model', outcome.
           split_and!; [by rewrite app_assoc|done|by apply Forall_app].
        -- by apply Forall_app.
      * eexists log, _. split; [done|]. done.
Qed.

(** What is left to do after the fallback loop sets no timer and makes
    no request. *)
Lemma run_adapter_after_modelLoop input tr :
  ∃ result,
    run env
      (modelLoop GEMINI_REQUEST_SPACING_MS GEMINI_MAX_RETRIES GEMINI_RETRY_BACKOFF_MS JSON_parse
         trim parseFloat parseInt input
         (uniqueValues (LlmCallInput.model input :: GEMINI_FALLBACK_MODELS)) None None) tr
    = (inl result,
       (run env
          (callGeminiWithFallbackAndRetries GEMINI_REQUEST_SPACING_MS GEMINI_MAX_RETRIES
             GEMINI_RETRY_BACKOFF_MS GEMINI_FALLBACK_MODELS JSON_parse trim parseFloat parseInt
             input) tr).2) ∧
    match (run env
             (callGeminiWithFallbackAndRetries GEMINI_REQUEST_SPACING_MS GEMINI_MAX_RETRIES
                GEMINI_RETRY_BACKOFF_MS GEMINI_FALLBACK_MODELS JSON_parse trim parseFloat
                parseInt input) tr).1, result with
    | inl text, inl text' => text = text'
    | inr _, inr _ => True
    | _, _ => False
    end.
Proof.
  unfold callGeminiWithFallbackAndRetries. cbv zeta. rewrite run_bind.
  destruct (run_modelLoop_answers input
              (uniqueValues (LlmCallInput.model input :: GEMINI_FALLBACK_MODELS)) None None tr)
    as (log & result & -> & _).
  exists result. destruct result as [text|[lastError preferredError]]; [done|].
  by repeat case_match.
Qed.

(** X4.  In every run of the adapter: if it returns a text, that text
    is the answer to the last request of the run and every earlier
    request failed; if it throws, every request failed.  So no request
    follows a successful one. *)
Theorem adapter_returns_last_answer (input : LlmCallInput.t) (tr : list GeminiInteraction) :
  let outcome :=
    run env
      (callGeminiWithFallbackAndRetries GEMINI_REQUEST_SPACING_MS GEMINI_MAX_RETRIES
         GEMINI_RETRY_BACKOFF_MS GEMINI_FALLBACK_MODELS JSON_parse trim parseFloat parseInt
         input) tr in
  ∃ log,
    outcome.2 = tr ++ log ∧
    match outcome.1 with
    | inl text =>
        ∃ earlier model answer,
          fetches log = earlier ++ [(model, answer)] ∧ answersText answer = Some text ∧
          Forall (λ request, answersText request.2 = None) earlier
    | inr _ => Forall (λ request, answersText request.2 = None) (fetches log)
    end.
Proof.
  intros outcome. subst outcome.
  destruct (run_adapter_after_modelLoop input tr) as (result & Hrun & Hsame).
  destruct (run_modelLoop_answers input
              (uniqueValues (LlmCallInput.model input :: GEMINI_FALLBACK_MODELS)) None None tr)
    as (log & result' & Hrun' & Hresult).
  rewrite Hrun in Hrun'. injection Hrun' as <- Hlog.
  exists log. split; [done|].
  destruct (run env _ tr).1 as [text|error], result as [text'|errors]; try done.
  by subst text'.
Qed.


(** The fallback loop on a backend that answers every request with
    status 404. *)
Lemma run_modelLoop_not_found input candidates lastError tr body :
  0 ≤ GEMINI_MAX_RETRIES →
  (∀ tr input, env tr (Fetch input) = ResponseNotOk 404 body) →
  ∃ log,
    run env
      (modelLoop GEMINI_REQUEST_SPACING_MS GEMINI_MAX_RETRIES GEMINI_RETRY_BACKOFF_MS JSON_parse
         trim parseFloat parseInt input candidates lastError None) tr
    = (inl (inr (match last candidates with
                 | Some model => Some (GeminiError (createGeminiError JSON_parse 404 body model))
                 | None => lastError
                 end, None)),
       tr ++ log) ∧
    fetches log = (λ model, (model, ResponseNotOk 404 body)) <$> candidates.
Proof.
  intros Hretries Henv. revert lastError tr.
  induction candidates as [|model rest IH]; intros lastError tr.
  - exists []. simpl. by rewrite app_nil_r.
  - rewrite run_modelLoop_cons.
    destruct (Z.to_nat (GEMINI_MAX_RETRIES + 1)) as [|remaining] eqn:Hattempts; [lia|].
    rewrite run_attemptLoop_S, decide_True by done. rewrite Henv.
    cbn [singleResult]. 
    set (error := createGeminiError JSON_parse 404 body _).
    assert (isRetryableGeminiError (Some (GeminiError error)) = false) as -> by done.
    assert (advancesOn (Some (GeminiError error)) = true) as -> by done.
    cbv zeta.
    assert (isModelNotFoundError (Some (GeminiError error)) = true) as -> by done.
    rewrite andb_false_r.
    edestruct (IH (Some (GeminiError error))) as (log & -> & Hfetches).
    eexists. split.
    + rewrite <-!app_assoc. f_equal. destruct rest as [|model' rest']; [done|].
      rewrite last_cons_cons.
      destruct (last (model' :: rest')) eqn:Hlast; [done|]. by apply last_None in Hlast.
    + rewrite !fetches_app, fetches_timerLog, Hfetches. done.
Qed.

(** X5.  On a backend that answers 404 to everything the adapter asks
    each model candidate once, in order, and throws the error that lists
    all candidates, ending with the message of the last candidate's
    failure. *)
Theorem adapter_all_models_not_found (input : LlmCallInput.t) (tr : list GeminiInteraction)
    (body : string) :
  let candidates := uniqueValues (LlmCallInput.model input :: GEMINI_FALLBACK_MODELS) in
  0 ≤ GEMINI_MAX_RETRIES →
  (∀ tr input, env tr (Fetch input) = ResponseNotOk 404 body) →
  ∃ log lastModel,
    last candidates = Some lastModel ∧
    run env
      (callGeminiWithFallbackAndRetries GEMINI_REQUEST_SPACING_MS GEMINI_MAX_RETRIES
         GEMINI_RETRY_BACKOFF_MS GEMINI_FALLBACK_MODELS JSON_parse trim parseFloat parseInt
         input) tr
    = (inr (JsError
              ("All configured Gemini models returned 404: " +:+ join ", " candidates +:+
               ". Update GEMINI_MODEL/GEMINI_FALLBACK_MODELS with IDs supported by your key. Last error: "
               +:+ GeminiCallError.message (createGeminiError JSON_parse 404 body lastModel))),
       tr ++ log) ∧
    fetches log = (λ model, (model, ResponseNotOk 404 body)) <$> candidates.
Proof.
  intros candidates Hretries Henv.
  destruct (run_modelLoop_not_found input candidates None tr body Hretries Henv)
    as (log & Hrun & Hfetches).
  destruct (uniqueValues_cons (LlmCallInput.model input) GEMINI_FALLBACK_MODELS)
    as [rest Hcandidates].
  destruct (last candidates) as [lastModel|] eqn:Hlast.
  2: { subst candidates. rewrite Hcandidates in Hlast. by apply last_None in Hlast. }
  exists log, lastModel. split; [done|]. split; [|done].
  unfold callGeminiWithFallbackAndRetries. cbv zeta. fold candidates.
  rewrite run_bind, Hrun. done.
Qed.

Lemma length_timerLog ms : (length (timerLog ms) ≤ 1)%nat.
Proof. unfold timerLog. destruct (number_le ms 0); simpl; lia. Qed.

Lemma timers_timerLog_positive ms :
  Forall (λ delay, number_le delay 0 = false ∧ delay = ms) (timers (timerLog ms)).
Proof.
  unfold timerLog. destruct (number_le ms 0) eqn:Hms; [apply Forall_nil_2|].
  by apply Forall_singleton.
Qed.

Lemma length_timers_timerLog ms : (length (timers (timerLog ms)) ≤ 1)%nat.
Proof. unfold timerLog. destruct (number_le ms 0); simpl; lia. Qed.

Lemma timers_attemptsLog_bound modelInput attempt currentError outcomes :
  let log :=
    attemptsLog GEMINI_REQUEST_SPACING_MS GEMINI_RETRY_BACKOFF_MS JSON_parse trim parseFloat
      parseInt modelInput attempt currentError outcomes in
  (length (timers log) ≤ length outcomes)%nat ∧
  (0 < GEMINI_REQUEST_SPACING_MS → length (timers log) = length outcomes) ∧
  Forall (λ delay, number_le delay 0 = false ∧
                   number_le GEMINI_REQUEST_SPACING_MS delay = true) (timers log).
Proof.
  revert attempt currentError.
  induction outcomes as [|outcome outcomes IH]; intros attempt currentError.
  - split_and!; [done|done|apply Forall_nil_2].
  - cbn zeta. cbn [attemptsLog]. rewrite timers_app.
    change (timers (?it :: ?log)) with (timers [it] ++ timers log).
    change (timers [existT (Fetch modelInput) _]) with (@nil JsNumber). cbn [app].
    destruct (IH (attempt + 1) (failureOf JSON_parse (LlmCallInput.model modelInput) outcome))
      as (Hle & Heq & Hall).
    pose proof (attemptDelay_spacing GEMINI_REQUEST_SPACING_MS GEMINI_RETRY_BACKOFF_MS trim
                  parseFloat parseInt attempt currentError) as Hdelay.
    set (delay := if decide (attempt = 0) then _ else _) in *.
    rewrite length_app. cbn [length].
    pose proof (length_timers_timerLog delay).
    split_and!.
    + lia.
    + intros Hpos. rewrite Heq by done.
      rewrite timers_timerLog by (by eapply number_le_positive). done.
    + apply Forall_app. split; [|done].
      eapply Forall_impl; [apply timers_timerLog_positive|]. by intros d [Hd ->].
Qed.

Lemma modelsLog_bound input candidates segments (attempts : nat) :
  (∀ (k : nat) model outcomes, candidates !! k = Some model → segments !! k = Some outcomes →
     (length outcomes ≤ attempts)%nat) →
  let log :=
    modelsLog GEMINI_REQUEST_SPACING_MS GEMINI_RETRY_BACKOFF_MS JSON_parse trim parseFloat
      parseInt input candidates segments in
  (length (fetches log) ≤ attempts * length candidates)%nat ∧
  (length (timers log) ≤ length (fetches log))%nat ∧
  (0 < GEMINI_REQUEST_SPACING_MS → length (timers log) = length (fetches log)) ∧
  Forall (λ delay, number_le delay 0 = false ∧
                   number_le GEMINI_REQUEST_SPACING_MS delay = true) (timers log).
Proof.
  revert segments. induction candidates as [|model rest IH]; intros segments Hsegments.
  { cbn. split_and!; [lia|lia|done|apply Forall_nil_2]. }
  destruct segments as [|outcomes segments].
  { cbn. split_and!; [lia|lia|done|apply Forall_nil_2]. }
  cbn zeta. cbn [modelsLog].
  rewrite fetches_app, timers_app, !length_app, fetches_attemptsLog, length_fmap.
  destruct (IH segments) as (Hfetches & Htimers & Hsame & Hall).
  { intros k model' outcomes'. apply (Hsegments (S k)). }
  destruct (timers_attemptsLog_bound (withModel input model) 0 None outcomes)
    as (Htimers' & Hsame' & Hall').
  pose proof (Hsegments 0%nat model outcomes eq_refl eq_refl). cbn [length].
  split_and!; [nia|lia| |by apply Forall_app].
  intros Hpos. rewrite Hsame', Hsame by done. done.
Qed.

Lemma requestsFor_app model log1 log2 :
  requestsFor model (log1 ++ log2) = requestsFor model log1 ++ requestsFor model log2.
Proof. unfold requestsFor. by rewrite fetches_app, filter_app. Qed.

Lemma requestsFor_attemptsLog model modelInput attempt currentError outcomes :
  let log :=
    attemptsLog GEMINI_REQUEST_SPACING_MS GEMINI_RETRY_BACKOFF_MS JSON_parse trim parseFloat
      parseInt modelInput attempt currentError outcomes in
  (length (requestsFor model log) ≤ length outcomes)%nat ∧
  (LlmCallInput.model modelInput ≠ model → requestsFor model log = []).
Proof.
  cbv zeta. unfold requestsFor. rewrite fetches_attemptsLog. split.
  - rewrite <-(length_fmap (λ outcome, (LlmCallInput.model modelInput, outcome)) outcomes).
    apply length_filter.
  - intros Hother. induction outcomes as [|outcome outcomes IH]; [done|].
    rewrite fmap_cons, filter_cons_False; done.
Qed.

(** The requests for one model are those of the attempts on it: no more
    than [attempts], and none for a model that is not a candidate. *)
Lemma requestsFor_modelsLog model input candidates segments (attempts : nat) :
  NoDup candidates →
  (∀ (k : nat) model outcomes, candidates !! k = Some model → segments !! k = Some outcomes →
     (length outcomes ≤ attempts)%nat) →
  let log :=
    modelsLog GEMINI_REQUEST_SPACING_MS GEMINI_RETRY_BACKOFF_MS JSON_parse trim parseFloat
      parseInt input candidates segments in
  (length (requestsFor model log) ≤ attempts)%nat ∧
  (model ∉ candidates → requestsFor model log = []).
Proof.
  intros Hnodup. revert segments.
  induction Hnodup as [|candidate rest Hfresh Hnodup IH]; intros segments Hsegments.
  { cbn. split; [lia|done]. }
  destruct segments as [|outcomes segments].
  { cbn. split; [lia|done]. }
  cbv zeta. cbn [modelsLog]. rewrite requestsFor_app, length_app.
  destruct (IH segments) as (Hrest & Hnone).
  { intros k model' outcomes'. apply (Hsegments (S k)). }
  destruct (requestsFor_attemptsLog model (withModel input candidate) 0 None outcomes)
    as (Hfirst & Hother).
  cbn [LlmCallInput.model withModel] in Hother.
  pose proof (Hsegments 0%nat candidate outcomes eq_refl eq_refl) as Hbound.
  split.
  - destruct (decide (candidate = model)) as [->|Hne].
    + rewrite (Hnone Hfresh). simpl. lia.
    + rewrite (Hother Hne). simpl. lia.
  - intros [Hne Hnot]%not_elem_of_cons. rewrite Hother by done. by rewrite Hnone.
Qed.

Lemma requestLog_app steps1 steps2 :
  requestLog (steps1 ++ steps2) = requestLog steps1 ++ requestLog steps2.
Proof. unfold requestLog. apply bind_app. Qed.

Lemma attemptsLog_steps modelInput attempt currentError outcomes :
  ∃ steps,
    attemptsLog GEMINI_REQUEST_SPACING_MS GEMINI_RETRY_BACKOFF_MS JSON_parse trim parseFloat
      parseInt modelInput attempt currentError outcomes = requestLog steps ∧
    Forall (λ step, ∀ delay, step.1.1 = Some delay →
                      number_le delay 0 = false ∧
                      number_le GEMINI_REQUEST_SPACING_MS delay = true) steps ∧
    Forall (λ step, LlmCallInput.model step.1.2 = LlmCallInput.model modelInput) steps ∧
    (0 < GEMINI_REQUEST_SPACING_MS → Forall (λ step, is_Some step.1.1) steps).
Proof.
  revert attempt currentError.
  induction outcomes as [|outcome outcomes IH]; intros attempt currentError.
  - by exists [].
  - cbn [attemptsLog].
    destruct (IH (attempt + 1) (failureOf JSON_parse (LlmCallInput.model modelInput) outcome))
      as (steps & -> & Hall & Hmodel & Htimer).
    pose proof (attemptDelay_spacing GEMINI_REQUEST_SPACING_MS GEMINI_RETRY_BACKOFF_MS trim
                  parseFloat parseInt attempt currentError) as Hdelay.
    set (delay := if decide (attempt = 0) then _ else _) in *.
    exists ((if number_le delay 0 then None else Some delay, modelInput, outcome) :: steps).
    split_and!.
    + unfold timerLog. by destruct (number_le delay 0).
    + apply Forall_cons. split; [|done]. simpl.
      destruct (number_le delay 0) eqn:Hzero; [done|]. by intros ? [= <-].
    + by apply Forall_cons.
    + intros Hspacing. apply Forall_cons. split; [|by apply Htimer]. simpl.
      rewrite (number_le_positive GEMINI_REQUEST_SPACING_MS delay) by done. by eexists.
Qed.

Lemma modelsLog_steps input candidates segments :
  ∃ steps,
    modelsLog GEMINI_REQUEST_SPACING_MS GEMINI_RETRY_BACKOFF_MS JSON_parse trim parseFloat
      parseInt input candidates segments = requestLog steps ∧
    Forall (λ step, ∀ delay, step.1.1 = Some delay →
                      number_le delay 0 = false ∧
                      number_le GEMINI_REQUEST_SPACING_MS delay = true) steps ∧
    Forall (λ step, LlmCallInput.model step.1.2 ∈ candidates) steps ∧
    (0 < GEMINI_REQUEST_SPACING_MS → Forall (λ step, is_Some step.1.1) steps).
Proof.
  revert segments. induction candidates as [|model rest IH]; intros segments; [by exists []|].
  destruct segments as [|outcomes segments]; [by exists []|].
  cbn [modelsLog].
  destruct (attemptsLog_steps (withModel input model) 0 None outcomes)
    as (steps1 & -> & Hall1 & Hmodel1 & Htimer1).
  destruct (IH segments) as (steps2 & -> & Hall2 & Hmodel2 & Htimer2).
  exists (steps1 ++ steps2). split_and!.
  - by rewrite requestLog_app.
  - by apply Forall_app.
  - apply Forall_app. split.
    + eapply Forall_impl; [exact Hmodel1|]. intros step ->. apply list_elem_of_here.
    + eapply Forall_impl; [exact Hmodel2|]. intros step Hin. by apply list_elem_of_further.
  - intros Hspacing. apply Forall_app. split; [by apply Htimer1|by apply Htimer2].
Qed.

(** X6.  A run of the adapter consists of requests that are each
    preceded by at most one timer, and of nothing else.  Every request
    is for one of the model candidates, and for no candidate are there
    more than [GEMINI_MAX_RETRIES + 1] requests.  Each timer is positive
    and at least [GEMINI_REQUEST_SPACING_MS]; with a positive spacing
    there is exactly one timer per request. *)
Theorem adapter_request_bound (input : LlmCallInput.t) (tr : list GeminiInteraction) :
  let candidates := uniqueValues (LlmCallInput.model input :: GEMINI_FALLBACK_MODELS) in
  let attempts := Z.to_nat (GEMINI_MAX_RETRIES + 1) in
  ∃ log steps,
    (run env
       (callGeminiWithFallbackAndRetries GEMINI_REQUEST_SPACING_MS GEMINI_MAX_RETRIES
          GEMINI_RETRY_BACKOFF_MS GEMINI_FALLBACK_MODELS JSON_parse trim parseFloat parseInt
          input) tr).2 = tr ++ log ∧
    log = requestLog steps ∧
    Forall (λ step, LlmCallInput.model step.1.2 ∈ candidates) steps ∧
    Forall (λ step, ∀ delay, step.1.1 = Some delay →
                      number_le delay 0 = false ∧
                      number_le GEMINI_REQUEST_SPACING_MS delay = true) steps ∧
    (0 < GEMINI_REQUEST_SPACING_MS → Forall (λ step, is_Some step.1.1) steps) ∧
    (∀ model, (length (requestsFor model log) ≤ attempts)%nat) ∧
    (∀ model, model ∉ candidates → requestsFor model log = []) ∧
    length log = (length (timers log) + length (fetches log))%nat ∧
    (length (fetches log) ≤ attempts * length candidates)%nat ∧
    (length (timers log) ≤ length (fetches log))%nat ∧
    (0 < GEMINI_REQUEST_SPACING_MS → length (timers log) = length (fetches log)) ∧
    Forall (λ delay, number_le delay 0 = false ∧
                     number_le GEMINI_REQUEST_SPACING_MS delay = true) (timers log).
Proof.
  intros candidates attempts.
  destruct (run_adapter_after_modelLoop input tr) as (result & Hrun & _).
  destruct (run_modelLoop GEMINI_REQUEST_SPACING_MS GEMINI_MAX_RETRIES GEMINI_RETRY_BACKOFF_MS
              JSON_parse trim parseFloat parseInt env input candidates None None tr)
    as (segments & result' & Hrun' & _ & _ & Hsegments).
  fold candidates in Hrun. rewrite Hrun in Hrun'. injection Hrun' as _ Hlog.
  assert (∀ (k : nat) model outcomes,
            candidates !! k = Some model → segments !! k = Some outcomes →
            (length outcomes ≤ attempts)%nat) as Hbound.
  { intros k model outcomes Hmodel Houtcomes.
    by destruct (Hsegments k model outcomes Hmodel Houtcomes) as [? _]. }
  destruct (modelsLog_steps input candidates segments)
    as (steps & Hsteps & Hall & Hmodels & Htimer).
  destruct (modelsLog_bound input candidates segments attempts Hbound)
    as (Hfetches & Htimers & Hsame & Hpositive).
  eexists _, steps. split; [exact Hlog|]. split; [exact Hsteps|].
  split; [exact Hmodels|]. split; [exact Hall|]. split; [exact Htimer|].
  split.
  { intros model.
    by destruct (requestsFor_modelsLog model input candidates segments attempts
                   (NoDup_uniqueValues _) Hbound) as [? _]. }
  split.
  { intros model.
    by destruct (requestsFor_modelsLog model input candidates segments attempts
                   (NoDup_uniqueValues _) Hbound) as [_ ?]. }
  split.
  { generalize (modelsLog GEMINI_REQUEST_SPACING_MS GEMINI_RETRY_BACKOFF_MS JSON_parse trim
                  parseFloat parseInt input candidates segments).
    intros log. induction log as [|[[ms|request] answer] log IH]; simpl in *; lia. }
  done.
Qed.

End AdapterRuns.

(** The default configuration with [GEMINI_MAX_RETRIES = -1]. *)
Lemma adapter_without_attempts_witness :
  run quotaEnv
    (callGeminiWithFallbackAndRetries 2500 (-1) 3000 ["gemini-flash-latest"]
       (λ _, None) (λ s, s) (λ _, SpecFloat.S754_nan) (λ _, None) exampleGeminiInput) []
  = (inr (JsError "Gemini request failed."), []).
Proof. apply adapter_without_attempts. lia. Defined.

(** A request rejected with status 400 is not repeated on the fallback
    model. *)
Lemma adapter_rethrows_final_failure_witness :
  (run badRequestEnv
     (callGeminiWithFallbackAndRetries 2500 2 3000 ["gemini-flash-latest"]
        (λ _, None) (λ s, s) (λ _, SpecFloat.S754_nan) (λ _, None) exampleGeminiInput) []).1
  = inr (GeminiError
           (createGeminiError (λ _, None) 400 "bad request" "gemini-2.5-flash")).
Proof.
  rewrite (adapter_rethrows_final_failure 2500 2 3000 ["gemini-flash-latest"]
             (λ _, None) (λ s, s) (λ _, SpecFloat.S754_nan) (λ _, None) badRequestEnv exampleGeminiInput []
             (GeminiError (createGeminiError (λ _, None) 400 "bad request" "gemini-2.5-flash")));
    [reflexivity|lia|reflexivity|reflexivity].
Defined.

(** Both models of the example configuration are asked once. *)
Lemma adapter_all_models_not_found_witness :
  ∃ log,
    (run notFoundEnv
       (callGeminiWithFallbackAndRetries 2500 2 3000 ["gemini-flash-latest"]
          (λ _, None) (λ s, s) (λ _, SpecFloat.S754_nan) (λ _, None) exampleGeminiInput) []).2 = log ∧
    fetches log =
      [("gemini-2.5-flash", ResponseNotOk 404 "model not found");
       ("gemini-flash-latest", ResponseNotOk 404 "model not found")].
Proof.
  destruct (adapter_all_models_not_found 2500 2 3000 ["gemini-flash-latest"]
              (λ _, None) (λ s, s) (λ _, SpecFloat.S754_nan) (λ _, None) notFoundEnv exampleGeminiInput []
              "model not found")
    as (log & lastModel & _ & Hrun & Hfetches); [lia|done|].
  exists log. split; [by rewrite Hrun|]. by rewrite Hfetches.
Defined.

(** ** lib/providers.ts: the spacing of the adapter's requests *)

Section AdapterSpacing.
Context (GEMINI_REQUEST_SPACING_MS GEMINI_MAX_RETRIES GEMINI_RETRY_BACKOFF_MS : Z).
Context (GEMINI_FALLBACK_MODELS : list string).
Context (JSON_parse : string → option GeminiErrorPayload.t).
Context (trim : string → string).
Context (parseFloat : string → double) (parseInt : string → option Z).
Context (env : Env GeminiEvent GeminiResp).

Lemma spacedLog_app entries1 entries2 :
  spacedLog (entries1 ++ entries2) = spacedLog entries1 ++ spacedLog entries2.
Proof. unfold spacedLog. apply bind_app. Qed.

Lemma attemptsLog_spaced modelInput attempt currentError outcomes :
  0 < GEMINI_REQUEST_SPACING_MS →
  ∃ entries,
    attemptsLog GEMINI_REQUEST_SPACING_MS GEMINI_RETRY_BACKOFF_MS JSON_parse trim parseFloat
      parseInt modelInput attempt currentError outcomes = spacedLog entries ∧
    Forall (λ entry, number_le GEMINI_REQUEST_SPACING_MS entry.1.1 = true) entries ∧
    length entries = length outcomes.
Proof.
  intros Hspacing. revert attempt currentError.
  induction outcomes as [|outcome outcomes IH]; intros attempt currentError.
  - by exists [].
  - cbn [attemptsLog].
    destruct (IH (attempt + 1) (failureOf JSON_parse (LlmCallInput.model modelInput) outcome))
      as (entries & -> & Hall & Hlen).
    pose proof (attemptDelay_spacing GEMINI_REQUEST_SPACING_MS GEMINI_RETRY_BACKOFF_MS trim
                  parseFloat parseInt attempt currentError) as Hdelay.
    set (delay := if decide (attempt = 0) then _ else _) in *.
    exists ((delay, modelInput, outcome) :: entries). split_and!.
    + unfold timerLog.
      by rewrite (number_le_positive GEMINI_REQUEST_SPACING_MS delay) by done.
    + by apply Forall_cons.
    + simpl. by rewrite Hlen.
Qed.

Lemma modelsLog_spaced input candidates segments :
  0 < GEMINI_REQUEST_SPACING_MS →
  ∃ entries,
    modelsLog GEMINI_REQUEST_SPACING_MS GEMINI_RETRY_BACKOFF_MS JSON_parse trim parseFloat
      parseInt input candidates segments = spacedLog entries ∧
    Forall (λ entry, number_le GEMINI_REQUEST_SPACING_MS entry.1.1 = true) entries.
Proof.
  intros Hspacing. revert segments.
  induction candidates as [|model rest IH]; intros segments; [by exists []|].
  destruct segments as [|outcomes segments]; [by exists []|].
  cbn [modelsLog].
  destruct (attemptsLog_spaced (withModel input model) 0 None outcomes Hspacing)
    as (entries1 & -> & Hall1 & _).
  destruct (IH segments) as (entries2 & -> & Hall2).
  exists (entries1 ++ entries2). split; [by rewrite spacedLog_app|by apply Forall_app].
Qed.

(** X15.  With a positive [GEMINI_REQUEST_SPACING_MS] the interactions of
    a run of the adapter are pairs of a timer and the request that
    follows it, and every timer is at least the spacing: no request is
    made without waiting for the spacing first. *)
Theorem adapter_requests_are_spaced (input : LlmCallInput.t) (tr : list GeminiInteraction) :
  0 < GEMINI_REQUEST_SPACING_MS →
  ∃ entries,
    (run env
       (callGeminiWithFallbackAndRetries GEMINI_REQUEST_SPACING_MS GEMINI_MAX_RETRIES
          GEMINI_RETRY_BACKOFF_MS GEMINI_FALLBACK_MODELS JSON_parse trim parseFloat parseInt
          input) tr).2 = tr ++ spacedLog entries ∧
    Forall (λ entry, number_le GEMINI_REQUEST_SPACING_MS entry.1.1 = true) entries.
Proof.
  intros Hspacing.
  destruct (run_adapter_after_modelLoop GEMINI_REQUEST_SPACING_MS GEMINI_MAX_RETRIES
              GEMINI_RETRY_BACKOFF_MS GEMINI_FALLBACK_MODELS JSON_parse trim parseFloat parseInt
              env input tr) as (result & Hrun & _).
  destruct (run_modelLoop GEMINI_REQUEST_SPACING_MS GEMINI_MAX_RETRIES GEMINI_RETRY_BACKOFF_MS
              JSON_parse trim parseFloat parseInt env input
              (uniqueValues (LlmCallInput.model input :: GEMINI_FALLBACK_MODELS)) None None tr)
    as (segments & result' & Hrun' & _).
  rewrite Hrun in Hrun'. injection Hrun' as _ ->.
  destruct (modelsLog_spaced input
              (uniqueValues (LlmCallInput.model input :: GEMINI_FALLBACK_MODELS)) segments
              Hspacing) as (entries & -> & Hall).
  by exists entries.
Qed.

End AdapterSpacing.

(** The timers of the example run: the spacing, two backoffs, and the
    spacing again before the fallback model. *)
Lemma adapter_requests_are_spaced_witness :
  ∃ entries,
    exampleAdapterRun.2 = spacedLog entries ∧ entries.*1.*1 = Integer <$> [2500; 3000; 6000; 2500].
Proof.
  destruct (adapter_requests_are_spaced 2500 2 3000 ["gemini-flash-latest"]
              (λ _, None) (λ s, s) (λ _, SpecFloat.S754_nan) (λ _, None) quotaEnv exampleGeminiInput [])
    as (entries & Hrun & _); [lia|].
  exists entries. split; [exact Hrun|].
  change (exampleAdapterRun.2 = spacedLog entries) in Hrun.
  apply (f_equal timers) in Hrun. vm_compute in Hrun.
  destruct entries as [|[[ms1 i1] o1] [|[[ms2 i2] o2] [|[[ms3 i3] o3] [|[[ms4 i4] o4]
    [|[[ms5 i5] o5] entries]]]]]; cbn in Hrun; try discriminate.
  by injection Hrun as <- <- <- <-.
Defined.

(** ** lib/providers.ts: outcomes and order in the queue of Gemini calls *)

Section GeminiQueueOutcomes.

Local Open Scope nat_scope.

Lemma promises_runtimeOf v i :
  promises (runtimeOf v) !! i =
  if decide (i < 2 * count v + 1) then Some (promiseOf v i) else None.
Proof. apply lookup_tabulate. Qed.

Lemma length_tasks_runtimeOf v : length (tasks (runtimeOf v)) = count v.
Proof. apply length_tabulate. Qed.

Lemma runOf_Settled v t s : runOf v t = Settled s ↔ taskOf v t = Done s.
Proof.
  unfold runOf, taskOf. destruct v as [fin ph n]. cbn [finished phase count].
  repeat case_decide; destruct ph; split; intros; simplify_eq; done.
Qed.

Lemma fst_promiseThen p cb rt : (promiseThen p cb rt).1 = length (promises rt).
Proof. unfold promiseThen. by repeat case_match. Qed.

Lemma fst_callGemini rt : (callGemini rt).1 = length (promises rt).
Proof.
  unfold callGemini, enqueueGeminiWork.
  destruct (promiseThen _ (StartTask _) _) as [run rt1] eqn:Hrun.
  destruct (promiseThen run _ rt1) as [queue rt2].
  apply (f_equal fst) in Hrun. by rewrite fst_promiseThen in Hrun.
Qed.

(** X7.  The promise that [callGemini] returns for the call of task [t]
    is promise [2 * t + 1], and in every reachable state it is settled
    exactly when the task is over, with the outcome of the task: a
    failure reaches the caller of the failed call. *)
Theorem caller_gets_outcome_of_its_call rt :
  reachable rt →
  (callGemini rt).1 = 2 * length (tasks rt) + 1 ∧
  ∀ t s, tasks rt !! t = Some (Done s) ↔ promises rt !! (2 * t + 1) = Some (Settled s).
Proof.
  intros (v & Hok & ->)%reachable_view. split.
  - rewrite fst_callGemini, length_tasks_runtimeOf.
    unfold runtimeOf. cbn [promises]. by rewrite length_tabulate.
  - intros t s. rewrite tasks_runtimeOf, promises_runtimeOf, promiseOf_run.
    repeat case_decide; try lia.
    + split; intros [= Heq]; f_equal; by apply runOf_Settled.
    + done.
Qed.

Lemma queueOf_not_Rejected v t : queueOf v t ≠ Settled Rejected.
Proof. unfold queueOf. by case_decide. Qed.

(** X8.  [geminiQueue] is always the promise made last by
    [enqueueGeminiWork], and no promise of the chain is ever rejected,
    whatever the outcomes of the tasks. *)
Theorem geminiQueue_never_rejected rt :
  reachable rt →
  geminiQueue rt = 2 * length (tasks rt) ∧
  ∀ k, promises rt !! (2 * k) ≠ Some (Settled Rejected).
Proof.
  intros (v & Hok & ->)%reachable_view. split.
  - by rewrite length_tasks_runtimeOf.
  - intros k. rewrite promises_runtimeOf. case_decide; [|done].
    destruct k as [|k]; [done|].
    replace (2 * S k) with (2 * k + 2) by lia. rewrite promiseOf_queue.
    intros [= Heq]. by apply queueOf_not_Rejected in Heq.
Qed.

Lemma finishOrder_viewSteps evs v v' :
  viewSteps evs v = Some v' →
  finishOrder evs = seq (tasksOver v) (length (finishOrder evs)) ∧
  tasksOver v' = tasksOver v + length (finishOrder evs) ∧
  count v ≤ count v'.
Proof.
  revert v. induction evs as [|ev evs IH]; intros v Hsteps.
  - cbn in *. simplify_eq. split_and!; [done|lia|done].
  - cbn [viewSteps] in Hsteps.
    destruct (viewStep ev v) as [v1|] eqn:Hstep; [|done].
    destruct (IH v1 Hsteps) as (Horder & Hover & Hcount).
    assert (match ev with
            | Finish t _ => t = tasksOver v ∧ tasksOver v1 = S (tasksOver v)
            | _ => tasksOver v1 = tasksOver v
            end ∧ count v ≤ count v1) as [Hev Hcount1].
    { unfold viewStep in Hstep. unfold tasksOver.
      destruct ev as [| |t s], v as [fin ph n]; cbn [finished phase count] in *.
      - simplify_eq. cbn [finished phase count]. lia.
      - destruct ph; repeat case_decide; simplify_eq; cbn [finished phase count];
          rewrite ?length_app; cbn [length]; lia.
      - destruct ph; repeat case_decide; simplify_eq; cbn [finished phase count]; lia. }
    destruct ev as [| |t s].
    + change (finishOrder (Call :: evs)) with (finishOrder evs).
      rewrite <-Hev. split_and!; [done|done|lia].
    + change (finishOrder (Job :: evs)) with (finishOrder evs).
      rewrite <-Hev. split_and!; [done|done|lia].
    + change (finishOrder (Finish t s :: evs)) with (t :: finishOrder evs).
      destruct Hev as [-> Hv1]. cbn [length seq]. rewrite <-Hv1.
      split_and!; [by f_equal|lia|lia].
Qed.

(** X9.  In every sequence of events from the initial state the tasks
    finish in the order of their calls: the finishing tasks are numbers
    [0], [1], [2], ... without gaps; they are calls that were made, and
    they are settled at the end of the sequence. *)
Theorem calls_finish_in_order evs rt :
  queueSteps evs initialRuntime = Some rt →
  finishOrder evs = seq 0 (length (finishOrder evs)) ∧
  length (finishOrder evs) ≤ length (tasks rt) ∧
  ∀ t, t < length (finishOrder evs) → settledTask rt t.
Proof.
  change initialRuntime with (runtimeOf (mkQueueView [] Starting 0)).
  assert (viewOk (mkQueueView [] Starting 0)) as Hok by (unfold viewOk; simpl; lia).
  rewrite queueSteps_runtimeOf by done.
  destruct (viewSteps evs _) as [v'|] eqn:Hsteps; [|done].
  intros [= <-].
  assert (viewOk v') as Hok'.
  { clear -Hok Hsteps. revert Hok Hsteps. generalize (mkQueueView [] Starting 0).
    induction evs as [|ev evs IH]; intros v Hok Hsteps; cbn in Hsteps; [by simplify_eq|].
    destruct (viewStep ev v) as [v1|] eqn:Hstep; [|done].
    eapply IH; [|done]. by eapply viewStep_ok. }
  destruct (finishOrder_viewSteps evs _ _ Hsteps) as (Horder & Hover & Hcount).
  unfold tasksOver in Hover. cbn [finished phase count length] in *.
  unfold viewOk in Hok'. rewrite length_tasks_runtimeOf.
  split_and!; [done|destruct (phase v'); lia|].
  intros t Ht. apply settledTask_runtimeOf.
  destruct (phase v') as [| |s] eqn:Hphase; [lia|lia|].
  split; [lia|].
  destruct (decide (t < length (finished v'))); [by left|right].
  split; [lia|by eexists].
Qed.

(** The first of two calls is rejected: its caller's promise is
    rejected. *)
Lemma caller_gets_outcome_of_its_call_witness :
  ∃ rt,
    queueSteps [Call; Call; Job; Finish 0 Rejected] initialRuntime = Some rt ∧
    promises rt !! 1 = Some (Settled Rejected).
Proof.
  eexists. split; [vm_compute; reflexivity|].
  match goal with |- promises ?rt !! _ = _ => assert (reachable rt) as Hreach end.
  { apply (reachable_queueSteps [Call; Call; Job; Finish 0 Rejected] initialRuntime);
      [apply reachable_initial|reflexivity]. }
  destruct (caller_gets_outcome_of_its_call _ Hreach) as [_ Houtcome].
  apply (Houtcome 0 Rejected). reflexivity.
Defined.

(** After the rejected call the queue promise behind it is not
    rejected. *)
Lemma geminiQueue_never_rejected_witness :
  ∃ rt,
    queueSteps [Call; Call; Job; Finish 0 Rejected; Job] initialRuntime = Some rt ∧
    promises rt !! 2 ≠ Some (Settled Rejected).
Proof.
  eexists. split; [vm_compute; reflexivity|].
  match goal with |- promises ?rt !! _ ≠ _ => assert (reachable rt) as Hreach end.
  { apply (reachable_queueSteps [Call; Call; Job; Finish 0 Rejected; Job] initialRuntime);
      [apply reachable_initial|reflexivity]. }
  destruct (geminiQueue_never_rejected _ Hreach) as [_ Hqueue].
  apply (Hqueue 1).
Defined.

(** Two calls, finishing one after the other. *)
Lemma calls_finish_in_order_witness :
  finishOrder [Call; Call; Job; Finish 0 Rejected; Job; Job; Finish 1 Fulfilled] = [0; 1].
Proof.
  destruct (calls_finish_in_order
              [Call; Call; Job; Finish 0 Rejected; Job; Job; Finish 1 Fulfilled]
              (default initialRuntime
                 (queueSteps [Call; Call; Job; Finish 0 Rejected; Job; Job; Finish 1 Fulfilled]
                    initialRuntime)))
    as (Horder & _); [reflexivity|].
  exact Horder.
Defined.

End GeminiQueueOutcomes.

(** ** lib/experiment.ts: the requests of a run *)

Section RequestFacts.
Context {E : Type} {Resp : E → Type} (P : E → Prop).

Lemma requestsAll_bind {A B} (p : Proc E Resp A) (f : A → Proc E Resp B) :
  requestsAll P p → (∀ a, requestsAll P (f a)) → requestsAll P (p ≫= f).
Proof.
  intros Hp Hf. unfold mbind, Proc_bind.
  induction p as [a|e|ev k IH]; simpl; [apply Hf|done|].
  destruct Hp as [Hev Hk]. split; [done|]. intros r. by apply IH.
Qed.

Lemma requestsAll_tryCatch {A} (p : Proc E Resp A) (h : Thrown → Proc E Resp A) :
  requestsAll P p → (∀ e, requestsAll P (h e)) → requestsAll P (tryCatch p h).
Proof.
  intros Hp Hh. induction p as [a|e|ev k IH]; simpl; [done|apply Hh|].
  destruct Hp as [Hev Hk]. split; [done|]. intros r. by apply IH.
Qed.

Lemma requestsAll_forOf {A S} (body : S → A → Proc E Resp S) (xs : list A) (acc : S) :
  (∀ acc x, x ∈ xs → requestsAll P (body acc x)) → requestsAll P (forOf body xs acc).
Proof.
  revert acc. induction xs as [|x xs IH]; intros acc Hbody; simpl; [done|].
  apply (requestsAll_bind (body acc x)).
  - apply Hbody, list_elem_of_here.
  - intros acc'. apply IH. intros acc'' y Hy. by apply Hbody, list_elem_of_further.
Qed.

Lemma requestsAll_settled {A} (p : Proc E Resp A) :
  requestsAll P p → requestsAll P (settled p).
Proof.
  intros Hp. unfold settled. apply requestsAll_tryCatch; [|done].
  by apply requestsAll_bind.
Qed.

Lemma requestsAll_allSettled {A} (schedule : list nat) (promises : list (Proc E Resp A)) :
  Forall (requestsAll P) promises → requestsAll P (allSettled schedule promises).
Proof.
  revert promises. induction schedule as [|i schedule IH]; intros promises Hall.
  - cbn [allSettled]. apply requestsAll_forOf. intros acc p Hp.
    apply requestsAll_bind; [|done]. apply requestsAll_settled.
    by eapply Forall_forall in Hall.
  - cbn [allSettled]. destruct (promises !! i) as [[a|e|ev k]|] eqn:Hi; try by apply IH.
    pose proof (Forall_lookup_1 _ _ _ _ Hall Hi) as [Hev Hk].
    split; [done|]. intros r. apply IH. apply Forall_insert; [done|apply Hk].
Qed.

Lemma run_requestsAll {A} (env : Env E Resp) (p : Proc E Resp A) tr :
  requestsAll P p →
  ∃ log, (run env p tr).2 = tr ++ log ∧ Forall (λ it, P (projT1 it)) log.
Proof.
  revert tr. induction p as [a|e|ev k IH]; intros tr Hp; simpl.
  - exists []. by rewrite app_nil_r.
  - exists []. by rewrite app_nil_r.
  - destruct Hp as [Hev Hk].
    destruct (IH (env tr ev) (tr ++ [existT ev (env tr ev)]) (Hk _)) as (log & -> & Hlog).
    exists (existT ev (env tr ev) :: log). split; [by rewrite <-app_assoc|].
    by apply Forall_cons.
Qed.

End RequestFacts.

Section FailFastFacts.

Lemma failsFast_bind {A B} (p : LlmProc A) (f : A → LlmProc B) :
  failsFast p → (∀ a, failsFast (f a)) → failsFast (p ≫= f).
Proof.
  intros Hp Hf. unfold mbind, Proc_bind.
  induction p as [a|e|ev k IH]; simpl; [apply Hf|done|].
  destruct Hp as [Hfail Hk]. split.
  - intros e. by rewrite Hfail.
  - intros text. by apply IH.
Qed.

Lemma failsFast_callLlm input : failsFast (callLlm input).
Proof. by split. Qed.

Lemma failsFast_forOf {A S} (body : S → A → LlmProc S) (xs : list A) (acc : S) :
  (∀ acc x, failsFast (body acc x)) → failsFast (forOf body xs acc).
Proof.
  intros Hbody. revert acc. induction xs as [|x xs IH]; intros acc; simpl; [done|].
  by apply (failsFast_bind (body acc x)).
Qed.

Lemma run_failsFast {A} (env : Env LlmEvent LlmResp) (p : LlmProc A) tr outcome tr' :
  failsFast p →
  run env p tr = (outcome, tr') →
  ∃ earlier,
    Forall answered earlier ∧
    match outcome with
    | inl _ => tr' = tr ++ earlier
    | inr e => tr' = tr ++ earlier ∨ ∃ it, tr' = tr ++ earlier ++ [it] ∧ answerOf it = inr e
    end.
Proof.
  revert tr. induction p as [a|e|ev k IH]; intros tr Hp Hrun; simpl in Hrun.
  - simplify_eq. exists []. by rewrite app_nil_r.
  - simplify_eq. exists []. split; [done|]. left. by rewrite app_nil_r.
  - destruct Hp as [Hfail Hk]. destruct (env tr ev) as [text|e] eqn:Hanswer.
    + destruct (IH _ _ (Hk text) Hrun) as (earlier & Hearlier & Hlog).
      exists (existT ev (inl text : LlmResp ev) :: earlier). split.
      { apply Forall_cons. split; [|done]. exists text. by destruct ev. }
      destruct outcome as [a|e].
      * by rewrite Hlog, <-app_assoc.
      * destruct Hlog as [Hlog|(it & Hlog & Hit)].
        -- left. by rewrite Hlog, <-app_assoc.
        -- right. exists it. split; [|done]. by rewrite Hlog, <-!app_assoc.
    + rewrite Hfail in Hrun. simpl in Hrun. simplify_eq. exists []. split; [done|]. right.
      exists (existT ev (inr e : LlmResp ev)). split; [done|]. by destruct ev.
Qed.

End FailFastFacts.

Section DebateRequests.
Context (MAX_DEBATE_RESPONSE_TOKENS : Z).

Lemma failsFast_debateRounds input remaining round histories transcript :
  failsFast (debateRounds MAX_DEBATE_RESPONSE_TOKENS input remaining round histories transcript).
Proof.
  revert round histories transcript.
  induction remaining as [|remaining IH]; intros round histories transcript; [done|].
  cbn [debateRounds]. cbv zeta.
  apply (failsFast_bind (forOf _ _ _)).
  - apply failsFast_forOf. intros [histories' contributions] agent.
    unfold debateTurn. destruct (histories' !! DebateAgent.id agent); [|done].
    apply (failsFast_bind (callLlm _)); [apply failsFast_callLlm|done].
  - intros [histories' contributions]. apply IH.
Qed.

Lemma failsFast_runDebate input : failsFast (runDebate MAX_DEBATE_RESPONSE_TOKENS input).
Proof.
  unfold runDebate. apply (failsFast_bind (debateRounds _ _ _ _ _ _)).
  - apply failsFast_debateRounds.
  - intros [histories transcript].
    destruct (findModerator _) as [moderator|]; [|done].
    destruct (histories !! _); [|done].
    apply (failsFast_bind (callLlm _)); [apply failsFast_callLlm|done].
Qed.

(** X10.  [runDebate] has no handler around its requests: in a run that
    returns, every request was answered; in a run that throws (with a
    roster that is not empty) every request but the last was answered and
    the value thrown is the failure of the last request, so no request
    follows a failed one. *)
Theorem runDebate_stops_at_first_failure (env : Env LlmEvent LlmResp) (input : DebateInput.t)
    (tr : list LlmInteraction) outcome tr' :
  DebateInput.agents input ≠ [] →
  run env (runDebate MAX_DEBATE_RESPONSE_TOKENS input) tr = (outcome, tr') →
  ∃ log,
    tr' = tr ++ log ∧
    match outcome with
    | inl _ => Forall answered log
    | inr e =>
        ∃ earlier it, log = earlier ++ [it] ∧ Forall answered earlier ∧ answerOf it = inr e
    end.
Proof.
  intros Hagents Hrun.
  destruct (run_failsFast env _ tr outcome tr' (failsFast_runDebate input) Hrun)
    as (earlier & Hearlier & Hlog).
  destruct outcome as [result|e]; [by exists earlier|].
  destruct Hlog as [->|(it & -> & Hit)].
  - exfalso.
    destruct (run_runDebate MAX_DEBATE_RESPONSE_TOKENS env input tr _ _ Hrun)
      as (log & Hlog & _ & [?|(it & Hlast & Hit)]); [done|].
    apply app_inv_head in Hlog as <-.
    apply last_Some_elem_of in Hlast.
    eapply Forall_forall in Hearlier as [text Htext]; [|done]. congruence.
  - eexists. split; [done|]. by exists earlier, it.
Qed.


Lemma requestsAll_callLlm (P : LlmEvent → Prop) input :
  P (CallLlm input) → requestsAll P (callLlm input).
Proof. intros HP. split; [done|]. by intros [text|e]. Qed.

Lemma requestsAll_debateRounds model input remaining round histories transcript :
  Forall (λ agent, DebateAgent.provider agent = gemini ∧ DebateAgent.model agent = model)
    (DebateInput.agents input) →
  requestsAll (toGemini model)
    (debateRounds MAX_DEBATE_RESPONSE_TOKENS input remaining round histories transcript).
Proof.
  intros Hagents. revert round histories transcript.
  induction remaining as [|remaining IH]; intros round histories transcript; [done|].
  cbn [debateRounds]. cbv zeta.
  apply (requestsAll_bind _ (forOf _ _ _)).
  - apply requestsAll_forOf. intros [histories' contributions] agent Hagent.
    unfold debateTurn. destruct (histories' !! DebateAgent.id agent); [|done].
    apply (requestsAll_bind _ (callLlm _)); [|done].
    apply requestsAll_callLlm. by eapply Forall_forall in Hagents.
  - intros [histories' contributions]. apply IH.
Qed.

Lemma requestsAll_runDebate model input :
  Forall (λ agent, DebateAgent.provider agent = gemini ∧ DebateAgent.model agent = model)
    (DebateInput.agents input) →
  requestsAll (toGemini model) (runDebate MAX_DEBATE_RESPONSE_TOKENS input).
Proof.
  intros Hagents. unfold runDebate. apply (requestsAll_bind _ (debateRounds _ _ _ _ _ _)).
  - by apply requestsAll_debateRounds.
  - intros [histories transcript].
    destruct (findModerator _) as [moderator|] eqn:Hmoderator; [|done].
    destruct (histories !! _); [|done].
    apply (requestsAll_bind _ (callLlm _)); [|done].
    apply requestsAll_callLlm. apply findModerator_elem_of in Hmoderator.
    by eapply Forall_forall in Hagents.
Qed.

Lemma requestsAll_runDebateCondition model input :
  Forall (λ agent, DebateAgent.provider agent = gemini ∧ DebateAgent.model agent = model)
    (DebateConditionInput.agents input) →
  requestsAll (toGemini model) (runDebateCondition MAX_DEBATE_RESPONSE_TOKENS input).
Proof.
  intros Hagents. unfold runDebateCondition.
  apply (requestsAll_bind _ (runDebate _ _)); [|done]. by apply requestsAll_runDebate.
Qed.

Lemma requestsAll_runSingleCondition model input :
  SingleConditionInput.provider input = gemini →
  SingleConditionInput.model input = model →
  requestsAll (toGemini model) (runSingleCondition input).
Proof.
  intros Hprovider Hmodel. unfold runSingleCondition. cbv zeta.
  apply (requestsAll_bind _ (callLlm _)); [|done]. by apply requestsAll_callLlm.
Qed.

Lemma requestsAll_runConditionsSequentially (P : LlmEvent → Prop) runners :
  Forall (requestsAll P) runners → requestsAll P (runConditionsSequentially runners).
Proof.
  intros Hrunners. unfold runConditionsSequentially.
  apply requestsAll_forOf. intros results [index runCondition] Hin.
  apply elem_of_lookup_imap in Hin as (i & runner & [= -> ->] & Hi).
  apply requestsAll_tryCatch; [|done].
  apply requestsAll_bind; [|done]. by eapply Forall_lookup_1 in Hrunners.
Qed.

Lemma requestsAll_runConditionsInParallel (P : LlmEvent → Prop) schedule runners :
  Forall (requestsAll P) runners → requestsAll P (runConditionsInParallel schedule runners).
Proof.
  intros Hrunners. unfold runConditionsInParallel.
  apply (requestsAll_bind _ (allSettled _ _)); [|done]. by apply requestsAll_allSettled.
Qed.

(** X11.  With [FORCE_GEMINI_ONLY] every request of [runExperiment], in
    serial and in concurrent mode and whatever the answers, goes to the
    provider [gemini] for the Gemini model of the catalog. *)
Theorem gemini_only_requests (DEFAULT_DEBATE_ROUNDS : Z) (SERIALIZE_CONDITIONS : bool)
    (models : ModelCatalog.t) (runId createdAt : string) (draw : nat → nat)
    (schedule : list nat) (question : string) (env : Env LlmEvent LlmResp)
    (tr : list LlmInteraction) :
  ∃ log,
    (run env
       (runExperiment MAX_DEBATE_RESPONSE_TOKENS DEFAULT_DEBATE_ROUNDS true
          SERIALIZE_CONDITIONS models runId createdAt draw schedule question) tr).2
    = tr ++ log ∧
    Forall (λ it, LlmCallInput.provider (requestOf it) = gemini ∧
                  LlmCallInput.model (requestOf it) = ModelCatalog.gemini models) log.
Proof.
  assert (Forall (requestsAll (toGemini (ModelCatalog.gemini models)))
            (conditionRunners MAX_DEBATE_RESPONSE_TOKENS DEFAULT_DEBATE_ROUNDS true models
               question)) as Hrunners.
  { unfold conditionRunners. cbv zeta. repeat apply Forall_cons_2; [| | | |apply Forall_nil_2].
    - by apply requestsAll_runSingleCondition.
    - apply requestsAll_runDebateCondition. cbn. by repeat constructor.
    - apply requestsAll_runDebateCondition. cbn. by repeat constructor.
    - by apply requestsAll_runSingleCondition. }
  destruct (run_requestsAll (toGemini (ModelCatalog.gemini models)) env
              (runExperiment MAX_DEBATE_RESPONSE_TOKENS DEFAULT_DEBATE_ROUNDS true
                 SERIALIZE_CONDITIONS models runId createdAt draw schedule question) tr)
    as (log & Hlog & Hall).
  { unfold runExperiment. apply requestsAll_bind; [|done].
    destruct SERIALIZE_CONDITIONS.
    - by apply requestsAll_runConditionsSequentially.
    - by apply requestsAll_runConditionsInParallel. }
  exists log. split; [done|].
  eapply Forall_impl; [done|]. by intros [[input] answer].
Qed.

End DebateRequests.

Section AnsweredRuns.
Context (MAX_DEBATE_RESPONSE_TOKENS : Z) (env : Env LlmEvent LlmResp).

Lemma run_runSingleCondition_answers input tr :
  alwaysAnswers env →
  ∃ result it,
    run env (runSingleCondition input) tr = (inl result, tr ++ [it]) ∧
    ConditionResult.transcript result ≠ [].
Proof.
  intros Henv. unfold runSingleCondition. cbv zeta. rewrite run_bind, run_callLlm.
  destruct (Henv tr (CallLlm
    (LlmCallInput.mk (SingleConditionInput.provider input) (SingleConditionInput.model input)
       [ChatMessage.mk system (SingleConditionInput.systemPrompt input);
        ChatMessage.mk user ("Question: " +:+ SingleConditionInput.question input)]
       (Some (1 # 5)%Q) (Some MAX_SINGLE_RESPONSE_TOKENS)))) as [text ->].
  by eexists _, _.
Qed.

Lemma run_runDebateCondition_answers input tr :
  alwaysAnswers env → DebateConditionInput.agents input ≠ [] →
  ∃ result log,
    run env (runDebateCondition MAX_DEBATE_RESPONSE_TOKENS input) tr = (inl result, tr ++ log) ∧
    length log =
      (Z.to_nat (Z.max 1 (DebateConditionInput.rounds input)) *
       length (DebateConditionInput.agents input) + 1)%nat ∧
    ConditionResult.transcript result ≠ [].
Proof.
  intros Henv Hagents. unfold runDebateCondition. rewrite run_bind.
  destruct (run_runDebate_answers MAX_DEBATE_RESPONSE_TOKENS env
              (DebateInput.mk (DebateConditionInput.question input)
                 (DebateConditionInput.agents input)
                 (Z.max 1 (DebateConditionInput.rounds input))) tr Henv Hagents)
    as (result & log & moderator & -> & _ & Hlen & Htranscript).
  eexists _, log. split_and!; [done|done|].
  cbn [ConditionResult.transcript]. rewrite Htranscript.
  intros [_ Hnil]%app_nil. discriminate.
Qed.

(** X12.  In serial mode on a backend that answers every request, a run
    of [runExperiment] returns after [8 * max(1, DEBATE_ROUNDS) + 4]
    requests (one per single-model condition, and for each of the two
    debates one per agent and round plus the synthesis), and every
    blinded response carries a transcript: none stands for a failure. *)
Theorem answered_serial_run (DEFAULT_DEBATE_ROUNDS : Z) (FORCE_GEMINI_ONLY : bool)
    (models : ModelCatalog.t) (runId createdAt : string) (draw : nat → nat)
    (schedule : list nat) (question : string) (tr : list LlmInteraction) :
  alwaysAnswers env →
  ∃ response log,
    run env
      (runExperiment MAX_DEBATE_RESPONSE_TOKENS DEFAULT_DEBATE_ROUNDS FORCE_GEMINI_ONLY true
         models runId createdAt draw schedule question) tr
    = (inl response, tr ++ log) ∧
    length log = (8 * Z.to_nat (Z.max 1 DEFAULT_DEBATE_ROUNDS) + 4)%nat ∧
    Forall (λ blinded, BlindedResponse.transcript blinded ≠ [])
      (ExperimentApiResponse.responses response).
Proof.
  intros Henv. unfold runExperiment. rewrite run_bind, run_runConditionsSequentially.
  unfold conditionRunners. cbv zeta. cbn [settledInOrder].
  edestruct (run_runSingleCondition_answers) as (r0 & it0 & -> & Ht0); [done|].
  edestruct (run_runDebateCondition_answers) as (r1 & log1 & -> & Hlen1 & Ht1); [done| |].
  { cbn [DebateConditionInput.agents]. destruct FORCE_GEMINI_ONLY; discriminate. }
  edestruct (run_runDebateCondition_answers) as (r2 & log2 & -> & Hlen2 & Ht2); [done| |].
  { discriminate. }
  edestruct (run_runSingleCondition_answers) as (r3 & it3 & -> & Ht3); [done|].
  cbn [fst snd imap resultOfSettlement]. rewrite run_mret.
  eexists _, ((([it0] ++ log1) ++ log2) ++ [it3]). split_and!.
  - by rewrite !app_assoc.
  - rewrite !length_app, Hlen1, Hlen2. cbn [DebateConditionInput.rounds DebateConditionInput.agents].
    assert (length (buildMixedModelAgents models FORCE_GEMINI_ONLY) = 4%nat) as ->
      by by destruct FORCE_GEMINI_ONLY.
    cbn [length buildSameModelRoleAgents]. lia.
  - cbn [ExperimentApiResponse.responses].
    apply (Forall_fmap sourceOf (λ result, ConditionResult.transcript result ≠ [])).
    rewrite sourceOf_blindAndShuffle, shuffleFrom_Permutation.
    by repeat constructor.
Qed.

End AnsweredRuns.

(** Two rounds: twenty requests. *)
Lemma answered_serial_run_witness :
  ∃ response log,
    run answeringEnv
      (runExperiment 450 2 true true exampleModels "run-1" "2025-01-01T00:00:00.000Z"
         (λ _, 0%nat) [] "What is six times seven?") []
    = (inl response, [] ++ log) ∧
    length log = 20%nat.
Proof.
  destruct (answered_serial_run 450 answeringEnv 2 true exampleModels "run-1"
              "2025-01-01T00:00:00.000Z" (λ _, 0%nat) [] "What is six times seven?" [])
    as (response & log & Hrun & Hlen & _).
  { intros tr ev. by exists "Answer: 42". }
  exists response, log. split; [exact Hrun|exact Hlen].
Defined.

(** The first request of the example debate is rejected. *)
Lemma runDebate_stops_at_first_failure_witness :
  ∃ earlier it,
    (run exampleEnv (runDebate 450 exampleDebate) []).2 = earlier ++ [it] ∧
    answerOf it = inr (JsError "fetch failed").
Proof.
  destruct (runDebate_stops_at_first_failure 450 exampleEnv exampleDebate [] _ _
              ltac:(discriminate) (surjective_pairing _)) as (log & Hlog & Hout).
  assert ((run exampleEnv (runDebate 450 exampleDebate) []).1 = inr (JsError "fetch failed"))
    as Hfail by (vm_compute; reflexivity).
  rewrite Hfail in Hout. destruct Hout as (earlier & it & -> & _ & Hit).
  by exists earlier, it.
Defined.

Lemma slice0_split (s : string) (n : nat) :
  ∃ rest, s = slice0 s n +:+ rest.
Proof.
  unfold slice0. revert n. induction s as [|c s IH]; intros n.
  - exists EmptyString. by destruct n.
  - destruct n as [|n].
    + by exists (String c s).
    + destruct (IH n) as [rest Hrest]. exists rest. simpl.
      change (String c s = String c (String.substring 0 n s +:+ rest)). by f_equal.
Qed.

(** X13.  For a limit of at least 3, [clampText] returns an input within
    the limit unchanged, and otherwise the first [maxChars - 3]
    characters of the input followed by three dots, a text of exactly
    [maxChars] characters. *)
Theorem clampText_shape (input : string) (maxChars : nat) :
  (3 ≤ maxChars)%nat →
  if decide (String.length input ≤ maxChars)%nat then clampText input maxChars = input
  else
    ∃ kept rest,
      input = kept +:+ rest ∧
      String.length kept = (maxChars - 3)%nat ∧
      clampText input maxChars = kept +:+ "..." ∧
      String.length (clampText input maxChars) = maxChars.
Proof.
  intros Hmax. unfold clampText. case_decide as Hlen.
  - apply Nat.leb_le in Hlen. by rewrite Hlen.
  - apply Nat.leb_nle in Hlen. rewrite Hlen.
    apply Nat.leb_nle in Hlen.
    destruct (slice0_split input (maxChars - 3)) as [rest Hrest].
    exists (slice0 input (maxChars - 3)), rest.
    split_and!; [done| |done|].
    + rewrite length_slice0. lia.
    + rewrite length_append, length_slice0. simpl. lia.
Qed.

(** Ten characters clamped to eight. *)
Lemma clampText_shape_witness :
  clampText "abcdefghij" 8 = "abcde...".
Proof.
  pose proof (clampText_shape "abcdefghij" 8 ltac:(lia)) as Hshape.
  rewrite decide_False in Hshape by (simpl; lia).
  destruct Hshape as (kept & rest & Hinput & Hkept & -> & _).
  destruct kept as [|c1 [|c2 [|c3 [|c4 [|c5 [|c6 kept]]]]]]; simpl in Hkept; try lia.
  by injection Hinput as -> -> -> -> -> _.
Defined.

(** *** Rosters *)

(** X14.  Every roster that the experiment builds has four agents with
    pairwise distinct ids, and its first agent is the only one flagged
    as moderator, so that [runDebate] takes the first agent for the
    synthesis. *)
Theorem rosters_have_one_moderator (models : ModelCatalog.t) (forceGeminiOnly : bool)
    (provider : ProviderName) (model : string) (roster : list DebateAgent.t) :
  roster = buildMixedModelAgents models forceGeminiOnly ∨
  roster = buildSameModelRoleAgents provider model →
  length roster = 4%nat ∧
  NoDup (DebateAgent.id <$> roster) ∧
  findModerator roster = head roster ∧
  filter (λ agent, truthy (DebateAgent.isModerator agent) = true) roster = take 1 roster.
Proof.
  intros [->| ->]; [destruct forceGeminiOnly|]; (split_and!; [done| |done|done]);
    by apply (bool_decide_unpack _).
Qed.

(** The moderator of the Gemini-backed mixed roster. *)
Lemma rosters_have_one_moderator_witness :
  DebateAgent.id <$> findModerator (buildMixedModelAgents exampleModels true)
  = Some "chatgpt_slot".
Proof.
  destruct (rosters_have_one_moderator exampleModels true gemini "gemini-2.5-flash"
              (buildMixedModelAgents exampleModels true) (or_introl eq_refl))
    as (_ & _ & -> & _).
  reflexivity.
Defined.

(** ** lib/experiment.ts: the chat histories of a debate *)

Section DebateHistories.
Context (MAX_DEBATE_RESPONSE_TOKENS : Z) (env : Env LlmEvent LlmResp) (input : DebateInput.t).

Lemma run_debateTurn_request round previousRoundTurns histories contributions agent history tr :
  histories !! DebateAgent.id agent = Some history →
  let prompt :=
    ChatMessage.mk user
      (buildRoundPrompt
         (RoundPromptInput.mk (DebateInput.question input) round (DebateInput.rounds input)
            agent previousRoundTurns)) in
  let request := CallLlm (debateRequest MAX_DEBATE_RESPONSE_TOKENS agent (history ++ [prompt])) in
  run env
    (debateTurn MAX_DEBATE_RESPONSE_TOKENS input round previousRoundTurns
       (histories, contributions) agent) tr =
  (match env tr request with
   | inl content =>
       inl (<[DebateAgent.id agent :=
                (history ++ [prompt]) ++ [ChatMessage.mk assistant content]]> histories,
            contributions ++ [debateTurnOf round agent content])
   | inr e => inr e
   end,
   tr ++ [existT request (env tr request)]).
Proof.
  intros Hhistory prompt request. unfold debateTurn. rewrite Hhistory, run_bind, run_callLlm.
  fold prompt. fold (debateRequest MAX_DEBATE_RESPONSE_TOKENS agent (history ++ [prompt])). fold request.
  by destruct (env tr request).
Qed.

Lemma run_debateTurns_history round previousRoundTurns todo (H : nat → list ChatMessage.t)
    histories contributions tr outcome tr' :
  NoDup (DebateAgent.id <$> todo) →
  (∀ j agent, todo !! j = Some agent → histories !! DebateAgent.id agent = Some (H j)) →
  run env
    (forOf (debateTurn MAX_DEBATE_RESPONSE_TOKENS input round previousRoundTurns) todo
       (histories, contributions)) tr = (outcome, tr') →
  ∃ new,
    tr' = tr ++ new ∧
    (length new ≤ length todo)%nat ∧
    (∀ j it agent, todo !! j = Some agent → new !! j = Some it →
       ∃ lastMessage, requestOf it = debateRequest MAX_DEBATE_RESPONSE_TOKENS agent (H j ++ [lastMessage])) ∧
    match outcome with
    | inl (histories', _) =>
        length new = length todo ∧
        (∀ j it agent, todo !! j = Some agent → new !! j = Some it →
           histories' !! DebateAgent.id agent =
           Some (LlmCallInput.messages (requestOf it) ++
                 [ChatMessage.mk assistant (textAt new j)])) ∧
        (∀ key, key ∉ DebateAgent.id <$> todo → histories' !! key = histories !! key)
    | inr _ => True
    end.
Proof.
  revert H histories contributions tr.
  induction todo as [|agent rest IH]; intros H histories contributions tr Hnodup Hhistories Hrun.
  - simpl in Hrun. simplify_eq. exists []. rewrite app_nil_r.
    split_and!; try done; intros j ? ?; by rewrite lookup_nil.
  - change (forOf ?body (agent :: rest) ?acc) with (body acc agent ≫= forOf body rest) in Hrun.
    rewrite run_bind in Hrun.
    rewrite (run_debateTurn_request _ _ _ _ _ (H 0%nat)) in Hrun
      by (by apply (Hhistories 0%nat)).
    cbv zeta in Hrun.
    set (prompt := ChatMessage.mk user _) in Hrun.
    set (request := CallLlm _) in Hrun.
    set (it := existT request (env tr request) : LlmInteraction) in *.
    apply NoDup_cons in Hnodup as [Hfresh Hnodup].
    destruct (env tr request) as [content|e] eqn:Hanswer.
    + apply (IH (λ j, H (S j))) in Hrun as (new & -> & Hlen & Hrequests & Hout); [|done|].
      2: { intros j agent' Hagent'. rewrite lookup_insert_ne.
           - by apply (Hhistories (S j)).
           - intros Hid. apply Hfresh. rewrite Hid.
             apply list_elem_of_fmap_2. by eapply list_elem_of_lookup_2. }
      exists (it :: new). split_and!.
      * by rewrite <-app_assoc.
      * simpl. lia.
      * intros [|j] it' agent'; simpl.
        -- intros [= <-] [= <-]. by exists prompt.
        -- apply Hrequests.
      * destruct outcome as [[histories' contributions']|e]; [|done].
        destruct Hout as (Hlen' & Hafter & Hother). split_and!.
        -- simpl. by rewrite Hlen'.
        -- intros [|j] it' agent'; simpl.
           ++ intros [= <-] [= <-]. rewrite Hother by done. by rewrite lookup_insert_eq.
           ++ intros Hagent' Hit'. rewrite textAt_cons. by eapply Hafter.
        -- intros key Hkey. rewrite fmap_cons, not_elem_of_cons in Hkey.
           destruct Hkey as [Hne Hkey]. rewrite Hother by done. by rewrite lookup_insert_ne.
    + simplify_eq. exists [it]. split_and!; [done|simpl; lia| |done].
      intros [|j] it' agent'; simpl; [|by intros ? [=]].
      intros [= <-] [= <-]. by exists prompt.
Qed.


Lemma run_debateRounds_history remaining round (H : nat → list ChatMessage.t) histories
    transcript tr outcome tr' :
  let agents := DebateInput.agents input in
  NoDup (DebateAgent.id <$> agents) →
  (∀ j agent, agents !! j = Some agent → histories !! DebateAgent.id agent = Some (H j)) →
  run env (debateRounds MAX_DEBATE_RESPONSE_TOKENS input remaining round histories transcript) tr
    = (outcome, tr') →
  ∃ new,
    tr' = tr ++ new ∧
    (∀ j it agent, agents !! j = Some agent → new !! j = Some it →
       ∃ lastMessage, requestOf it = debateRequest MAX_DEBATE_RESPONSE_TOKENS agent (H j ++ [lastMessage])) ∧
    (∀ k j it it' agent, agents !! j = Some agent →
       new !! (S k * length agents + j)%nat = Some it →
       new !! (k * length agents + j)%nat = Some it' →
       ∃ lastMessage,
         requestOf it =
         debateRequest MAX_DEBATE_RESPONSE_TOKENS agent
           (LlmCallInput.messages (requestOf it') ++
            [ChatMessage.mk assistant (textAt new (k * length agents + j)); lastMessage])) ∧
    match outcome with
    | inl (histories', _) =>
        length new = (remaining * length agents)%nat ∧
        ∀ j agent, agents !! j = Some agent →
          histories' !! DebateAgent.id agent =
          Some match remaining with
               | O => H j
               | S m =>
                   match new !! (m * length agents + j)%nat with
                   | Some it =>
                       LlmCallInput.messages (requestOf it) ++
                       [ChatMessage.mk assistant (textAt new (m * length agents + j))]
                   | None => []
                   end
               end
    | inr _ => True
    end.
Proof.
  intros agents Hnodup. revert round H histories transcript tr.
  induction remaining as [|remaining IH]; intros round H histories transcript tr Hhistories Hrun.
  - simpl in Hrun. simplify_eq. exists []. rewrite app_nil_r.
    split_and!; try done; intros; by rewrite ?lookup_nil in *.
  - cbn [debateRounds] in Hrun. cbv zeta in Hrun. fold agents in Hrun.
    rewrite run_bind in Hrun.
    destruct (run env (forOf _ agents _) tr) as [[[histories1 contributions]|e] tr1] eqn:Hround.
    + apply (run_debateTurns_history _ _ _ H) in Hround
        as (new1 & -> & _ & Hrequests1 & Hlen1 & Hafter1 & _); [|done|done].
      set (after := λ j, match new1 !! j with
                      | Some it =>
                          LlmCallInput.messages (requestOf it) ++
                          [ChatMessage.mk assistant (textAt new1 j)]
                      | None => []
                      end).
      assert (∀ j agent, agents !! j = Some agent →
                histories1 !! DebateAgent.id agent = Some (after j)) as Hhistories1.
      { intros j agent Hagent. subst after. cbv beta.
        destruct (new1 !! j) as [it|] eqn:Hit.
        - by eapply Hafter1.
        - apply lookup_ge_None in Hit. apply lookup_lt_Some in Hagent. lia. }
      destruct (IH _ after _ _ _ Hhistories1 Hrun) as (new2 & -> & Hrequests2 & Hnext2 & Hout).
      exists (new1 ++ new2). split_and!.
      * by rewrite app_assoc.
      * intros j it agent Hagent Hit. pose proof (lookup_lt_Some _ _ _ Hagent) as Hj.
        rewrite lookup_app_l in Hit by lia. by eapply Hrequests1.
      * intros k j it it' agent Hagent Hit Hit'.
        pose proof (lookup_lt_Some _ _ _ Hagent) as Hj.
        destruct k as [|k].
        -- rewrite Nat.mul_0_l, Nat.add_0_l in *. rewrite Nat.mul_1_l in Hit.
           rewrite lookup_app_r in Hit by lia.
           replace (length agents + j - length new1)%nat with j in Hit by lia.
           rewrite lookup_app_l in Hit' by lia.
           destruct (Hrequests2 j it agent Hagent Hit) as [lastMessage Hrequest].
           exists lastMessage. rewrite Hrequest. subst after. cbv beta. rewrite Hit'.
           rewrite textAt_app_l by lia. by rewrite <-app_assoc.
        -- rewrite lookup_app_r in Hit, Hit' by lia.
           replace (S (S k) * length agents + j - length new1)%nat
             with (S k * length agents + j)%nat in Hit by lia.
           replace (S k * length agents + j - length new1)%nat
             with (k * length agents + j)%nat in Hit' by lia.
           destruct (Hnext2 k j it it' agent Hagent Hit Hit') as [lastMessage Hrequest].
           exists lastMessage. rewrite Hrequest.
           replace (S k * length agents + j)%nat
             with (length new1 + (k * length agents + j))%nat by lia.
           by rewrite textAt_app_r.
      * destruct outcome as [[histories' transcript']|e]; [|done].
        destruct Hout as [Hlen2 Hafter2]. split; [rewrite length_app; lia|].
        intros j agent Hagent. pose proof (lookup_lt_Some _ _ _ Hagent) as Hj.
        rewrite (Hafter2 j agent Hagent). f_equal. destruct remaining as [|m].
        -- rewrite Nat.mul_0_l, Nat.add_0_l. subst after. cbv beta.
           rewrite lookup_app_l by lia. destruct (new1 !! j); [|done].
           by rewrite textAt_app_l by lia.
        -- rewrite lookup_app_r by lia.
           replace (S m * length agents + j - length new1)%nat
             with (m * length agents + j)%nat by lia.
           destruct (new2 !! _); [|done].
           replace (S m * length agents + j)%nat
             with (length new1 + (m * length agents + j))%nat by lia.
           by rewrite textAt_app_r.
    + simplify_eq.
      apply (run_debateTurns_history _ _ _ H) in Hround
        as (new1 & -> & Hlen1 & Hrequests1 & _); [|done|done].
      exists new1. split_and!; [done|done| |done].
      intros k j it it' agent Hagent Hit. apply lookup_lt_Some in Hit. lia.
Qed.


Lemma initialHistories_lookup agents j agent :
  NoDup (DebateAgent.id <$> agents) → agents !! j = Some agent →
  initialHistories agents !! DebateAgent.id agent = Some [systemMessage agent].
Proof.
  unfold initialHistories. generalize (∅ : gmap string (list ChatMessage.t)).
  intros histories Hnodup Hagent.
  assert (histories !! DebateAgent.id agent = Some [systemMessage agent] ∧
          DebateAgent.id agent ∉ DebateAgent.id <$> agents ∨
          ∃ j, agents !! j = Some agent) as Hkey by (right; by exists j).
  clear Hagent. revert histories Hkey.
  induction agents as [|first agents IH]; intros histories Hkey; simpl.
  - destruct Hkey as [[Hkey _]|[j' Hkey]]; [done|by rewrite lookup_nil in Hkey].
  - apply NoDup_cons in Hnodup as [Hfresh Hnodup]. apply IH; [done|].
    destruct Hkey as [[Hkey Hnew]|[[|j'] Hkey]].
    + left. rewrite fmap_cons, not_elem_of_cons in Hnew. destruct Hnew as [Hne Hnew].
      by rewrite lookup_insert_ne.
    + left. simpl in Hkey. simplify_eq. by rewrite lookup_insert_eq.
    + right. by exists j'.
Qed.

(** The history and the prompt of a round do not depend on what the
    log holds after the requests of that round. *)
Lemma roundPromptOf_app log suffix (r : nat) agent :
  (r ≤ 1 ∨ (r - 1) * length (DebateInput.agents input) ≤ length log)%nat →
  roundPromptOf input (log ++ suffix) r agent = roundPromptOf input log r agent.
Proof.
  intros Hr. unfold roundPromptOf. case_decide; [done|].
  unfold roundTurns. rewrite roundTurnsAt_app_l; [done|].
  destruct Hr as [Hr|Hr]; [lia|]. nia.
Qed.

Lemma historyAfter_app log suffix (i : nat) agent (r : nat) :
  (i < length (DebateInput.agents input))%nat →
  (r * length (DebateInput.agents input) ≤ length log)%nat →
  historyAfter input (log ++ suffix) i agent r = historyAfter input log i agent r.
Proof.
  intros Hi. induction r as [|r IH]; intros Hr; [done|].
  cbn [historyAfter]. rewrite IH by lia. rewrite roundPromptOf_app by (right; lia).
  unfold roundRequest. rewrite textAt_app_l by nia. done.
Qed.


Lemma hasRoundPrompt_last round agent previousRoundTurns it messages lastMessage :
  hasRoundPrompt input round agent previousRoundTurns it →
  LlmCallInput.messages (requestOf it) = messages ++ [lastMessage] →
  lastMessage =
  ChatMessage.mk user
    (buildRoundPrompt
       (RoundPromptInput.mk (DebateInput.question input) round (DebateInput.rounds input) agent
          previousRoundTurns)).
Proof.
  unfold hasRoundPrompt. intros Hlast Hmessages. rewrite Hmessages, last_snoc in Hlast.
  by injection Hlast.
Qed.

(** The requests of the rounds in closed form, from how each request
    extends the one of the round before. *)
Lemma debate_requests_closed_form (new : list LlmInteraction) :
  let agents := DebateInput.agents input in
  (∀ j it agent, agents !! j = Some agent → new !! j = Some it →
     ∃ lastMessage,
       requestOf it =
       debateRequest MAX_DEBATE_RESPONSE_TOKENS agent ([systemMessage agent] ++ [lastMessage])) →
  (∀ k j it it' agent, agents !! j = Some agent →
     new !! (S k * length agents + j)%nat = Some it →
     new !! (k * length agents + j)%nat = Some it' →
     ∃ lastMessage,
       requestOf it =
       debateRequest MAX_DEBATE_RESPONSE_TOKENS agent
         (LlmCallInput.messages (requestOf it') ++
          [ChatMessage.mk assistant (textAt new (k * length agents + j)); lastMessage])) →
  (∀ j it agent, agents !! j = Some agent → new !! j = Some it →
     hasRoundPrompt input 1 agent [] it) →
  (∀ k j it agent, agents !! j = Some agent →
     new !! (S k * length agents + j)%nat = Some it →
     hasRoundPrompt input (1 + Z.of_nat (S k)) agent
       (roundTurnsAt agents new (1 + Z.of_nat k) (k * length agents)) it) →
  ∀ k i agent it, agents !! i = Some agent →
    new !! (k * length agents + i)%nat = Some it →
    requestOf it =
    debateRequest MAX_DEBATE_RESPONSE_TOKENS agent
      (historyAfter input new i agent k ++ [roundPromptOf input new (S k) agent]).
Proof.
  intros agents Hfirst Hnext Hprompt1 Hprompts k.
  induction k as [|k IH]; intros i agent it Hagent Hit.
  - rewrite Nat.mul_0_l, Nat.add_0_l in Hit.
    destruct (Hfirst i it agent Hagent Hit) as [lastMessage Hrequest].
    rewrite Hrequest. f_equal. cbn [historyAfter]. f_equal. f_equal.
    eapply hasRoundPrompt_last; [by eapply Hprompt1|]. by rewrite Hrequest.
  - pose proof (lookup_lt_Some _ _ _ Hit) as Hlt.
    destruct (lookup_lt_is_Some_2 new (k * length agents + i)) as [it' Hit']; [lia|].
    destruct (Hnext k i it it' agent Hagent Hit Hit') as [lastMessage Hrequest].
    rewrite Hrequest. f_equal. rewrite (IH i agent it' Hagent Hit').
    cbn [LlmCallInput.messages debateRequest historyAfter].
    rewrite <-!app_assoc. f_equal. cbn [app]. f_equal.
    unfold roundRequest. fold agents. replace (S k - 1)%nat with k by lia. f_equal. f_equal.
    rewrite (hasRoundPrompt_last _ _ _ _
               (LlmCallInput.messages (requestOf it') ++
                [ChatMessage.mk assistant (textAt new (k * length agents + i))])
               lastMessage (Hprompts k i it agent Hagent Hit))
      by (by rewrite Hrequest, <-app_assoc).
    unfold roundPromptOf. rewrite decide_False by lia. fold agents. unfold roundTurns.
    replace (S (S k) - 1)%nat with (S k) by lia. replace (S k - 1)%nat with k by lia.
    replace (Z.of_nat (S (S k))) with (1 + Z.of_nat (S k)) by lia.
    by replace (Z.of_nat (S k)) with (1 + Z.of_nat k) by lia.
Qed.


(** The rounds of [runDebate]: its requests in closed form, and the
    histories and the transcript it ends with. *)
Lemma run_debateRounds_closed (remaining : nat) tr outcome tr' :
  let agents := DebateInput.agents input in
  NoDup (DebateAgent.id <$> agents) →
  run env
    (debateRounds MAX_DEBATE_RESPONSE_TOKENS input remaining 1 (initialHistories agents) []) tr
    = (outcome, tr') →
  ∃ new,
    tr' = tr ++ new ∧
    (∀ k i agent it, agents !! i = Some agent →
       new !! (k * length agents + i)%nat = Some it →
       requestOf it =
       debateRequest MAX_DEBATE_RESPONSE_TOKENS agent
         (historyAfter input new i agent k ++ [roundPromptOf input new (S k) agent])) ∧
    match outcome with
    | inl (histories, transcript) =>
        length new = (remaining * length agents)%nat ∧
        transcript =
          mjoin ((λ k, roundTurnsAt agents new (1 + Z.of_nat k) (k * length agents))
                   <$> seq 0 remaining) ∧
        ∀ m moderator, agents !! m = Some moderator →
          histories !! DebateAgent.id moderator =
          Some (historyAfter input new m moderator remaining)
    | inr _ => True
    end.
Proof.
  intros agents Hnodup Hrounds. pose proof Hrounds as Hhistory.
  apply run_debateRounds in Hrounds as (new & -> & Hlen & Hprompt1 & Hprompts & Hout);
    [|by apply initialHistories_is_Some|done].
  apply (run_debateRounds_history _ _
           (λ j, match agents !! j with
                 | Some agent => [systemMessage agent]
                 | None => []
                 end)) in Hhistory
    as (new' & Hnew & Hfirst & Hnext & Hout'); [|done|].
  2: { intros j agent Hagent. fold agents in Hagent. rewrite Hagent.
       by eapply initialHistories_lookup. }
  apply app_inv_head in Hnew as <-. fold agents in Hlen, Hprompt1, Hprompts, Hfirst, Hnext.
  assert (∀ k i agent it, agents !! i = Some agent →
            new !! (k * length agents + i)%nat = Some it →
            requestOf it =
            debateRequest MAX_DEBATE_RESPONSE_TOKENS agent
              (historyAfter input new i agent k ++ [roundPromptOf input new (S k) agent]))
    as Hclosed.
  { apply debate_requests_closed_form; try done.
    intros j it agent Hagent Hit. destruct (Hfirst j it agent Hagent Hit) as [lastMessage ->].
    exists lastMessage. fold agents in Hagent. by rewrite Hagent. }
  exists new. split; [done|]. split; [done|].
  destruct outcome as [[histories transcript]|e]; [|done].
  destruct Hout as (Hfull & -> & _). destruct Hout' as (_ & Hafter).
  fold agents in Hfull, Hafter. split_and!; [done|done|].
  intros m moderator Hm. rewrite (Hafter m moderator Hm). f_equal.
  pose proof (lookup_lt_Some _ _ _ Hm) as Hlt. fold agents in Hlt.
  destruct remaining as [|k]; [by rewrite Hm|].
  destruct (lookup_lt_is_Some_2 new (k * length agents + m)) as [it Hit]; [lia|].
  rewrite Hit, (Hclosed k m moderator it Hm Hit).
  cbn [LlmCallInput.messages debateRequest historyAfter]. rewrite <-app_assoc.
  unfold roundRequest. fold agents. by replace (S k - 1)%nat with k by lia.
Qed.

(** X17.  In a debate whose agents have pairwise distinct ids, the
    request made for an agent in round [r] carries the agent's provider
    and model, temperature 0.5, the debate token limit, and as messages
    the agent's own history: its system message, then for every earlier
    round its prompt and the answer it got, then the prompt of round
    [r].  When the debate returns, the synthesis request carries the
    moderator's history after all rounds followed by the moderator
    prompt built from the turns of all rounds, with temperature 0.2 and
    950 tokens. *)
Theorem debate_requests_carry_own_history (tr : list LlmInteraction) outcome tr' :
  let agents := DebateInput.agents input in
  let rounds := Z.to_nat (DebateInput.rounds input) in
  NoDup (DebateAgent.id <$> agents) →
  run env (runDebate MAX_DEBATE_RESPONSE_TOKENS input) tr = (outcome, tr') →
  ∃ log,
    tr' = tr ++ log ∧
    (∀ r i agent it, (1 ≤ r ≤ rounds)%nat → agents !! i = Some agent →
       log !! roundRequest agents r i = Some it →
       requestOf it =
       debateRequest MAX_DEBATE_RESPONSE_TOKENS agent
         (historyAfter input log i agent (r - 1) ++ [roundPromptOf input log r agent])) ∧
    match outcome with
    | inl _ =>
        ∃ m moderator it,
          agents !! m = Some moderator ∧ findModerator agents = Some moderator ∧
          last log = Some it ∧
          requestOf it =
          LlmCallInput.mk (DebateAgent.provider moderator) (DebateAgent.model moderator)
            (historyAfter input log m moderator rounds ++
             [ChatMessage.mk user
                (buildModeratorPrompt (DebateInput.question input)
                   (mjoin (roundTurns agents log <$> seq 1 rounds))
                   (DebateInput.rounds input))])
            (Some (1 # 5)%Q) (Some 950)
    | inr _ => True
    end.
Proof.
  intros agents rounds Hnodup. unfold runDebate. rewrite run_bind. fold agents rounds.
  destruct (run env (debateRounds _ _ _ _ _ _) tr) as [[[histories transcript]|e] tr1] eqn:Hrounds;
    apply run_debateRounds_closed in Hrounds as (new & -> & Hclosed & Hout); try done;
    fold agents in Hclosed, Hout.
  - destruct Hout as (Hfull & -> & Hafter).
    assert (∀ suffix r i agent it, (1 ≤ r ≤ rounds)%nat → agents !! i = Some agent →
              (new ++ suffix) !! roundRequest agents r i = Some it →
              requestOf it =
              debateRequest MAX_DEBATE_RESPONSE_TOKENS agent
                (historyAfter input (new ++ suffix) i agent (r - 1) ++
                 [roundPromptOf input (new ++ suffix) r agent])) as Hrequests.
    { intros suffix r i agent it Hr Hagent Hit. pose proof (lookup_lt_Some _ _ _ Hagent) as Hi.
      unfold roundRequest in Hit. fold agents in Hi, Hit.
      rewrite lookup_app_l in Hit by nia.
      destruct r as [|k]; [lia|]. replace (S k - 1)%nat with k in * by lia.
      rewrite (Hclosed k i agent it Hagent Hit).
      rewrite historyAfter_app by (fold agents; nia).
      by rewrite roundPromptOf_app by (fold agents; right; nia). }
    destruct (findModerator agents) as [moderator|] eqn:Hmoderator.
    2: { intros [= <- <-]. exists new. split; [done|]. split; [|done].
         specialize (Hrequests []). by rewrite app_nil_r in Hrequests. }
    destruct (list_elem_of_lookup_1 _ _ (findModerator_elem_of _ _ Hmoderator)) as [m Hm].
    rewrite (Hafter m moderator Hm). rewrite run_bind, run_callLlm.
    match goal with |- context [env _ ?ev] => set (request := ev) end.
    destruct (env (tr ++ new) request) as [finalAnswer|e] eqn:Hanswer;
      intros [= <- <-]; exists (new ++ [existT request (env (tr ++ new) request)]);
      rewrite Hanswer; (split; [by rewrite app_assoc|]); (split; [by apply Hrequests|]);
      [|done].
    exists m, moderator, (existT request (inl finalAnswer)).
    split_and!; [done|done|by rewrite last_snoc|].
    pose proof (lookup_lt_Some _ _ _ Hm) as Hlt. fold agents in Hlt.
    subst request. cbn [requestOf projT1]. f_equal. f_equal.
    + by rewrite historyAfter_app by (fold agents; lia).
    + do 3 f_equal. rewrite <-fmap_S_seq, <-list_fmap_compose. f_equal.
      apply list_fmap_ext. intros i k Hik. apply lookup_seq in Hik as [Hik Hk]. simpl in *.
      subst k. unfold roundTurns. replace (i - 0)%nat with i by lia.
      rewrite roundTurnsAt_app_l by nia. f_equal; lia.
  - intros [= <- <-]. exists new. split; [done|]. split; [|done].
    intros r i agent it Hr Hagent Hit. unfold roundRequest in Hit. fold agents in Hit.
    destruct r as [|k]; [lia|]. replace (S k - 1)%nat with k in * by lia.
    by apply Hclosed.
Qed.

End DebateHistories.

(** The second agent of the example debate in round 2. *)
Lemma debate_requests_carry_own_history_witness :
  let agents := DebateInput.agents exampleDebate in
  let log := debateLog 450 answeringEnv exampleDebate [] in
  ∃ (agent : DebateAgent.t) (it : LlmInteraction),
    agents !! 1%nat = Some agent ∧
    log !! roundRequest agents 2 1 = Some it ∧
    LlmCallInput.messages (requestOf it) =
      historyAfter exampleDebate log 1 agent 1 ++ [roundPromptOf exampleDebate log 2 agent].
Proof.
  intros agents log. eexists _, _.
  split; [reflexivity|]. split; [vm_compute; reflexivity|].
  destruct (debate_requests_carry_own_history 450 answeringEnv exampleDebate [] _ _
              ltac:(by apply (bool_decide_unpack _)) (surjective_pairing _))
    as (log' & Hlog & Hrequests & _).
  change (run answeringEnv (runDebate 450 exampleDebate) []).2 with
    (drop 0 (run answeringEnv (runDebate 450 exampleDebate) []).2) in Hlog.
  change (log = log') in Hlog. subst log'.
  rewrite (Hrequests 2%nat 1%nat _ _ ltac:(simpl; lia) eq_refl ltac:(vm_compute; reflexivity)).
  reflexivity.
Defined.

(** ** lib/experiment.ts: serial and concurrent mode *)

Section Interleavings.
Context {E : Type} {Resp : E → Type}.
Context (env : Env E Resp) (answer : ∀ ev : E, Resp ev).
Context (Hstateless : ∀ tr ev, env tr ev = answer ev).

Lemma run_outcomeOf {A} (p : Proc E Resp A) tr : (run env p tr).1 = outcomeOf answer p.
Proof.
  revert tr. induction p as [a|e|ev k IH]; intros tr; simpl; [done|done|].
  by rewrite IH, Hstateless.
Qed.

Lemma settledInOrder_outcomeOf {A} (ps : list (Proc E Resp A)) tr :
  (settledInOrder env ps tr).1 = (λ p, settlementOfOutcome (outcomeOf answer p)) <$> ps.
Proof.
  revert tr. induction ps as [|p ps IH]; intros tr; [done|].
  cbn [settledInOrder]. pose proof (run_outcomeOf p tr) as Hp.
  destruct (run env p tr) as [outcome tr1]. specialize (IH tr1).
  destruct (settledInOrder env ps tr1) as [rest tr2]. simpl in *. by rewrite Hp, IH.
Qed.

Lemma run_allSettled_outcomeOf {A} schedule (ps : list (Proc E Resp A)) tr :
  (run env (allSettled schedule ps) tr).1 =
  inl ((λ p, settlementOfOutcome (outcomeOf answer p)) <$> ps).
Proof.
  revert ps tr. induction schedule as [|i schedule IH]; intros ps tr.
  - cbn [allSettled]. rewrite run_forOf_settled. cbn [fst app].
    by rewrite settledInOrder_outcomeOf.
  - cbn [allSettled]. destruct (ps !! i) as [[a|e|ev k]|] eqn:Hi; try apply IH.
    cbn [run]. rewrite IH, Hstateless, list_fmap_insert. f_equal.
    apply list_insert_id. by rewrite list_lookup_fmap, Hi.
Qed.

End Interleavings.

(** X18.  On a backend whose answers depend on the request alone,
    [runExperiment] returns the same response in concurrent mode, under
    every interleaving of the conditions, as in serial mode. *)
Theorem interleaving_does_not_matter (MAX_DEBATE_RESPONSE_TOKENS DEFAULT_DEBATE_ROUNDS : Z)
    (FORCE_GEMINI_ONLY : bool) (models : ModelCatalog.t) (runId createdAt : string)
    (draw : nat → nat) (schedule schedule' : list nat) (question : string)
    (env : Env LlmEvent LlmResp) (answer : LlmEvent → string + Thrown)
    (tr tr' : list LlmInteraction) :
  (∀ tr ev, env tr ev = answer ev) →
  (run env
     (runExperiment MAX_DEBATE_RESPONSE_TOKENS DEFAULT_DEBATE_ROUNDS FORCE_GEMINI_ONLY false
        models runId createdAt draw schedule question) tr).1
  = (run env
       (runExperiment MAX_DEBATE_RESPONSE_TOKENS DEFAULT_DEBATE_ROUNDS FORCE_GEMINI_ONLY true
          models runId createdAt draw schedule' question) tr').1.
Proof.
  intros Hstateless. unfold runExperiment. rewrite !run_bind.
  rewrite run_runConditionsSequentially, run_runConditionsInParallel.
  pose proof (run_allSettled_outcomeOf env answer Hstateless schedule
                (conditionRunners MAX_DEBATE_RESPONSE_TOKENS DEFAULT_DEBATE_ROUNDS
                   FORCE_GEMINI_ONLY models question) tr) as Hparallel.
  destruct (run env (allSettled _ _) tr) as [[ss|e] tr1]; simpl in Hparallel; [|done].
  injection Hparallel as ->.
  by rewrite (settledInOrder_outcomeOf env answer Hstateless).
Qed.

(** One interleaving of the four conditions against the serial run. *)
Lemma interleaving_does_not_matter_witness :
  (run statelessEnv
     (runExperiment 450 1 false false exampleModels "run-1" "2025-01-01T00:00:00.000Z"
        (λ _, 0%nat) [1; 2; 1; 0; 2]%nat "What is six times seven?") []).1
  = (run statelessEnv
       (runExperiment 450 1 false true exampleModels "run-1" "2025-01-01T00:00:00.000Z"
          (λ _, 0%nat) [] "What is six times seven?") []).1.
Proof.
  apply (interleaving_does_not_matter 450 1 false exampleModels "run-1"
           "2025-01-01T00:00:00.000Z" (λ _, 0%nat) [1; 2; 1; 0; 2]%nat [] "What is six times seven?"
           statelessEnv (statelessEnv [])).
  by intros tr [input].
Defined.

(** ** lib/providers.ts: base URLs *)

Lemma append_cons_inv (p : string) c (s t : string) :
  p +:+ t = String c s → (p = EmptyString ∧ t = String c s) ∨ ∃ p', p = String c p' ∧ p' +:+ t = s.
Proof.
  intros Heq. destruct p as [|c' p']; [by left|]. right.
  change (String c' (p' +:+ t) = String c s) in Heq.
  injection Heq as -> <-. by eexists.
Qed.

Lemma normalizeBaseUrl_no_slash_at_end (baseUrl prefix : string) :
  normalizeBaseUrl baseUrl ≠ prefix +:+ String SLASH EmptyString.
Proof.
  revert prefix. induction baseUrl as [|c rest IH]; intros prefix Heq.
  - symmetry in Heq. by destruct prefix.
  - cbn [normalizeBaseUrl] in Heq. destruct (normalizeBaseUrl rest) as [|c' rest'] eqn:Hrest.
    + destruct (Ascii.eqb c SLASH) eqn:Hc.
      * symmetry in Heq. by destruct prefix.
      * symmetry in Heq. apply append_cons_inv in Heq as [[_ [= <-]]|(p' & -> & Hp')].
        -- by rewrite Ascii.eqb_refl in Hc.
        -- by destruct p'.
    + symmetry in Heq. apply append_cons_inv in Heq as [[_ [=]]|(p' & -> & Hp')].
      by apply (IH p').
Qed.

Lemma normalizeBaseUrl_unchanged (baseUrl : string) :
  (∀ prefix, baseUrl ≠ prefix +:+ String SLASH EmptyString) →
  normalizeBaseUrl baseUrl = baseUrl.
Proof.
  induction baseUrl as [|c rest IH]; intros Hend; [done|].
  cbn [normalizeBaseUrl].
  destruct rest as [|c' rest'].
  - cbn. destruct (Ascii.eqb c SLASH) eqn:Hc; [|done].
    apply Ascii.eqb_eq in Hc as ->. by destruct (Hend EmptyString).
  - rewrite IH.
    + done.
    + intros prefix Hprefix. apply (Hend (String c prefix)).
      change (String c (String c' rest') = String c (prefix +:+ String SLASH EmptyString)).
      by f_equal.
Qed.

Lemma normalizeBaseUrl_slashes (baseUrl : string) :
  ∃ n, baseUrl = normalizeBaseUrl baseUrl +:+ slashes n.
Proof.
  induction baseUrl as [|c rest [n IH]]; [by exists 0%nat|].
  cbn [normalizeBaseUrl]. destruct (normalizeBaseUrl rest) as [|c' rest'] eqn:Hrest.
  - destruct (Ascii.eqb c SLASH) eqn:Hc.
    + apply Ascii.eqb_eq in Hc as ->. exists (S n).
      change (String SLASH rest = String SLASH (slashes n)).
      change (rest = slashes n) in IH. by f_equal.
    + exists n. change (String c rest = String c (slashes n)).
      change (rest = slashes n) in IH. by f_equal.
  - exists n. change (String c rest = String c (String c' rest' +:+ slashes n)). by f_equal.
Qed.

(** X16.  [normalizeBaseUrl] removes the slashes at the end and nothing
    else: the input is the result followed by slashes, the result does
    not end with a slash, and normalizing twice changes nothing more. *)
Theorem normalizeBaseUrl_strips_slashes (baseUrl : string) :
  (∃ n, baseUrl = normalizeBaseUrl baseUrl +:+ slashes n) ∧
  (∀ prefix, normalizeBaseUrl baseUrl ≠ prefix +:+ String SLASH EmptyString) ∧
  normalizeBaseUrl (normalizeBaseUrl baseUrl) = normalizeBaseUrl baseUrl.
Proof.
  split_and!.
  - apply normalizeBaseUrl_slashes.
  - apply normalizeBaseUrl_no_slash_at_end.
  - apply normalizeBaseUrl_unchanged, normalizeBaseUrl_no_slash_at_end.
Qed.
